(** * stdidx: the standards index builder (tree.go, types.go, main.go,
    git.go)

    A shallow embedding of the Go program and the properties of its
    hierarchy builder, header extractor, document collector and
    serialised output.

    Go strings are byte strings: [string] (a list of 8-bit [ascii]).
    A [*Node] is represented by the key under which the node is stored in
    the [nodes] map of [BuildHierarchy]: that map is the only allocation
    site whose pointers survive, and [nodes[file.Path]] holds the node built
    for [file.Path], so two live pointers are equal exactly when the paths
    are.  A node overwritten in the map by a later record of the same path is
    unreachable from then on.

    The commands of main.go and git.go act on the world outside the
    program.  The state of that world is represented by the calls made so
    far ([Call]), and what it answers is a function of them ([System]). *)

From Stdlib Require Import Strings.String Strings.Ascii.
From stdpp Require Import gmap strings list fin_maps sorting.

Local Open Scope string_scope.
Local Open Scope list_scope.
Local Open Scope nat_scope.

(** ** Byte-wise comparison of Go strings *)

Module GoString.

(** [a < b] on Go strings: lexicographic on bytes. *)
Definition lt (a b : string) : bool := String.ltb a b.

Definition le (a b : string) : Prop := lt b a = false.

End GoString.

(** ** The contract of [sort.Slice] *)

(** What the [less] argument of the [sort] package has to satisfy: a strict
    ordering that is transitive, and whose incomparability is transitive. *)
Record LessOrder {A} (less : A → A → bool) : Prop := {
  less_irrefl : ∀ a, less a a = false;
  less_trans : ∀ a b c, less a b = true → less b c = true → less a c = true;
  less_incomp_trans :
    ∀ a b c, less a b = false → less b c = false → less a c = false
}.

(** [sort.Slice] is library code.  It is not stable and its algorithm changes
    with the Go release, so it is kept abstract. *)
Class SortSlice := {
  sort_Slice : ∀ {A}, (A → A → bool) → list A → list A
}.

(** What the [sort] package promises: the result is a rearrangement of the
    slice, in ascending order as determined by [less]. *)
Class SortSliceLaws (sorter : SortSlice) : Prop := {
  sort_Slice_perm : ∀ A (less : A → A → bool) l, sort_Slice less l ≡ₚ l;
  sort_Slice_sorted : ∀ A (less : A → A → bool) l,
    LessOrder less →
    StronglySorted (λ a b, less b a = false) (sort_Slice less l)
}.

(** [sort.Slice] reads the elements only through [less] and moves them by
    index ([reflect.Swapper]): sorting commutes with renaming the elements. *)
Class SortSliceNatural (sorter : SortSlice) : Prop := {
  sort_Slice_natural :
    ∀ A B (f : A → B) (less : B → B → bool) (less' : A → A → bool) l,
      (∀ a b, less' a b = less (f a) (f b)) →
      sort_Slice less (f <$> l) = f <$> sort_Slice less' l
}.

(** The insertion sort that [sort.Slice] runs on short slices
    ([insertionSortLessFunc]): element [i] moves left while it is less than
    its left neighbour.  [sink] works on the sorted prefix held in reverse. *)
Fixpoint sink {A} (less : A → A → bool) (x : A) (prefix : list A) : list A :=
  match prefix with
  | [] => [x]
  | y :: ys => if less x y then y :: sink less x ys else x :: y :: ys
  end.

Definition insertionSort {A} (less : A → A → bool) (l : list A) : list A :=
  rev (foldl (λ prefix x, sink less x prefix) [] l).

Definition insertion_SortSlice : SortSlice :=
  {| sort_Slice := @insertionSort |}.

(** ** Data model (types.go) *)

(** A Go slice value is [nil] or a sequence; [validate:"required"] and
    nothing else in the program tells the two apart. *)
Definition GoSlice (A : Type) : Type := option (list A).

Module StandardsHeader.
Record t := mk {
  Title : string;
  Description : string;
  Scope : string;
  Topics : GoSlice string;
  Parent : option string
}.
(** The zero value of [var header StandardsHeader]. *)
Definition zero : t := mk "" "" "" None None.
Definition with_Parent (p : option string) (h : t) : t :=
  mk (Title h) (Description h) (Scope h) (Topics h) p.
End StandardsHeader.

Module StandardsFile.
Record t := mk {
  Path : string;
  Header : StandardsHeader.t
}.
Definition with_Header (h : StandardsHeader.t) (f : t) : t := mk (Path f) h.
End StandardsFile.

(** A [*Node]: the path under which the node is registered. *)
Abbreviation ptr := string.

Module Node.
Record t := mk {
  Path : string;
  Title : string;
  Description : string;
  Scope : string;
  Topics : GoSlice string;
  Parent : option string;
  Children : list ptr
}.
Definition with_Children (cs : list ptr) (n : t) : t :=
  mk (Path n) (Title n) (Description n) (Scope n) (Topics n) (Parent n) cs.
End Node.

Record StandardsTree := { Nodes : list ptr }.

(** ** Diagnostics (logrus) *)

Inductive Level := DebugLevel | WarnLevel.

Record LogEntry := {
  log_level : Level;
  log_fields : list (string * string);
  log_message : string
}.

(** ** BuildHierarchy (tree.go) *)

(** The two variables of [BuildHierarchy] that the loops update: the [roots]
    slice and the [nodes] map with the nodes it points to. *)
Record Memory := {
  roots : list ptr;
  nodes : gmap string Node.t
}.

(** [&Node{...}] for a record. *)
Definition new_Node (file : StandardsFile.t) : Node.t :=
  let h := StandardsFile.Header file in
  {| Node.Title := StandardsHeader.Title h;
     Node.Description := StandardsHeader.Description h;
     Node.Parent := StandardsHeader.Parent h;
     Node.Scope := StandardsHeader.Scope h;
     Node.Topics := StandardsHeader.Topics h;
     Node.Path := StandardsFile.Path file;
     Node.Children := [] |}.

(** The body of the first loop: [nodes[file.Path] = &Node{...}]. *)
Definition register (nodes : gmap string Node.t) (file : StandardsFile.t)
  : gmap string Node.t :=
  <[StandardsFile.Path file := new_Node file]> nodes.

Definition dangling_parent (path parent : string) : LogEntry :=
  {| log_level := WarnLevel;
     log_fields := [("path", path); ("parent", parent)];
     log_message := "found node with parent that does not exist. skipping." |}.

(** The body of the second loop.  [nodes[file.Path]] is the pointer
    [file.Path]: the first loop registered every path. *)
Definition link (st : Memory * list LogEntry) (file : StandardsFile.t)
  : Memory * list LogEntry :=
  let '(m, log) := st in
  match StandardsHeader.Parent (StandardsFile.Header file) with
  | None =>
      let node := StandardsFile.Path file in
      ({| roots := roots m ++ [node]; nodes := nodes m |}, log)
  | Some parent_path =>
      match nodes m !! parent_path with
      | None =>
          (m, log ++ [dangling_parent (StandardsFile.Path file) parent_path])
      | Some parent =>
          let node := StandardsFile.Path file in
          ({| roots := roots m;
              nodes := <[parent_path :=
                Node.with_Children (Node.Children parent ++ [node]) parent]>
                (nodes m) |}, log)
      end
  end.

(** Both loops: the state in which [sortChildren(roots)] is called. *)
Definition link_all (files : list StandardsFile.t) : Memory * list LogEntry :=
  foldl link ({| roots := []; nodes := foldl register ∅ files |}, []) files.

(** A slice that [sortChildren] is called on: the [roots] slice, or the
    [Children] slice of a node (both share their array with the caller). *)
Inductive SliceRef := RootSlice | ChildrenSlice (p : ptr).

#[global] Instance SliceRef_eq_dec : EqDecision SliceRef.
Proof. solve_decision. Defined.

(** [p.Children] and [p.Title]; every pointer that the program follows is a
    key of [nodes], the other case is there to make the functions total. *)
Definition children (h : gmap string Node.t) (p : ptr) : list ptr :=
  match h !! p with Some n => Node.Children n | None => [] end.

Definition read_slice (s : SliceRef) (m : Memory) : list ptr :=
  match s with
  | RootSlice => roots m
  | ChildrenSlice p => children (nodes m) p
  end.

Definition write_slice (s : SliceRef) (l : list ptr) (m : Memory) : Memory :=
  match s with
  | RootSlice => {| roots := l; nodes := nodes m |}
  | ChildrenSlice p =>
      {| roots := roots m; nodes := alter (Node.with_Children l) p (nodes m) |}
  end.

Definition title (h : gmap string Node.t) (p : ptr) : string :=
  match h !! p with Some n => Node.Title n | None => "" end.

(** [nodes[i].Title < nodes[j].Title] *)
Definition less_title (h : gmap string Node.t) (a b : ptr) : bool :=
  GoString.lt (title h a) (title h b).

Section build.
Context `{SortSlice}.

(** [sortChildren]: the slice is sorted in place, then the children of each
    of its nodes are.  The loop reads the slice as it was just sorted: a call
    further down writes to the same array only if the slice is below one of
    its own nodes, and then the recursion does not end.  The recursion
    follows the pointers, so it is bounded by [fuel]: [None] is a recursion
    that is still running after [fuel] nested calls (in Go, until the stack
    is exhausted). *)
Fixpoint sortChildren (fuel : nat) (s : SliceRef) (m : Memory) : option Memory :=
  match fuel with
  | O => None
  | S fuel' =>
      let sorted := sort_Slice (less_title (nodes m)) (read_slice s m) in
      foldl (λ acc node, m' ← acc; sortChildren fuel' (ChildrenSlice node) m')
            (Some (write_slice s sorted m)) sorted
  end.

(** [BuildHierarchy]: the diagnostics of the linking loop, and the tree with
    the nodes it points into when the final sort returns. *)
Definition BuildHierarchy (fuel : nat) (files : list StandardsFile.t)
  : list LogEntry * option (StandardsTree * gmap string Node.t) :=
  let '(m, log) := link_all files in
  (log, m' ← sortChildren fuel RootSlice m;
        Some ({| Nodes := roots m' |}, nodes m')).

End build.

(** ** ExtractMDHeader (tree.go) *)

Definition error : Type := string.

(** What [frontmatter.Parse(reader, &header)] does to a zero [header]: it
    fails, or finds no front matter and leaves [header] as it is, or decodes
    the front matter into it. *)
Inductive FrontMatter :=
  | FmError (err : error)
  | FmAbsent
  | FmDecoded (header : StandardsHeader.t).

(** The file system and the front matter library, as the program sees them. *)
Record DirEntry := { Name : string; IsDir : bool }.

(** One call of the function given to [filepath.WalkDir]. *)
Record WalkEntry := {
  walk_path : string;
  walk_d : DirEntry;
  walk_err : option error
}.

Record Env := {
  os_ReadFile : string → error + string;
  frontmatter_Parse : string → FrontMatter;
  (** the entries that [filepath.WalkDir(root, fn)] passes to [fn], in
      order, as long as [fn] returns [nil] *)
  filepath_WalkDir : string → list WalkEntry;
  os_WriteFile : string → option error
}.

(** [validate:"required"] on a string field: not the empty string. *)
Definition required_string (s : string) : bool := negb (String.eqb s "").

(** [validate:"required"] on a slice field: not [nil]. *)
Definition required_slice {A} (s : GoSlice A) : bool :=
  match s with Some _ => true | None => false end.

(** [validate.Struct(header)] succeeds: the tags of [StandardsHeader], field
    by field ([omitempty] on [Parent] asks for nothing). *)
Definition validate_Struct (h : StandardsHeader.t) : bool :=
  required_string (StandardsHeader.Title h)
  && required_string (StandardsHeader.Description h)
  && required_string (StandardsHeader.Scope h)
  && required_slice (StandardsHeader.Topics h).

(** [ExtractMDHeader]: the pair of results, each of them [nil] or not. *)
Definition ExtractMDHeader (env : Env) (path : string)
  : option StandardsHeader.t * option error :=
  match os_ReadFile env path with
  | inl err => (None, Some err)
  | inr content =>
      match frontmatter_Parse env content with
      | FmError err => (None, Some err)
      | parsed =>
          let header :=
            match parsed with
            | FmDecoded h => h
            | _ => StandardsHeader.zero
            end in
          if validate_Struct header then (Some header, None) else (None, None)
      end
  end.

(** ** path.Join and path.Clean (Go's path package) *)

Module path.

Definition is_slash (c : ascii) : bool := Ascii.eqb c "/".
Definition is_dot (c : ascii) : bool := Ascii.eqb c ".".

(** [r+k == n || path[r+k] == '/'] for the rest of the path from [r+k]. *)
Definition at_end_or_slash (rest : list ascii) : bool :=
  match rest with [] => true | c :: _ => is_slash c end.

(** [for out.w > dotdot && out.index(out.w) != '/' { out.w-- }], on the
    buffer held in reverse; [dropped] is the byte at [out.w]. *)
Fixpoint unwind (dotdot : nat) (dropped : ascii) (out : list ascii) : list ascii :=
  match out with
  | [] => []
  | c :: out' =>
      if bool_decide (dotdot < length out) && negb (is_slash dropped)
      then unwind dotdot c out'
      else out
  end.

(** [for ; r < n && path[r] != '/'; r++]: the bytes of the path element
    that starts [rest]. *)
Fixpoint element (rest : list ascii) : list ascii :=
  match rest with
  | [] => []
  | c :: rest' => if is_slash c then [] else c :: element rest'
  end.

(** The loop [for r < n] of [Clean]: [rest] is [path[r:]] and [out] the
    buffer in reverse.  Every round reads at least one byte, so [length path]
    rounds are enough. *)
Fixpoint clean_loop (rounds : nat) (rooted : bool) (rest out : list ascii)
    (dotdot : nat) : list ascii :=
  match rounds, rest with
  | O, _ | _, [] => out
  | S rounds', c :: rest1 =>
      if is_slash c then
        clean_loop rounds' rooted rest1 out dotdot
      else if is_dot c && at_end_or_slash rest1 then
        clean_loop rounds' rooted rest1 out dotdot
      else if is_dot c && match rest1 with
                          | c1 :: rest2 => is_dot c1 && at_end_or_slash rest2
                          | [] => false
                          end then
        let rest2 := tail rest1 in
        if bool_decide (dotdot < length out) then
          let out' := match out with
                      | dropped :: out' => unwind dotdot dropped out'
                      | [] => []
                      end in
          clean_loop rounds' rooted rest2 out' dotdot
        else if negb rooted then
          let out1 := if bool_decide (0 < length out)
                      then "/"%char :: out else out in
          let out2 := "."%char :: "."%char :: out1 in
          clean_loop rounds' rooted rest2 out2 (length out2)
        else
          clean_loop rounds' rooted rest2 out dotdot
      else
        let out1 :=
          if (rooted && negb (bool_decide (length out = 1)))
             || (negb rooted && negb (bool_decide (length out = 0)))
          then "/"%char :: out else out in
        let elem := element rest in
        clean_loop rounds' rooted (drop (length elem) rest)
                   (rev elem ++ out1) dotdot
  end.

Definition Clean (p : string) : string :=
  match list_ascii_of_string p with
  | [] => "."
  | (c :: rest) as whole =>
      let rooted := is_slash c in
      let out :=
        if rooted then clean_loop (length whole) true rest ["/"%char] 1
        else clean_loop (length whole) false whole [] 0 in
      match out with
      | [] => "."
      | _ => string_of_list_ascii (rev out)
      end
  end.

(** The loop of [Join] that fills [buf]. *)
Definition join_step (buf : string) (e : string) : string :=
  if negb (String.eqb buf "") || negb (String.eqb e "") then
    (if negb (String.eqb buf "") then buf +:+ "/" else buf) +:+ e
  else buf.

Definition Join (elem : list string) : string :=
  if bool_decide (sum_list (String.length <$> elem) = 0) then ""
  else Clean (foldl join_step "" elem).

End path.

(** ** ParseMDDocuments (tree.go) *)

Definition strings_HasSuffix (s suffix : string) : bool :=
  bool_decide (String.length suffix ≤ String.length s)%nat
  && String.eqb
       (String.substring (String.length s - String.length suffix)
                         (String.length suffix) s)
       suffix.

Definition invalid_header (path : string) : LogEntry :=
  {| log_level := WarnLevel;
     log_fields := [("path", path)];
     log_message := "found markdown file without valid header. skipping." |}.

(** The function given to [filepath.WalkDir]; it appends to [headers]. *)
Definition visit (env : Env) (st : list StandardsFile.t * list LogEntry)
    (e : WalkEntry) : list StandardsFile.t * list LogEntry * option error :=
  let '(headers, log) := st in
  match walk_err e with
  | Some err => (st, Some err)
  | None =>
      if IsDir (walk_d e) then (st, None)
      else if negb (strings_HasSuffix (Name (walk_d e)) ".md") then (st, None)
      else
        match ExtractMDHeader env (walk_path e) with
        | (_, Some err) => (st, Some err)
        | (Some header, None) =>
            (headers ++ [StandardsFile.mk (walk_path e) header], log, None)
        | (None, None) =>
            (headers, log ++ [invalid_header (walk_path e)], None)
        end
  end.

(** [filepath.WalkDir] stops at the first error that [fn] returns (which is
    never [SkipDir] here) and returns it. *)
Fixpoint WalkDir {S} (fn : S → WalkEntry → S * option error)
    (entries : list WalkEntry) (st : S) : S * option error :=
  match entries with
  | [] => (st, None)
  | e :: entries' =>
      match fn st e with
      | (st', Some err) => (st', Some err)
      | (st', None) => WalkDir fn entries' st'
      end
  end.

(** The body of [for i, file := range headers]:
    [headers[i].Header.Parent = &augmentedPath]. *)
Definition augment (root : string) (headers : list StandardsFile.t) (i : nat)
  : list StandardsFile.t :=
  match headers !! i with
  | Some file =>
      match StandardsHeader.Parent (StandardsFile.Header file) with
      | Some parent =>
          let augmentedPath := path.Join [root; parent] in
          <[i := StandardsFile.with_Header
                   (StandardsHeader.with_Parent (Some augmentedPath)
                      (StandardsFile.Header file)) file]> headers
      | None => headers
      end
  | None => headers
  end.

Definition ParseMDDocuments (env : Env) (root : string)
  : list StandardsFile.t * option error * list LogEntry :=
  let '(headers, log, err) :=
    WalkDir (visit env) (filepath_WalkDir env root) ([], []) in
  (foldl (augment root) headers (seq 0 (length headers)), err, log).

(** ** The serialised tree (yaml.Marshal) *)

Module yaml.

(** A YAML document; the bytes written are a function of it. *)
#[local] Set Warnings "-register-all".
Inductive Value :=
  | Null
  | Str (s : string)
  | Seq (l : list Value)
  | Map (l : list (string * Value)).

Definition to_lower (c : ascii) : ascii :=
  let n := nat_of_ascii c in
  if bool_decide (65 ≤ n ≤ 90)%nat then ascii_of_nat (n + 32) else c.

Fixpoint strings_ToLower (s : string) : string :=
  match s with
  | EmptyString => EmptyString
  | String c s' => String (to_lower c) (strings_ToLower s')
  end.

(** The key of a struct field: none for the tag [yaml:"-"], the name in the
    tag, or else the field name in lower case. *)
Definition key_of (name : string) (tag : option string) : option string :=
  match tag with
  | Some t => if String.eqb t "-" then None else Some t
  | None => Some (strings_ToLower name)
  end.

(** A struct: its fields in the order of declaration, each with its tag. *)
Definition encode_struct (fields : list (string * option string * Value))
  : Value :=
  Map (omap (λ '(name, tag, v), k ← key_of name tag; Some (k, v)) fields).

Definition encode_strings (s : GoSlice string) : Value :=
  Seq (Str <$> default [] s).

Definition encode_opt_string (s : option string) : Value :=
  match s with Some s => Str s | None => Null end.

(** A [*Node], with the tags of types.go.  The encoder follows the pointers
    of [Children]; [None] is an encoder still running after [fuel] nested
    nodes. *)
Fixpoint encode_Node (fuel : nat) (h : gmap string Node.t) (p : ptr)
  : option Value :=
  match fuel with
  | O => None
  | S fuel' =>
      match h !! p with
      | None => Some Null
      | Some n =>
          cs ← mapM (encode_Node fuel' h) (Node.Children n);
          Some (encode_struct [
            ("Path", None, Str (Node.Path n));
            ("Title", None, Str (Node.Title n));
            ("Description", None, Str (Node.Description n));
            ("Scope", None, Str (Node.Scope n));
            ("Topics", None, encode_strings (Node.Topics n));
            ("Parent", Some "-", encode_opt_string (Node.Parent n));
            ("Children", None, Seq cs)])
      end
  end.

(** [yaml.Marshal(tree)] for a [StandardsTree]. *)
Definition Marshal (fuel : nat) (tree : StandardsTree)
    (h : gmap string Node.t) : option Value :=
  ns ← mapM (encode_Node fuel h) (Nodes tree);
  Some (encode_struct [("Nodes", None, Seq ns)]).

End yaml.

(** ** GenerateStandardsTree (tree.go) *)

Inductive Outcome :=
  | Failed (err : error)
  | Wrote (file : string) (data : yaml.Value).

Section generate.
Context `{SortSlice}.

Definition GenerateStandardsTree (fuel : nat) (env : Env) (path : string)
  : option Outcome :=
  match ParseMDDocuments env path with
  | (_, Some err, _) => Some (Failed err)
  | (headers, None, _) =>
      '(tree, h) ← (BuildHierarchy fuel headers).2;
      data ← yaml.Marshal fuel tree h;
      let outputPath := "standards-tree.yaml" in
      match os_WriteFile env outputPath with
      | Some err => Some (Failed err)
      | None => Some (Wrote outputPath data)
      end
  end.

End generate.

(** ** The commands (main.go, git.go) *)

Module GitRepository.
Record t := mk {
  Repository : string;
  Branch : string;
  Tag : string;
  ClonePath : string
}.
End GitRepository.

Definition DefaultClonePath : string := ".stdidx".

Definition errors_New (text : string) : error := text.

(** A call that changes the world outside the program, or is seen there;
    it is recorded whether or not it fails. *)
Inductive Call :=
  | RemoveAll (path : string)
  | Command (name : string) (args : list string)
  | WriteFile (name : string) (data : yaml.Value)
  | Println (s : string).

(** The world outside the program.  Its state is the state at the start
    and the calls made since, oldest first, so every answer is a function of
    the calls so far: whether [os.Stat(name)] returns an error, the errors
    of [os.RemoveAll(path)] and of [exec.Command(name, args...).Run()], and
    the file system that tree.go finds. *)
Record System := {
  os_Stat : list Call → string → option error;
  os_RemoveAll : list Call → string → option error;
  cmd_Run : list Call → string → list string → option error;
  fs : list Call → Env
}.

(** The result of a function that returns [error]: the calls so far and the
    error, [None] for [nil]. *)
Definition Returned : Type := list Call * option error.

(** [type GitCloner interface { Clone(repo GitRepository) error }] *)
Class GitCloner (T : Type) :=
  Clone : T → System → GitRepository.t → list Call → Returned.

Inductive ExecGitCloner := mkExecGitCloner.

(** [args] of [ExecGitCloner.Clone]. *)
Definition clone_args (repo : GitRepository.t) : list string :=
  let args := ["clone"; GitRepository.Repository repo;
               GitRepository.ClonePath repo] in
  let args := if negb (String.eqb (GitRepository.Branch repo) "")
              then args ++ ["--branch"; GitRepository.Branch repo]
              else args in
  if negb (String.eqb (GitRepository.Tag repo) "")
  then args ++ ["--tag"; GitRepository.Tag repo]
  else args.

(** [ExecGitCloner.Clone]: one run of [git] with [args], whose output goes
    to that of the program.  The lines it logs are left out, as are those
    of [Sync] and [Index]. *)
#[global] Instance ExecGitCloner_Clone : GitCloner ExecGitCloner :=
  λ _ sys repo past,
    let args := clone_args repo in
    (past ++ [Command "git" args], cmd_Run sys past "git" args).

Section commands.
Context `{SortSlice}.

(** The text of the constant [SuggestedAgentInstructions]. *)
Variable SuggestedAgentInstructions : string.

(** [GenerateStandardsTree] in the world after the calls [past]: the steps
    of the function, with the call of [os.WriteFile] recorded like the
    other calls, whether or not it fails. *)
Definition generate (fuel : nat) (sys : System) (path : string)
    (past : list Call) : option Returned :=
  let env := fs sys past in
  match ParseMDDocuments env path with
  | (_, Some err, _) => Some (past, Some err)
  | (headers, None, _) =>
      '(tree, h) ← (BuildHierarchy fuel headers).2;
      data ← yaml.Marshal fuel tree h;
      let outputPath := "standards-tree.yaml" in
      Some (past ++ [WriteFile outputPath data], os_WriteFile env outputPath)
  end.

Definition newline : string := String (ascii_of_nat 10) EmptyString.

Definition PrintSuggestedInstructions (past : list Call) : list Call :=
  past ++ [
    Println (newline +:+ "Don't forget to instruct your agent to use the standards index. Suggested prompt:");
    Println (newline +:+ SuggestedAgentInstructions +:+ newline)].

(** [Sync]; [ctx] is not used. *)
Definition Sync `{GitCloner T} (fuel : nat) (sys : System) (cloner : T)
    (repository : GitRepository.t) (past : list Call) : option Returned :=
  let clonePath := GitRepository.ClonePath repository in
  let '(past1, err) :=
    match os_Stat sys past clonePath with
    | None => (past ++ [RemoveAll clonePath], os_RemoveAll sys past clonePath)
    | Some _ => (past, None)
    end in
  match err with
  | Some err => Some (past1, Some err)
  | None =>
      match Clone cloner sys repository past1 with
      | (past2, Some err) => Some (past2, Some err)
      | (past2, None) => generate fuel sys clonePath past2
      end
  end.

(** [Index]; [ctx] is not used. *)
Definition Index (fuel : nat) (sys : System) (clonePath : string)
    (past : list Call) : option Returned :=
  generate fuel sys clonePath past.

(** What [cmd.String] returns for the flags of [sync]: the value given, or
    the empty string. *)
Record SyncFlags := {
  flag_repository : string;
  flag_branch : string;
  flag_tag : string
}.

(** The [Action] of the command [sync]. *)
Definition sync_action (fuel : nat) (sys : System) (cmd : SyncFlags)
    (past : list Call) : option Returned :=
  let branch := flag_branch cmd in
  let tag := flag_tag cmd in
  if negb (String.eqb branch "") && negb (String.eqb tag "") then
    Some (past, Some (errors_New
      "only one of --branch or --tag can be specified, not both"))
  else
    let repo := {| GitRepository.Repository := flag_repository cmd;
                   GitRepository.Branch := branch;
                   GitRepository.Tag := tag;
                   GitRepository.ClonePath := DefaultClonePath |} in
    let cloner := mkExecGitCloner in
    '(past1, err) ← Sync fuel sys cloner repo past;
    match err with
    | Some err => Some (past1, Some err)
    | None => Some (PrintSuggestedInstructions past1, None)
    end.

(** The [Action] of the command [index]. *)
Definition index_action (fuel : nat) (sys : System) (past : list Call)
    : option Returned :=
  '(past1, err) ← Index fuel sys DefaultClonePath past;
  match err with
  | Some err => Some (past1, Some err)
  | None => Some (PrintSuggestedInstructions past1, None)
  end.

End commands.

(** * Vocabulary of the properties *)

(** Descendants in the pointer graph: [q] is reached from the sequence [ps]
    by following [Children]. *)
Inductive reach (h : gmap string Node.t) (ps : list ptr) : ptr → Prop :=
  | reach_here q : q ∈ ps → reach h ps q
  | reach_child p q : reach h ps p → q ∈ children h p → reach h ps q.

(** [q] is a proper descendant of [p]. *)
Definition descendant (h : gmap string Node.t) (p q : ptr) : Prop :=
  reach h (children h p) q.

(** [l] is in ascending order of [Title]: no member has a title less than
    the title of a member before it. *)
Definition sorted_by_title (h : gmap string Node.t) (l : list ptr) : Prop :=
  StronglySorted (λ a b, GoString.le (title h a) (title h b)) l.

(** Two nodes that differ at most in the order of their children. *)
Definition node_perm (n n' : Node.t) : Prop :=
  Node.with_Children [] n = Node.with_Children [] n'
  ∧ Node.Children n ≡ₚ Node.Children n'.

(** The same nodes under the same pointers, up to the order of children. *)
Definition heap_perm (h h' : gmap string Node.t) : Prop :=
  ∀ p, option_Forall2 node_perm (h !! p) (h' !! p).

(** The same state up to the order within each slice. *)
Definition mem_perm (m m' : Memory) : Prop :=
  roots m ≡ₚ roots m' ∧ heap_perm (nodes m) (nodes m').

(** The slice [s] is in order. *)
Definition sorted_slice (m : Memory) (s : SliceRef) : Prop :=
  sorted_by_title (nodes m) (read_slice s m).

(** Every node below the sequence [ps] has its children in order. *)
Definition subtree_sorted (m : Memory) (ps : list ptr) : Prop :=
  ∀ q, reach (nodes m) ps q → sorted_slice m (ChildrenSlice q).

(** [file.Header.Parent] *)
Definition file_parent (f : StandardsFile.t) : option string :=
  StandardsHeader.Parent (StandardsFile.Header f).

(** The paths of the records without a parent, in input order. *)
Definition tops (files : list StandardsFile.t) : list ptr :=
  StandardsFile.Path <$> filter (λ f, file_parent f = None) files.

(** The paths of the records whose parent is [p], in input order. *)
Definition kids (files : list StandardsFile.t) (p : string) : list ptr :=
  StandardsFile.Path <$> filter (λ f, file_parent f = Some p) files.

(** The diagnostic of a record, if its parent is not registered in [h0]. *)
Definition dangling (h0 : gmap string Node.t) (f : StandardsFile.t)
  : option LogEntry :=
  match file_parent f with
  | Some pp =>
      match h0 !! pp with
      | None => Some (dangling_parent (StandardsFile.Path f) pp)
      | Some _ => None
      end
  | None => None
  end.

(** The [Parent] field of the node at [q], if there is a node. *)
Definition parent_of (h : gmap string Node.t) (q : ptr) : option (option string) :=
  Node.Parent <$> h !! q.

(** Every pointer in a slice is where its [Parent] field says: the roots
    have none, a child of [p] has [p]. *)
Record consistent (m : Memory) : Prop := {
  consistent_roots :
    ∀ q, q ∈ roots m → parent_of (nodes m) q = Some None;
  consistent_children :
    ∀ p q, q ∈ children (nodes m) p → parent_of (nodes m) q = Some (Some p)
}.

(** [q] is [d] parent links away from a node without parent. *)
Inductive at_depth (h : gmap string Node.t) : nat → ptr → Prop :=
  | depth_root q : parent_of h q = Some None → at_depth h 0 q
  | depth_child d p q :
      parent_of h q = Some (Some p) → at_depth h d p → at_depth h (S d) q.

(** From [ps] one can follow [Children] for [k] steps. *)
Fixpoint deep (h : gmap string Node.t) (k : nat) (ps : list ptr) : Prop :=
  match k with
  | O => True
  | S k' => ∃ x, x ∈ ps ∧ deep h k' (children h x)
  end.

(** Every pointer in a slice points to a node. *)
Definition closed (m : Memory) : Prop :=
  (∀ q, q ∈ roots m → is_Some (nodes m !! q))
  ∧ (∀ p q, q ∈ children (nodes m) p → is_Some (nodes m !! q)).

(** Two different records with the same parent (or both without parent) have
    different titles. *)
Definition distinct_sibling_titles (files : list StandardsFile.t) : Prop :=
  ∀ f g, f ∈ files → g ∈ files →
    file_parent f = file_parent g →
    StandardsHeader.Title (StandardsFile.Header f)
    = StandardsHeader.Title (StandardsFile.Header g) →
    StandardsFile.Path f = StandardsFile.Path g.

(** The records appended during the walk, before the parents are rewritten. *)
Definition collected (env : Env) (root : string) : list StandardsFile.t :=
  (WalkDir (visit env) (filepath_WalkDir env root) ([], [])).1.1.

(** A record with its parent joined to [root]. *)
Definition rooted (root : string) (f : StandardsFile.t) : StandardsFile.t :=
  match file_parent f with
  | Some parent =>
      StandardsFile.with_Header
        (StandardsHeader.with_Parent (Some (path.Join [root; parent]))
           (StandardsFile.Header f)) f
  | None => f
  end.

(** Every key of every mapping in a document. *)
Fixpoint all_keys (v : yaml.Value) : list string :=
  match v with
  | yaml.Map l => flat_map (λ kv, kv.1 :: all_keys kv.2) l
  | yaml.Seq l => flat_map all_keys l
  | _ => []
  end.

#[local] Set Warnings "-register-all".

(** The document of a node: a mapping with exactly the keys [path], [title],
    [description], [scope], [topics] and [children], in this order; the
    topics are strings and the children are documents of nodes. *)
Inductive node_shape : yaml.Value → Prop :=
  | node_shape_intro p t d s tp cs :
      Forall node_shape cs →
      node_shape (yaml.Map [
        ("path", yaml.Str p); ("title", yaml.Str t);
        ("description", yaml.Str d); ("scope", yaml.Str s);
        ("topics", yaml.Seq (yaml.Str <$> tp)); ("children", yaml.Seq cs)]).

(** The document of the node under the pointer [p]: a mapping with exactly
    the keys [path], [title], [description], [scope], [topics] and
    [children], in this order, that hold the fields of the node; under
    [children] are the documents of its children, in their order. *)
Inductive node_doc (h : gmap string Node.t) : ptr → yaml.Value → Prop :=
  | node_doc_intro p n cs :
      h !! p = Some n →
      Forall2 (node_doc h) (Node.Children n) cs →
      node_doc h p (yaml.Map [
        ("path", yaml.Str (Node.Path n)); ("title", yaml.Str (Node.Title n));
        ("description", yaml.Str (Node.Description n));
        ("scope", yaml.Str (Node.Scope n));
        ("topics", yaml.Seq (yaml.Str <$> default [] (Node.Topics n)));
        ("children", yaml.Seq cs)]).

(** The record [f] names the record [g] as parent, or names a record that
    names [g], and so on. *)
Inductive names_above (files : list StandardsFile.t)
  : StandardsFile.t → StandardsFile.t → Prop :=
  | names_parent f g :
      f ∈ files → g ∈ files →
      file_parent f = Some (StandardsFile.Path g) →
      names_above files f g
  | names_further f g k :
      names_above files f g → k ∈ files →
      file_parent g = Some (StandardsFile.Path k) →
      names_above files f k.

(** The diagnostic that the linking loop logs for a record: one if the
    record has a parent that is the path of no record. *)
Definition diagnostic_of (files : list StandardsFile.t) (f : StandardsFile.t)
  : option LogEntry :=
  match file_parent f with
  | Some pp =>
      if decide (pp ∈ StandardsFile.Path <$> files) then None
      else Some (dangling_parent (StandardsFile.Path f) pp)
  | None => None
  end.

(** The chain of parents of the record [f] ends at a record without
    parent. *)
Inductive resolves (files : list StandardsFile.t) : StandardsFile.t → Prop :=
  | resolves_top f :
      f ∈ files → file_parent f = None → resolves files f
  | resolves_child f g :
      f ∈ files → g ∈ files →
      file_parent f = Some (StandardsFile.Path g) →
      resolves files g → resolves files f.

(** The nodes below the sequence [ps] in the order in which [getNodeCount]
    counts them: each node, then the nodes below it, then its next
    sibling. *)
Fixpoint preorder (fuel : nat) (h : gmap string Node.t) (ps : list ptr)
  : option (list ptr) :=
  match fuel with
  | O => None
  | S fuel' =>
      foldl (λ acc p,
               l ← acc;
               (l' ← preorder fuel' h (children h p); Some (l ++ p :: l')))
            (Some []) ps
  end.

(** The error that the function given to [filepath.WalkDir] returns for an
    entry: the error of the walk, or that of [ExtractMDHeader] for a file
    with the suffix [.md]. *)
Definition visit_error (env : Env) (e : WalkEntry) : option error :=
  match walk_err e with
  | Some err => Some err
  | None =>
      if IsDir (walk_d e) then None
      else if negb (strings_HasSuffix (Name (walk_d e)) ".md") then None
      else (ExtractMDHeader env (walk_path e)).2
  end.

(** The record that the function appends for an entry: one for a file with
    the suffix [.md] for which [ExtractMDHeader] returns a header. *)
Definition visit_record (env : Env) (e : WalkEntry) : option StandardsFile.t :=
  match walk_err e with
  | Some _ => None
  | None =>
      if IsDir (walk_d e) then None
      else if negb (strings_HasSuffix (Name (walk_d e)) ".md") then None
      else
        match ExtractMDHeader env (walk_path e) with
        | (Some header, None) => Some (StandardsFile.mk (walk_path e) header)
        | _ => None
        end
  end.

(** The diagnostic that the function logs for an entry: one for a file with
    the suffix [.md] for which [ExtractMDHeader] returns neither a header
    nor an error. *)
Definition visit_skipped (env : Env) (e : WalkEntry) : option LogEntry :=
  match walk_err e with
  | Some _ => None
  | None =>
      if IsDir (walk_d e) then None
      else if negb (strings_HasSuffix (Name (walk_d e)) ".md") then None
      else
        match ExtractMDHeader env (walk_path e) with
        | (None, None) => Some (invalid_header (walk_path e))
        | _ => None
        end
  end.

(** A path element that [path.Clean] keeps as it is: not empty, without
    slash, and neither [.] nor [..]. *)
Definition plain_element (c : list ascii) : Prop :=
  c ≠ [] ∧ Forall (λ b, path.is_slash b = false) c
  ∧ c ≠ ["."%char] ∧ c ≠ ["."%char; "."%char].

(** The elements [cs], each with a slash before it. *)
Definition slash_elements (cs : list (list ascii)) : list ascii :=
  concat ((λ c, "/"%char :: c) <$> cs).

(** A relative path of plain elements: [c1/c2/.../cn], [n] at least one. *)
Definition plain_path (s : string) : Prop :=
  ∃ c cs, plain_element c ∧ Forall plain_element cs
          ∧ list_ascii_of_string s = c ++ slash_elements cs.

(** The value under the key [k] of a mapping, the first if there are more. *)
Fixpoint lookup_key (k : string) (l : list (string * yaml.Value))
  : option yaml.Value :=
  match l with
  | [] => None
  | (k', v) :: l' => if String.eqb k' k then Some v else lookup_key k l'
  end.

(** The title of the document of a node; empty if there is none. *)
Definition doc_title (y : yaml.Value) : string :=
  match y with
  | yaml.Map l =>
      match lookup_key "title" l with Some (yaml.Str t) => t | _ => "" end
  | _ => ""
  end.

(** The documents under the key [children]. *)
Definition doc_children (y : yaml.Value) : list yaml.Value :=
  match y with
  | yaml.Map l =>
      match lookup_key "children" l with Some (yaml.Seq cs) => cs | _ => [] end
  | _ => []
  end.

(** A sequence of documents in ascending order of title. *)
Definition titles_ascending (l : list yaml.Value) : Prop :=
  StronglySorted (λ a b, GoString.le (doc_title a) (doc_title b)) l.

(** A document whose sequences of children are in ascending order of title,
    at every depth. *)
Inductive doc_sorted : yaml.Value → Prop :=
  | doc_sorted_intro y :
      titles_ascending (doc_children y) →
      Forall doc_sorted (doc_children y) →
      doc_sorted y.


(** The calls of an action from [past] to [past'] that returns [r]: if [r]
    is [nil], the last calls are a write of [standards-tree.yaml] that
    succeeded and the two lines of [PrintSuggestedInstructions], and
    nothing was printed before; if [r] is an error, nothing was printed. *)
Definition printed_on_success (instructions : string) (sys : System)
    (past past' : list Call) (r : option error) : Prop :=
  ∃ work,
    (∀ s, Println s ∉ work)
    ∧ match r with
      | None =>
          ∃ data,
            past'
            = PrintSuggestedInstructions instructions
                (past ++ work ++ [WriteFile "standards-tree.yaml" data])
            ∧ os_WriteFile (fs sys (past ++ work)) "standards-tree.yaml"
              = None
      | Some _ => past' = past ++ work
      end.

(** * Example inputs *)

Definition example_header (title : string) (parent : option string)
  : StandardsHeader.t :=
  {| StandardsHeader.Title := title;
     StandardsHeader.Description := "Standards";
     StandardsHeader.Scope := "*.go";
     StandardsHeader.Topics := Some ["golang"];
     StandardsHeader.Parent := parent |}.

(** The five records of the scenario: A and C without parent, B under A,
    D under C, E under a path that no record has. *)
Definition file_A : StandardsFile.t :=
  StandardsFile.mk "tree/A.md" (example_header "General" None).
Definition file_B : StandardsFile.t :=
  StandardsFile.mk "tree/B.md" (example_header "Workers" (Some "tree/A.md")).
Definition file_C : StandardsFile.t :=
  StandardsFile.mk "tree/C.md"
    {| StandardsHeader.Title := "Docker";
       StandardsHeader.Description := "Standards";
       StandardsHeader.Scope := "*";
       StandardsHeader.Topics := Some ["x"];
       StandardsHeader.Parent := None |}.
Definition file_D : StandardsFile.t :=
  StandardsFile.mk "tree/D.md" (example_header "Compose" (Some "tree/C.md")).
Definition file_E : StandardsFile.t :=
  StandardsFile.mk "tree/E.md" (example_header "Lost" (Some "missing-path")).

Definition scenario : list StandardsFile.t :=
  [file_A; file_B; file_C; file_D; file_E].

(** Two records with the same path, neither with a parent. *)
Definition dup_first : StandardsFile.t :=
  StandardsFile.mk "docs/A.md" (example_header "First" None).
Definition dup_second : StandardsFile.t :=
  StandardsFile.mk "docs/A.md" (example_header "Second" None).

(** The input of [TestBuildHierarchy], and the [getNodeCount] of the tests:
    every node of the tree is counted, through the pointers. *)
Definition test_header (title description scope : string)
    (topics : list string) (parent : option string) : StandardsHeader.t :=
  {| StandardsHeader.Title := title;
     StandardsHeader.Description := description;
     StandardsHeader.Scope := scope;
     StandardsHeader.Topics := Some topics;
     StandardsHeader.Parent := parent |}.

Definition test_files : list StandardsFile.t :=
  [ StandardsFile.mk "tests/tmp/golang/frameworks/GIN-GONIC.md"
      (test_header "Golang Gin-Gonic Standards"
         "Standards for using Gin Gonic framework." "*.go"
         ["golang"; "api"; "gin-gonic"] (Some "tests/tmp/golang/API.md"));
    StandardsFile.mk "tests/tmp/golang/API.md"
      (test_header "Golang REST API Standards"
         "Standards for writing REST APIs in Go." "*.go"
         ["golang"; "api"; "rest"; "gin-gonic"]
         (Some "tests/tmp/golang/GENERAL.md"));
    StandardsFile.mk "tests/tmp/golang/WORKER.md"
      (test_header "Golang Worker Standards"
         "Standards for writing background workers in Go." "*.go"
         ["golang"; "worker"; "rabbitmq"; "message-broker"; "amqp"]
         (Some "tests/tmp/golang/GENERAL.md"));
    StandardsFile.mk "tests/tmp/golang/GENERAL.md"
      (test_header "Golang General Standards"
         "General standards for writing Go applications." "*.go"
         ["golang"] None);
    StandardsFile.mk "tests/tmp/GENERAL.md"
      (test_header "General Code Standards"
         "Cross-language general coding standards and best practices." "*"
         ["general"; "docker"; "makefiles"; "pre-commit"] None) ].

Fixpoint getNodeCount (fuel : nat) (h : gmap string Node.t)
    (nodes : list ptr) (count : nat) : option nat :=
  match fuel with
  | O => None
  | S fuel' =>
      foldl (λ acc node,
               count ← acc; getNodeCount fuel' h (children h node) (S count))
            (Some count) nodes
  end.

(** A record without parent and a record with a dangling parent, under the
    same path. *)
Definition dup_top : StandardsFile.t :=
  StandardsFile.mk "docs/A.md" (example_header "Top" None).
Definition dup_orphan : StandardsFile.t :=
  StandardsFile.mk "docs/A.md" (example_header "Orphan" (Some "docs/MISSING.md")).

(** Two records, each the parent of the other. *)
Definition cycle_a : StandardsFile.t :=
  StandardsFile.mk "a.md" (example_header "A" (Some "b.md")).
Definition cycle_b : StandardsFile.t :=
  StandardsFile.mk "b.md" (example_header "B" (Some "a.md")).

(** A record that names itself as parent, and a record without parent under
    the same path. *)
Definition self_parent : StandardsFile.t :=
  StandardsFile.mk "a.md" (example_header "A" (Some "a.md")).
Definition self_root : StandardsFile.t :=
  StandardsFile.mk "a.md" (example_header "A" None).

(** Two records without parent and with the same title. *)
Definition tie_x : StandardsFile.t :=
  StandardsFile.mk "x.md" (example_header "Same" None).
Definition tie_y : StandardsFile.t :=
  StandardsFile.mk "y.md" (example_header "Same" None).

(** [BuildHierarchy] followed by [yaml.Marshal], with the sort of short
    slices. *)
Definition serialise (fuel : nat) (files : list StandardsFile.t)
  : option yaml.Value :=
  '(t, h) ← (@BuildHierarchy insertion_SortSlice fuel files).2;
  yaml.Marshal fuel t h.

(** A directory [tree] with two documents with a header, one without, and a
    file that is not Markdown; and a document outside of it whose front
    matter does not parse. *)
Definition doc_A : string := "---
title: Alpha
description: Standards
scope: '*.go'
topics: []
parent: sub/OTHER.md
---
# Alpha".

Definition doc_OTHER : string := "---
title: Other
description: Standards
scope: '*'
topics: [golang]
---
# Other".

Definition doc_README : string := "# Read me".

Definition doc_BAD : string := "---
title: [Alpha
---
# Bad".

Definition header_A : StandardsHeader.t :=
  {| StandardsHeader.Title := "Alpha";
     StandardsHeader.Description := "Standards";
     StandardsHeader.Scope := "*.go";
     StandardsHeader.Topics := Some [];
     StandardsHeader.Parent := Some "sub/OTHER.md" |}.

Definition header_OTHER : StandardsHeader.t :=
  {| StandardsHeader.Title := "Other";
     StandardsHeader.Description := "Standards";
     StandardsHeader.Scope := "*";
     StandardsHeader.Topics := Some ["golang"];
     StandardsHeader.Parent := None |}.

Definition example_env : Env :=
  {| os_ReadFile := λ p,
       if String.eqb p "tree/A.md" then inr doc_A
       else if String.eqb p "tree/sub/OTHER.md" then inr doc_OTHER
       else if String.eqb p "tree/README.md" then inr doc_README
       else if String.eqb p "bad/BAD.md" then inr doc_BAD
       else inl "open: no such file or directory";
     frontmatter_Parse := λ content,
       if String.eqb content doc_A then FmDecoded header_A
       else if String.eqb content doc_OTHER then FmDecoded header_OTHER
       else if String.eqb content doc_BAD
            then FmError "yaml: line 1: did not find expected ',' or ']'"
       else FmAbsent;
     filepath_WalkDir := λ root,
       if String.eqb root "tree" then
         [ {| walk_path := "tree";
              walk_d := {| Name := "tree"; IsDir := true |};
              walk_err := None |};
           {| walk_path := "tree/A.md";
              walk_d := {| Name := "A.md"; IsDir := false |};
              walk_err := None |};
           {| walk_path := "tree/README.md";
              walk_d := {| Name := "README.md"; IsDir := false |};
              walk_err := None |};
           {| walk_path := "tree/notes.txt";
              walk_d := {| Name := "notes.txt"; IsDir := false |};
              walk_err := None |};
           {| walk_path := "tree/sub";
              walk_d := {| Name := "sub"; IsDir := true |};
              walk_err := None |};
           {| walk_path := "tree/sub/OTHER.md";
              walk_d := {| Name := "OTHER.md"; IsDir := false |};
              walk_err := None |} ]
       else [];
     os_WriteFile := λ _, None |}.

(** The records of the scenario whose chains of parents end at a record
    without parent. *)
Definition family : list StandardsFile.t := [file_A; file_B; file_C; file_D].

(** A record under [file_E], whose own parent no record has as path. *)
Definition file_F : StandardsFile.t :=
  StandardsFile.mk "tree/F.md" (example_header "Below" (Some "tree/E.md")).

Definition lost_branch : list StandardsFile.t := [file_A; file_E; file_F].

(** A directory [drafts] with a document whose front matter has no title, a
    document whose front matter does not parse, and a document after it. *)
Definition doc_ABOUT : string := "---
description: Standards
scope: '*'
topics: [golang]
---
# About".

Definition header_ABOUT : StandardsHeader.t :=
  {| StandardsHeader.Title := "";
     StandardsHeader.Description := "Standards";
     StandardsHeader.Scope := "*";
     StandardsHeader.Topics := Some ["golang"];
     StandardsHeader.Parent := None |}.

Definition entry_drafts : WalkEntry :=
  {| walk_path := "drafts";
     walk_d := {| Name := "drafts"; IsDir := true |};
     walk_err := None |}.
Definition entry_ABOUT : WalkEntry :=
  {| walk_path := "drafts/ABOUT.md";
     walk_d := {| Name := "ABOUT.md"; IsDir := false |};
     walk_err := None |}.
Definition entry_BAD : WalkEntry :=
  {| walk_path := "drafts/BAD.md";
     walk_d := {| Name := "BAD.md"; IsDir := false |};
     walk_err := None |}.
Definition entry_LATER : WalkEntry :=
  {| walk_path := "drafts/LATER.md";
     walk_d := {| Name := "LATER.md"; IsDir := false |};
     walk_err := None |}.

Definition drafts_env : Env :=
  {| os_ReadFile := λ p,
       if String.eqb p "drafts/ABOUT.md" then inr doc_ABOUT
       else if String.eqb p "drafts/BAD.md" then inr doc_BAD
       else if String.eqb p "drafts/LATER.md" then inr doc_OTHER
       else inl "open: no such file or directory";
     frontmatter_Parse := λ content,
       if String.eqb content doc_ABOUT then FmDecoded header_ABOUT
       else if String.eqb content doc_OTHER then FmDecoded header_OTHER
       else if String.eqb content doc_BAD
            then FmError "yaml: line 1: did not find expected ',' or ']'"
       else FmAbsent;
     filepath_WalkDir := λ root,
       if String.eqb root "drafts"
       then [entry_drafts; entry_ABOUT; entry_BAD; entry_LATER]
       else [];
     os_WriteFile := λ _, None |}.

(** The records that [ParseMDDocuments] returns for the directory [tree]
    of [example_env]. *)
Definition record_A : StandardsFile.t :=
  StandardsFile.mk "tree/A.md"
    (StandardsHeader.with_Parent (Some "tree/sub/OTHER.md") header_A).
Definition record_OTHER : StandardsFile.t :=
  StandardsFile.mk "tree/sub/OTHER.md" header_OTHER.

(** A world in which every path exists until the first call, every call
    succeeds, and the file system is that of [example_env]. *)
Definition example_system : System :=
  {| os_Stat := λ past _,
       match past with
       | [] => None
       | _ => Some "stat: no such file or directory"
       end;
     os_RemoveAll := λ _ _, None;
     cmd_Run := λ _ _ _, None;
     fs := λ _, example_env |}.

Definition example_repository : GitRepository.t :=
  {| GitRepository.Repository := "https://github.com/golang/go";
     GitRepository.Branch := "master";
     GitRepository.Tag := "";
     GitRepository.ClonePath := "tree" |}.

Definition example_flags : SyncFlags :=
  {| flag_repository := "https://github.com/golang/go";
     flag_branch := "master";
     flag_tag := "" |}.

Definition example_instructions : string :=
  "When working on a task, consult the standards tree in standards-tree.yaml".

(** A cloned library [.stdidx]: two documents without parent and two under
    one of them, none of the sequences in the order of their titles. *)
Definition doc_core : string := "---
title: Style guide
description: Standards
scope: '*'
topics: [general]
---
# Style guide".

Definition doc_go : string := "---
title: Golang
description: Standards
scope: '*.go'
topics: [golang]
---
# Golang".

Definition doc_api : string := "---
title: REST
description: Standards
scope: '*.go'
topics: [golang]
parent: go.md
---
# REST".

Definition doc_cli : string := "---
title: Commands
description: Standards
scope: '*.go'
topics: [golang]
parent: go.md
---
# Commands".

Definition header_core : StandardsHeader.t :=
  {| StandardsHeader.Title := "Style guide";
     StandardsHeader.Description := "Standards";
     StandardsHeader.Scope := "*";
     StandardsHeader.Topics := Some ["general"];
     StandardsHeader.Parent := None |}.

Definition clone_env : Env :=
  {| os_ReadFile := λ p,
       if String.eqb p ".stdidx/core.md" then inr doc_core
       else if String.eqb p ".stdidx/go.md" then inr doc_go
       else if String.eqb p ".stdidx/go/api.md" then inr doc_api
       else if String.eqb p ".stdidx/go/cli.md" then inr doc_cli
       else inl "open: no such file or directory";
     frontmatter_Parse := λ content,
       if String.eqb content doc_core then FmDecoded header_core
       else if String.eqb content doc_go
            then FmDecoded (example_header "Golang" None)
       else if String.eqb content doc_api
            then FmDecoded (example_header "REST" (Some "go.md"))
       else if String.eqb content doc_cli
            then FmDecoded (example_header "Commands" (Some "go.md"))
       else FmAbsent;
     filepath_WalkDir := λ root,
       if String.eqb root ".stdidx" then
         [ {| walk_path := ".stdidx";
              walk_d := {| Name := ".stdidx"; IsDir := true |};
              walk_err := None |};
           {| walk_path := ".stdidx/core.md";
              walk_d := {| Name := "core.md"; IsDir := false |};
              walk_err := None |};
           {| walk_path := ".stdidx/go";
              walk_d := {| Name := "go"; IsDir := true |};
              walk_err := None |};
           {| walk_path := ".stdidx/go/api.md";
              walk_d := {| Name := "api.md"; IsDir := false |};
              walk_err := None |};
           {| walk_path := ".stdidx/go/cli.md";
              walk_d := {| Name := "cli.md"; IsDir := false |};
              walk_err := None |};
           {| walk_path := ".stdidx/go.md";
              walk_d := {| Name := "go.md"; IsDir := false |};
              walk_err := None |} ]
       else [];
     os_WriteFile := λ _, None |}.

(** A directory that is not there: the walk has one entry, with the error
    of [os.Lstat]. *)
Definition missing_env : Env :=
  {| os_ReadFile := λ _, inl "open: no such file or directory";
     frontmatter_Parse := λ _, FmAbsent;
     filepath_WalkDir := λ root,
       [ {| walk_path := root;
            walk_d := {| Name := root; IsDir := false |};
            walk_err := Some "lstat: no such file or directory" |} ];
     os_WriteFile := λ _, None |}.

Definition is_Command (c : Call) : bool :=
  match c with Command _ _ => true | _ => false end.

(** A world in which the library is there once a command has run, every
    path exists until the first call, and every call succeeds. *)
Definition clone_system : System :=
  {| os_Stat := λ past _,
       match past with
       | [] => None
       | _ => Some "stat: no such file or directory"
       end;
     os_RemoveAll := λ _ _, None;
     cmd_Run := λ _ _ _, None;
     fs := λ past, if existsb is_Command past then clone_env else missing_env |}.





(** Decidable facts about concrete inputs. *)
Ltac by_computation := apply (bool_decide_unpack _); vm_compute; exact I.

(** * Properties *)

(** ** The order on Go strings *)

Lemma ascii_compare_refl (a : ascii) : Ascii.compare a a = Eq.
Proof. unfold Ascii.compare. apply N.compare_refl. Qed.

Lemma ascii_compare_lt_trans (a b c : ascii) :
  Ascii.compare a b = Lt → Ascii.compare b c = Lt → Ascii.compare a c = Lt.
Proof.
  unfold Ascii.compare. rewrite !N.compare_lt_iff. apply N.lt_trans.
Qed.

Lemma string_compare_refl (s : string) : String.compare s s = Eq.
Proof.
  induction s as [|a s IH]; [done|]. simpl. by rewrite ascii_compare_refl.
Qed.

Lemma string_compare_lt_trans (s1 s2 s3 : string) :
  String.compare s1 s2 = Lt → String.compare s2 s3 = Lt →
  String.compare s1 s3 = Lt.
Proof.
  revert s2 s3. induction s1 as [|a s1 IH]; intros [|b s2] [|c s3]; simpl;
    try done.
  destruct (Ascii.compare a b) eqn:Hab; try done;
    destruct (Ascii.compare b c) eqn:Hbc; try done; intros H12 H23.
  - apply Ascii.compare_eq_iff in Hab, Hbc. subst.
    rewrite ascii_compare_refl. eauto.
  - apply Ascii.compare_eq_iff in Hab. subst. by rewrite Hbc.
  - apply Ascii.compare_eq_iff in Hbc. subst. by rewrite Hab.
  - by rewrite (ascii_compare_lt_trans a b c).
Qed.

Lemma GoString_lt_irrefl (s : string) : GoString.lt s s = false.
Proof. unfold GoString.lt, String.ltb. by rewrite string_compare_refl. Qed.

Lemma GoString_lt_trans (a b c : string) :
  GoString.lt a b = true → GoString.lt b c = true → GoString.lt a c = true.
Proof.
  unfold GoString.lt, String.ltb.
  destruct (String.compare a b) eqn:Hab; try done.
  destruct (String.compare b c) eqn:Hbc; try done.
  by rewrite (string_compare_lt_trans a b c).
Qed.

(** The order is total: of two different strings one is less. *)
Lemma GoString_lt_total (a b : string) :
  GoString.lt a b = false → GoString.lt b a = false → a = b.
Proof.
  unfold GoString.lt, String.ltb. rewrite (String.compare_antisym b a).
  destruct (String.compare a b) eqn:Hab; try done.
  intros _ _. by apply String.compare_eq_iff.
Qed.

Lemma GoString_lt_asym (a b : string) :
  GoString.lt a b = true → GoString.lt b a = false.
Proof.
  intros Hab. destruct (GoString.lt b a) eqn:Hba; [|done].
  by rewrite <-(GoString_lt_irrefl a), (GoString_lt_trans a b a).
Qed.

Lemma GoString_le_trans (a b c : string) :
  GoString.le a b → GoString.le b c → GoString.le a c.
Proof.
  unfold GoString.le. intros Hba Hcb.
  destruct (GoString.lt c a) eqn:Hca; [|done].
  destruct (GoString.lt a b) eqn:Hab.
  - by rewrite (GoString_lt_trans c a b) in Hcb.
  - assert (a = b) as -> by by apply GoString_lt_total. congruence.
Qed.

Lemma GoString_le_antisym (a b : string) :
  GoString.le a b → GoString.le b a → a = b.
Proof. unfold GoString.le. intros. by apply GoString_lt_total. Qed.

Lemma less_title_order (h : gmap string Node.t) : LessOrder (less_title h).
Proof.
  unfold less_title. split.
  - intros. apply GoString_lt_irrefl.
  - intros a b c. apply GoString_lt_trans.
  - intros a b c Hab Hbc.
    by apply (GoString_le_trans (title h c) (title h b) (title h a)).
Qed.

(** ** Insertion sort meets the contract of [sort.Slice] *)

Section insertion.
Context {A : Type} (less : A → A → bool).

Lemma sink_perm (x : A) (l : list A) : sink less x l ≡ₚ x :: l.
Proof.
  induction l as [|y l IH]; simpl; [done|].
  destruct (less x y); [|done]. rewrite IH. apply Permutation_swap.
Qed.

Lemma insertionSort_perm (l : list A) : insertionSort less l ≡ₚ l.
Proof.
  unfold insertionSort. rewrite <-Permutation_rev.
  transitivity (l ++ []); [|by rewrite app_nil_r].
  generalize (@nil A) as acc.
  induction l as [|x l IH]; intros acc; simpl; [done|].
  by rewrite IH, sink_perm, <-Permutation_middle.
Qed.

Context (Hless : LessOrder less).

(** The prefix in reverse is in descending order. *)
Lemma sink_sorted (x : A) (l : list A) :
  StronglySorted (λ a b, less a b = false) l →
  StronglySorted (λ a b, less a b = false) (sink less x l).
Proof.
  induction 1 as [|y l Hl IH Hy]; simpl.
  { repeat constructor. }
  destruct (less x y) eqn:Hxy.
  - constructor; [done|].
    rewrite sink_perm. constructor; [|done].
    destruct (less y x) eqn:Hyx; [|done].
    by rewrite <-(less_irrefl _ Hless x), (less_trans _ Hless x y x).
  - constructor; [by constructor|].
    constructor; [done|].
    eapply Forall_impl; [exact Hy|]. simpl. intros z Hyz.
    by apply (less_incomp_trans _ Hless x y z).
Qed.

Lemma StronglySorted_rev (R : relation A) (l : list A) :
  StronglySorted R l → StronglySorted (flip R) (rev l).
Proof.
  induction 1 as [|x l Hl IH Hx]; simpl; [constructor|].
  apply StronglySorted_app_2; [|done|repeat constructor].
  intros a b Ha Hb. apply list_elem_of_singleton in Hb as ->.
  rewrite Forall_forall in Hx. apply Hx.
  apply list_elem_of_In, in_rev. by apply list_elem_of_In.
Qed.

Lemma insertionSort_sorted (l : list A) :
  StronglySorted (λ a b, less b a = false) (insertionSort less l).
Proof.
  unfold insertionSort.
  apply (StronglySorted_rev (λ a b, less a b = false)).
  assert (StronglySorted (λ a b, less a b = false) (@nil A)) as Hnil
    by constructor.
  revert Hnil. generalize (@nil A) as acc.
  induction l as [|x l IH]; intros acc Hacc; simpl; [done|].
  apply IH. by apply sink_sorted.
Qed.

End insertion.

Lemma sink_natural {A B} (f : A → B) (less : B → B → bool)
    (less' : A → A → bool) (x : A) (l : list A) :
  (∀ a b, less' a b = less (f a) (f b)) →
  sink less (f x) (f <$> l) = f <$> sink less' x l.
Proof.
  intros Hless. induction l as [|y l IH]; [done|].
  rewrite fmap_cons. cbn [sink]. rewrite <-Hless.
  destruct (less' x y); [|done]. by rewrite IH.
Qed.

Lemma insertionSort_natural {A B} (f : A → B) (less : B → B → bool)
    (less' : A → A → bool) (l : list A) :
  (∀ a b, less' a b = less (f a) (f b)) →
  insertionSort less (f <$> l) = f <$> insertionSort less' l.
Proof.
  intros Hless. unfold insertionSort.
  assert (∀ acc,
    foldl (λ prefix x, sink less x prefix) (f <$> acc) (f <$> l)
    = f <$> foldl (λ prefix x, sink less' x prefix) acc l) as Hfold.
  { induction l as [|x l IH]; intros acc; [done|].
    rewrite fmap_cons. cbn [foldl].
    by rewrite (sink_natural f less less'), IH. }
  change (@nil B) with (f <$> @nil A) at 1. rewrite Hfold.
  generalize (foldl (λ prefix x, sink less' x prefix) [] l).
  intros k. induction k as [|x k IH]; [done|].
  rewrite fmap_cons. cbn [rev]. by rewrite IH, fmap_app.
Qed.

(** The sort of short slices meets the contract. *)
Lemma insertion_SortSliceLaws : SortSliceLaws insertion_SortSlice.
Proof.
  split.
  - intros A less l. apply insertionSort_perm.
  - intros A less l Hless. by apply insertionSort_sorted.
Qed.

Lemma insertion_SortSliceNatural : SortSliceNatural insertion_SortSlice.
Proof. split. intros A B f less less' l. apply insertionSort_natural. Qed.

(** Two members that [less] does not tell apart come out in an order that
    depends on the order in which they went in. *)
Lemma tied_pair_follows_input_order {sorter : SortSlice}
    {sorter_laws : SortSliceLaws sorter}
    {sorter_natural : SortSliceNatural sorter}
    {A} (less : A → A → bool) (x y : A) :
  x ≠ y →
  less x x = false → less x y = false →
  less y x = false → less y y = false →
  sort_Slice less [x; y] ≠ sort_Slice less [y; x].
Proof.
  intros Hxy Hxx Hxy' Hyx Hyy.
  pose (f1 := λ b : bool, if b then x else y).
  pose (f2 := λ b : bool, if b then y else x).
  rewrite (sort_Slice_natural _ _ f1 less (λ _ _, false) [true; false])
    by by intros [] [].
  rewrite (sort_Slice_natural _ _ f2 less (λ _ _, false) [true; false])
    by by intros [] [].
  pose proof (sort_Slice_perm _ (λ _ _ : bool, false) [true; false]) as Hperm.
  destruct (sort_Slice (λ _ _ : bool, false) [true; false])
    as [|a [|b [|c k]]].
  - by apply Permutation_length in Hperm.
  - by apply Permutation_length in Hperm.
  - destruct a, b; simpl; congruence.
  - by apply Permutation_length in Hperm.
Qed.

(** ** What [sortChildren] keeps: every slice is rearranged, nothing else
    changes *)

Lemma node_perm_refl n : node_perm n n.
Proof. by split. Qed.

Lemma node_perm_trans n1 n2 n3 :
  node_perm n1 n2 → node_perm n2 n3 → node_perm n1 n3.
Proof. intros [? ?] [? ?]. split; by etrans. Qed.

Lemma node_perm_sym n1 n2 : node_perm n1 n2 → node_perm n2 n1.
Proof. intros [? ?]. by split. Qed.

Lemma heap_perm_refl h : heap_perm h h.
Proof. intros p. destruct (h !! p); constructor. apply node_perm_refl. Qed.

Lemma heap_perm_trans h1 h2 h3 :
  heap_perm h1 h2 → heap_perm h2 h3 → heap_perm h1 h3.
Proof.
  intros H12 H23 p. specialize (H12 p). specialize (H23 p).
  destruct H12 as [n1 n2 ?|]; inversion H23; simplify_eq; constructor.
  by eapply node_perm_trans.
Qed.

Lemma heap_perm_sym h1 h2 : heap_perm h1 h2 → heap_perm h2 h1.
Proof.
  intros H12 p. destruct (H12 p); constructor. by apply node_perm_sym.
Qed.

Lemma mem_perm_refl m : mem_perm m m.
Proof. split; [done|apply heap_perm_refl]. Qed.

Lemma mem_perm_trans m1 m2 m3 : mem_perm m1 m2 → mem_perm m2 m3 → mem_perm m1 m3.
Proof.
  intros [? ?] [? ?]. split; [by etrans|by eapply heap_perm_trans].
Qed.

Lemma mem_perm_sym m1 m2 : mem_perm m1 m2 → mem_perm m2 m1.
Proof. intros [? ?]. split; [done|by apply heap_perm_sym]. Qed.

Lemma heap_perm_lookup h h' p :
  heap_perm h h' →
  (h !! p = None ∧ h' !! p = None)
  ∨ ∃ n n', h !! p = Some n ∧ h' !! p = Some n' ∧ node_perm n n'.
Proof.
  intros Hp. specialize (Hp p). inversion Hp; [right|left]; eauto.
Qed.

Lemma heap_perm_title h h' p : heap_perm h h' → title h p = title h' p.
Proof.
  intros Hp. unfold title.
  destruct (heap_perm_lookup h h' p Hp)
    as [[-> ->]|(n & n' & -> & -> & Heq & _)]; [done|].
  by injection Heq.
Qed.

Lemma heap_perm_children h h' p :
  heap_perm h h' → children h p ≡ₚ children h' p.
Proof.
  intros Hp. unfold children.
  by destruct (heap_perm_lookup h h' p Hp)
    as [[-> ->]|(n & n' & -> & -> & _ & ?)].
Qed.

Lemma heap_perm_is_Some h h' p :
  heap_perm h h' → is_Some (h !! p) → is_Some (h' !! p).
Proof.
  intros Hp [n Hn].
  destruct (heap_perm_lookup h h' p Hp) as [[? ?]|(? & ? & _ & -> & _)];
    [congruence|eauto].
Qed.

Lemma mem_perm_read s m m' : mem_perm m m' → read_slice s m ≡ₚ read_slice s m'.
Proof.
  intros [Hr Hh]. destruct s; simpl; [done|by apply heap_perm_children].
Qed.

Lemma heap_perm_sorted h h' l :
  heap_perm h h' → sorted_by_title h l → sorted_by_title h' l.
Proof.
  intros Hp. unfold sorted_by_title.
  induction 1 as [|a l Hl IH Ha]; constructor; [done|].
  eapply Forall_impl; [exact Ha|]. simpl. intros b.
  by rewrite !(heap_perm_title h h').
Qed.

Lemma heap_perm_reach h h' ps ps' q :
  heap_perm h h' → ps ≡ₚ ps' → reach h ps q → reach h' ps' q.
Proof.
  intros Hp Hps. induction 1 as [q Hq|p q _ IH Hq].
  - apply reach_here. by rewrite <-Hps.
  - apply (reach_child _ _ p); [done|].
    by rewrite <-(heap_perm_children h h').
Qed.

(** Writing a rearrangement of a slice back into it. *)
Lemma write_slice_perm s l m : l ≡ₚ read_slice s m → mem_perm m (write_slice s l m).
Proof.
  intros Hl. destruct s as [|p]; simpl in *.
  { split; [done|apply heap_perm_refl]. }
  split; [done|]. intros q. simpl. rewrite lookup_alter.
  case_decide as Hpq; [subst q|apply heap_perm_refl].
  unfold children in Hl.
  destruct (nodes m !! p) as [n|]; simpl; constructor. by split.
Qed.

Lemma read_write_slice s l m :
  read_slice s (write_slice s l m) = l ∨ read_slice s (write_slice s l m) = [].
Proof.
  destruct s as [|p]; simpl; [by left|]. unfold children.
  rewrite lookup_alter_eq. destruct (nodes m !! p); simpl; auto.
Qed.

Lemma read_write_slice_ne s s' l m :
  s ≠ s' → read_slice s' (write_slice s l m) = read_slice s' m.
Proof.
  destruct s as [|p], s' as [|p']; simpl; try done. intros Hne.
  unfold children. rewrite lookup_alter_ne; [done|congruence].
Qed.

(** Loops of the shape [for _, x := range l { ... }] in the option monad. *)
Lemma foldl_bind_None {A B} (f : B → A → option A) (l : list B) :
  foldl (λ acc x, m ← acc; f x m) None l = None.
Proof. by induction l. Qed.

Lemma foldl_bind_inv {A B} (f : B → A → option A) (P : list B → A → Prop)
    (l : list B) (a a' : A) :
  P [] a →
  (∀ done x m m', x ∈ l → P done m → f x m = Some m' → P (done ++ [x]) m') →
  foldl (λ acc x, m ← acc; f x m) (Some a) l = Some a' →
  P l a'.
Proof.
  revert a'. induction l as [|x l IH] using rev_ind; intros a' H0 Hstep.
  { simpl. by intros [= <-]. }
  rewrite foldl_snoc.
  destruct (foldl _ (Some a) l) as [m|] eqn:Hfold; [|done]. simpl.
  apply Hstep; [set_solver|]. apply IH; [done| |done].
  intros ?????. apply Hstep. set_solver.
Qed.

Lemma foldl_bind_is_Some {A B} (f : B → A → option A) (P : A → Prop)
    (l : list B) (a : A) :
  P a →
  (∀ x m, x ∈ l → P m → ∃ m', f x m = Some m' ∧ P m') →
  ∃ a', foldl (λ acc x, m ← acc; f x m) (Some a) l = Some a' ∧ P a'.
Proof.
  revert a. induction l as [|x l IH]; intros a Ha Hstep; simpl; [eauto|].
  destruct (Hstep x a) as (m' & -> & Hm'); [set_solver|done|].
  apply IH; [done|]. intros ????. apply Hstep; [set_solver|done].
Qed.

Section sort_facts.
Context {sorter : SortSlice} {sorter_laws : SortSliceLaws sorter}.

Lemma sortChildren_perm fuel s m m' :
  sortChildren fuel s m = Some m' → mem_perm m m'.
Proof.
  revert s m m'. induction fuel as [|fuel IH]; intros s m m'; [done|].
  simpl. intros Hfold.
  apply (foldl_bind_inv _ (λ _ m', mem_perm m m')) in Hfold; [done| |].
  - apply write_slice_perm, sort_Slice_perm.
  - intros _ x m1 m2 _ Hm1 Hx. eapply mem_perm_trans; [done|by eapply IH].
Qed.

Lemma write_sorted_slice s m s' :
  let m1 := write_slice s (sort_Slice (less_title (nodes m)) (read_slice s m)) m in
  (s' = s ∨ sorted_slice m s') → sorted_slice m1 s'.
Proof.
  intros m1 Hs'. unfold sorted_slice.
  assert (mem_perm m m1) as [_ Hh] by apply write_slice_perm, sort_Slice_perm.
  apply (heap_perm_sorted (nodes m)); [done|]. subst m1.
  destruct (decide (s' = s)) as [->|Hne].
  - destruct (read_write_slice s
      (sort_Slice (less_title (nodes m)) (read_slice s m)) m) as [-> | ->].
    + apply (sort_Slice_sorted _ (less_title (nodes m))), less_title_order.
    + constructor.
  - rewrite read_write_slice_ne by done. by destruct Hs'.
Qed.

(** A slice that is in order stays in order: [sortChildren] only ever
    writes sorted slices. *)
Lemma sortChildren_keeps_sorted fuel s m m' s' :
  sortChildren fuel s m = Some m' → sorted_slice m s' → sorted_slice m' s'.
Proof.
  revert s m m'. induction fuel as [|fuel IH]; intros s m m'; [done|].
  simpl. intros Hfold Hs'.
  apply (foldl_bind_inv _ (λ _ m', sorted_slice m' s')) in Hfold; [done| |].
  - apply write_sorted_slice. by right.
  - intros _ x m1 m2 _ Hm1 Hx. by eapply IH.
Qed.

End sort_facts.

Lemma reach_split h ps q :
  reach h ps q → q ∈ ps ∨ ∃ x, x ∈ ps ∧ reach h (children h x) q.
Proof.
  induction 1 as [q Hq|p q _ [Hp|(x & Hx & Hp)] Hq]; [by left|right..].
  - exists p. split; [done|]. by apply reach_here.
  - exists x. split; [done|]. by apply (reach_child _ _ p).
Qed.

Lemma reach_mono h ps ps' q : ps ⊆ ps' → reach h ps q → reach h ps' q.
Proof.
  intros Hsub. induction 1 as [q Hq|p q _ IH Hq].
  - apply reach_here. by apply Hsub.
  - by apply (reach_child _ _ p).
Qed.

Section sorted_facts.
Context {sorter : SortSlice} {sorter_laws : SortSliceLaws sorter}.

Lemma sortChildren_sorted fuel s m m' :
  sortChildren fuel s m = Some m' →
  sorted_slice m' s ∧ subtree_sorted m' (read_slice s m').
Proof.
  revert s m m'. induction fuel as [|fuel IH]; intros s m m'; [done|].
  simpl. set (sorted := sort_Slice (less_title (nodes m)) (read_slice s m)).
  set (m1 := write_slice s sorted m). intros Hfold.
  apply (foldl_bind_inv _ (λ done mm,
    mem_perm m1 mm ∧ sorted_slice mm s
    ∧ ∀ x, x ∈ done →
        sorted_slice mm (ChildrenSlice x)
        ∧ subtree_sorted mm (children (nodes mm) x))) in Hfold.
  - destruct Hfold as (Hperm & Hs & Hdone). split; [done|].
    assert (∀ x, x ∈ read_slice s m' → x ∈ sorted) as Hin.
    { intros x. rewrite <-(mem_perm_read s m1 m' Hperm).
      destruct (read_write_slice s sorted m) as [Hrw|Hrw]; fold m1 in Hrw;
        rewrite Hrw; [done|]. by intros ?%elem_of_nil. }
    intros q [Hq|(x & Hx & Hq)]%reach_split.
    + by apply Hdone, Hin.
    + destruct (Hdone x (Hin x Hx)) as [_ Hsub]. by apply Hsub.
  - split; [apply mem_perm_refl|]. split; [|by intros ? ?%elem_of_nil].
    apply write_sorted_slice. by left.
  - intros done x mm mm2 _ (Hperm & Hs & Hdone) Hx.
    pose proof (sortChildren_perm _ _ _ _ Hx) as Hperm2.
    split; [by eapply mem_perm_trans|].
    split; [by eapply sortChildren_keeps_sorted|].
    intros y [Hy| ->%list_elem_of_singleton]%elem_of_app.
    + destruct (Hdone y Hy) as [Hys Hysub]. split.
      * by eapply sortChildren_keeps_sorted.
      * intros q Hq. eapply sortChildren_keeps_sorted; [done|].
        apply Hysub. destruct Hperm2 as [_ Hh].
        eapply (heap_perm_reach (nodes mm2)); [by apply heap_perm_sym| |done].
        symmetry. by apply heap_perm_children.
    + by apply IH in Hx.
Qed.

Lemma BuildHierarchy_Some fuel files log t h :
  BuildHierarchy fuel files = (log, Some (t, h)) →
  log = (link_all files).2
  ∧ sortChildren fuel RootSlice (link_all files).1
    = Some {| roots := Nodes t; nodes := h |}.
Proof.
  unfold BuildHierarchy. destruct (link_all files) as [m log'].
  destruct (sortChildren fuel RootSlice m) as [m'|] eqn:Hsort; [|done].
  simpl. intros [= <- <- <-]. by destruct m'.
Qed.

(** C2.  In the tree that [BuildHierarchy] returns, the root sequence and the
    children sequence of every node reached from the roots are in ascending
    order of [Title], compared byte by byte; the tree is the linked state of
    the two loops, each slice rearranged by the sort that runs after them. *)
Theorem build_siblings_sorted fuel files log t h :
  BuildHierarchy fuel files = (log, Some (t, h)) →
  sorted_by_title h (Nodes t)
  ∧ (∀ q, reach h (Nodes t) q → sorted_by_title h (children h q))
  ∧ mem_perm (link_all files).1 {| roots := Nodes t; nodes := h |}.
Proof.
  intros [_ Hsort]%BuildHierarchy_Some.
  destruct (sortChildren_sorted _ _ _ _ Hsort) as [Hroots Hsub].
  split; [done|]. split; [exact Hsub|]. by apply sortChildren_perm in Hsort.
Qed.

End sorted_facts.

(** ** The state after the two loops of [BuildHierarchy] *)

Lemma tops_snoc fs x :
  tops (fs ++ [x]) =
  tops fs ++ (if decide (file_parent x = None) then [StandardsFile.Path x] else []).
Proof.
  unfold tops. rewrite filter_app, fmap_app. f_equal.
  rewrite filter_cons, filter_nil. by case_decide.
Qed.

Lemma kids_snoc fs x p :
  kids (fs ++ [x]) p =
  kids fs p ++ (if decide (file_parent x = Some p) then [StandardsFile.Path x] else []).
Proof.
  unfold kids. rewrite filter_app, fmap_app. f_equal.
  rewrite filter_cons, filter_nil. by case_decide.
Qed.

Lemma with_Children_id n : Node.with_Children (Node.Children n) n = n.
Proof. by destruct n. Qed.

Lemma link_foldl h0 fs m log :
  foldl link ({| roots := []; nodes := h0 |}, []) fs = (m, log) →
  roots m = tops fs
  ∧ (∀ p, nodes m !! p =
          (λ n, Node.with_Children (Node.Children n ++ kids fs p) n) <$> h0 !! p)
  ∧ log = omap (dangling h0) fs.
Proof.
  revert m log. induction fs as [|x fs IH] using rev_ind; intros m log.
  { simpl. intros [= <- <-]. split; [done|]. split; [|done]. intros p. simpl.
    destruct (h0 !! p) as [n|]; simpl; [|done].
    by rewrite app_nil_r, with_Children_id. }
  rewrite foldl_snoc.
  destruct (foldl link _ fs) as [m1 log1].
  destruct (IH m1 log1 eq_refl) as (Hroots & Hnodes & Hlog).
  rewrite tops_snoc, omap_app. simpl. unfold link.
  fold (file_parent x).
  destruct (file_parent x) as [pp|] eqn:Hpar.
  - rewrite (Hnodes pp).
    assert (∀ p, kids (fs ++ [x]) p =
                 kids fs p ++ (if decide (pp = p)
                               then [StandardsFile.Path x] else [])) as Hkids.
    { intros p. rewrite kids_snoc, Hpar.
      destruct (decide (pp = p)) as [->|?]; [by rewrite decide_True|].
      rewrite decide_False; [done|congruence]. }
    destruct (h0 !! pp) as [n0|] eqn:Hpp; simpl; intros [= <- <-]; simpl;
      unfold dangling; rewrite Hpar, Hpp, ?app_nil_r;
      (split; [done|]); (split; [|by rewrite Hlog]); intros p;
      rewrite Hkids; destruct (decide (pp = p)) as [->|Hne].
    + rewrite lookup_insert_eq, Hpp. simpl. by rewrite app_assoc.
    + by rewrite lookup_insert_ne, Hnodes, app_nil_r.
    + by rewrite Hnodes, Hpp.
    + by rewrite Hnodes, app_nil_r.
  - intros [= <- <-]. simpl. unfold dangling. rewrite Hpar, app_nil_r.
    split; [by rewrite Hroots|]. split; [|done].
    intros p. by rewrite kids_snoc, Hnodes, Hpar, decide_False, app_nil_r.
Qed.

(** The first loop. *)
Lemma register_foldl_other fs h0 p :
  p ∉ StandardsFile.Path <$> fs → foldl register h0 fs !! p = h0 !! p.
Proof.
  revert h0. induction fs as [|x fs IH]; intros h0 Hp; simpl; [done|].
  rewrite fmap_cons, not_elem_of_cons in Hp. destruct Hp as [Hne Hp].
  rewrite IH by done. unfold register. by rewrite lookup_insert_ne.
Qed.

Lemma register_foldl_Some fs h0 p n :
  foldl register h0 fs !! p = Some n →
  h0 !! p = Some n
  ∨ ∃ f, f ∈ fs ∧ StandardsFile.Path f = p ∧ n = new_Node f.
Proof.
  revert h0. induction fs as [|x fs IH]; intros h0; simpl; [by left|].
  intros [Hn|(f & Hf & Hp & Hn)]%IH.
  - unfold register in Hn. apply lookup_insert_Some in Hn as [[<- <-]|[_ Hn]].
    + right. exists x. split; [left|done].
    + by left.
  - right. exists f. split; [by right|done].
Qed.

Lemma register_foldl_NoDup fs h0 f :
  NoDup (StandardsFile.Path <$> fs) → f ∈ fs →
  foldl register h0 fs !! StandardsFile.Path f = Some (new_Node f).
Proof.
  revert h0. induction fs as [|x fs IH]; intros h0 Hnd Hf; simpl.
  { by apply elem_of_nil in Hf. }
  rewrite fmap_cons, NoDup_cons in Hnd. destruct Hnd as [Hx Hnd].
  apply elem_of_cons in Hf as [->|Hf]; [|by apply IH].
  rewrite register_foldl_other by done. unfold register.
  by rewrite lookup_insert_eq.
Qed.

Lemma register_foldl_is_Some fs h0 p :
  p ∈ StandardsFile.Path <$> fs → is_Some (foldl register h0 fs !! p).
Proof.
  revert h0. induction fs as [|x fs IH]; intros h0 Hp; simpl.
  { by apply elem_of_nil in Hp. }
  destruct (decide (p ∈ StandardsFile.Path <$> fs)) as [Hin|Hnin];
    [by apply IH|].
  rewrite register_foldl_other by done.
  rewrite fmap_cons in Hp. apply elem_of_cons in Hp as [->|?]; [|done].
  unfold register. rewrite lookup_insert_eq. eauto.
Qed.

Lemma register_foldl_dom fs p :
  is_Some (foldl register ∅ fs !! p) ↔ p ∈ StandardsFile.Path <$> fs.
Proof.
  split; [|apply register_foldl_is_Some].
  intros [n [Hn|(f & Hf & <- & _)]%register_foldl_Some]; [done|].
  by apply list_elem_of_fmap_2.
Qed.

(** The linked state, slice by slice. *)
Lemma link_all_spec files :
  let nodes0 := foldl register ∅ files in
  roots (link_all files).1 = tops files
  ∧ (∀ p, nodes (link_all files).1 !! p =
          Node.with_Children (kids files p) <$> nodes0 !! p)
  ∧ (link_all files).2 = omap (dangling nodes0) files.
Proof.
  intros nodes0. unfold link_all. fold nodes0.
  destruct (foldl link _ files) as [m log] eqn:Hfold.
  apply link_foldl in Hfold as (Hroots & Hnodes & Hlog).
  split; [done|]. split; [|done]. intros p. simpl. rewrite Hnodes.
  destruct (nodes0 !! p) as [n|] eqn:Hn; simpl; [|done].
  apply register_foldl_Some in Hn as [Hn|(f & _ & _ & ->)]; [done|]. done.
Qed.

(** ** Parents, depths and the shape of the linked state *)

Lemma heap_perm_parent_of h h' q :
  heap_perm h h' → parent_of h q = parent_of h' q.
Proof.
  intros Hp. unfold parent_of.
  destruct (heap_perm_lookup h h' q Hp)
    as [[-> ->]|(n & n' & -> & -> & Heq & _)]; [done|].
  simpl. by injection Heq as _ _ _ _ _ ->.
Qed.

Lemma consistent_perm m m' : mem_perm m m' → consistent m → consistent m'.
Proof.
  intros [Hr Hh] [Hroots Hchildren]. split.
  - intros q Hq. rewrite <-(heap_perm_parent_of _ _ _ Hh). apply Hroots.
    by rewrite Hr.
  - intros p q Hq. rewrite <-(heap_perm_parent_of _ _ _ Hh). apply Hchildren.
    by rewrite (heap_perm_children _ _ _ Hh).
Qed.

Lemma heap_perm_at_depth h h' d q :
  heap_perm h h' → at_depth h d q → at_depth h' d q.
Proof.
  intros Hp. induction 1 as [q Hq|d p q Hq _ IH].
  - apply depth_root. by rewrite <-(heap_perm_parent_of h h').
  - apply (depth_child _ _ p); [|done]. by rewrite <-(heap_perm_parent_of h h').
Qed.

Lemma heap_perm_size h h' : heap_perm h h' → size h = size h'.
Proof.
  intros Hp. rewrite <-!(size_dom (D := gset string)). f_equal.
  apply set_eq. intros p. rewrite !elem_of_dom.
  split; apply heap_perm_is_Some; [done|by apply heap_perm_sym].
Qed.

Lemma at_depth_unique h d d' q : at_depth h d q → at_depth h d' q → d = d'.
Proof.
  intros Hd. revert d'. induction Hd as [q Hq|d p q Hq _ IH]; intros d' Hd'.
  - by inversion Hd'; simplify_eq.
  - inversion Hd' as [|d'' p' ? Hq' Hp']; simplify_eq.
    f_equal. by apply IH.
Qed.

(** The chain of ancestors of a node at depth [d]: [d + 1] different nodes. *)
Lemma at_depth_chain h d q :
  at_depth h d q →
  ∃ l : list ptr, length l = S d ∧ NoDup l
    ∧ ∀ x, x ∈ l → is_Some (h !! x) ∧ ∃ k, k ≤ d ∧ at_depth h k x.
Proof.
  induction 1 as [q Hq|d p q Hq Hp (l & Hlen & Hnd & Hl)].
  - exists [q]. split; [done|]. split; [apply NoDup_singleton|].
    intros x ->%list_elem_of_singleton. split.
    + unfold parent_of in Hq. destruct (h !! q); [eauto|done].
    + exists 0. split; [done|by apply depth_root].
  - exists (q :: l). split; [simpl; by rewrite Hlen|]. split.
    + apply NoDup_cons. split; [|done]. intros (_ & k & Hk & Hqk)%Hl.
      assert (k = S d); [|lia].
      eapply at_depth_unique; [done|]. by apply (depth_child _ _ p).
    + intros x [->|Hx]%elem_of_cons.
      * split; [unfold parent_of in Hq; destruct (h !! q); [eauto|done]|].
        exists (S d). split; [done|]. by apply (depth_child _ _ p).
      * destruct (Hl x Hx) as (? & k & ? & ?). split; [done|].
        exists k. split; [lia|done].
Qed.

Lemma at_depth_lt_size h d q : at_depth h d q → d < size h.
Proof.
  intros (l & Hlen & Hnd & Hl)%at_depth_chain.
  rewrite <-(size_dom (D := gset string)).
  assert (S d ≤ size (dom h)); [|lia].
  rewrite <-Hlen, <-(size_list_to_set (C := gset string) l) by done.
  apply subseteq_size. intros x Hx%elem_of_list_to_set.
  apply elem_of_dom. by apply Hl.
Qed.

Lemma reach_at_depth m ps d q :
  consistent m →
  (∀ x, x ∈ ps → at_depth (nodes m) d x) →
  reach (nodes m) ps q → ∃ k, at_depth (nodes m) (d + k) q.
Proof.
  intros [_ Hc] Hps. induction 1 as [q Hq|p q _ [k Hk] Hq].
  - exists 0. rewrite Nat.add_0_r. by apply Hps.
  - exists (S k). rewrite Nat.add_succ_r.
    apply (depth_child _ _ p); [by apply Hc|done].
Qed.

(** In a consistent state no node reached from the roots is below itself. *)
Lemma consistent_acyclic m p :
  consistent m → reach (nodes m) (roots m) p → ¬ descendant (nodes m) p p.
Proof.
  intros Hm Hp Hcycle.
  destruct (reach_at_depth m (roots m) 0 p Hm) as [d Hd]; [|done|].
  { intros x Hx. apply depth_root. by apply Hm. }
  destruct (reach_at_depth m (children (nodes m) p) (S d) p Hm) as [k Hk];
    [|done|].
  { intros x Hx. apply (depth_child _ _ p); [by apply Hm|done]. }
  simpl in Hd. pose proof (at_depth_unique _ _ _ _ Hd Hk). lia.
Qed.

Lemma link_all_parent_of files f :
  NoDup (StandardsFile.Path <$> files) → f ∈ files →
  parent_of (nodes (link_all files).1) (StandardsFile.Path f)
  = Some (file_parent f).
Proof.
  intros Hnd Hf. destruct (link_all_spec files) as (_ & Hnodes & _).
  unfold parent_of. by rewrite Hnodes, (register_foldl_NoDup _ _ _ Hnd Hf).
Qed.

Lemma link_all_consistent files :
  NoDup (StandardsFile.Path <$> files) → consistent (link_all files).1.
Proof.
  intros Hnd. destruct (link_all_spec files) as (Hroots & Hnodes & _).
  split.
  - intros q. rewrite Hroots. unfold tops.
    intros (f & -> & [Hf Hin]%list_elem_of_filter)%list_elem_of_fmap.
    by rewrite link_all_parent_of, Hf.
  - intros p q. unfold children. rewrite Hnodes.
    destruct (foldl register ∅ files !! p) as [n|]; simpl;
      [|by intros ?%elem_of_nil].
    unfold kids.
    intros (f & -> & [Hf Hin]%list_elem_of_filter)%list_elem_of_fmap.
    by rewrite link_all_parent_of, Hf.
Qed.

Lemma register_foldl_size fs h0 :
  size (foldl register h0 fs) ≤ size h0 + length fs.
Proof.
  revert h0. induction fs as [|x fs IH]; intros h0; simpl; [lia|].
  etrans; [apply IH|]. unfold register. rewrite map_size_insert.
  destruct (h0 !! _); simpl; lia.
Qed.

Lemma link_all_size files : size (nodes (link_all files).1) ≤ length files.
Proof.
  destruct (link_all_spec files) as (_ & Hnodes & _).
  assert (nodes (link_all files).1
          = map_imap (λ p n, Some (Node.with_Children (kids files p) n))
                     (foldl register ∅ files)) as ->.
  { apply map_eq. intros p. rewrite Hnodes, map_lookup_imap.
    by destruct (foldl register ∅ files !! p). }
  pose proof (register_foldl_size files ∅) as Hsize.
  rewrite map_size_empty in Hsize. etrans; [|exact Hsize].
  rewrite <-!(size_dom (D := gset string)). apply subseteq_size.
  intros p. rewrite !elem_of_dom, map_lookup_imap.
  destruct (foldl register ∅ files !! p); simpl; [eauto|by intros [? ?]].
Qed.

Section termination.
Context {sorter : SortSlice} {sorter_laws : SortSliceLaws sorter}.

(** Below nodes of depth [d] the recursion of [sortChildren] is at most
    [size (nodes m) - d] calls deep. *)
Lemma sortChildren_terminates fuel d s m :
  consistent m →
  (∀ q, q ∈ read_slice s m → at_depth (nodes m) d q) →
  d ≤ size (nodes m) → size (nodes m) < fuel + d →
  ∃ m', sortChildren fuel s m = Some m'.
Proof.
  revert d s m. induction fuel as [|fuel IH]; intros d s m Hm Hs Hd Hfuel;
    [lia|].
  simpl. set (sorted := sort_Slice (less_title (nodes m)) (read_slice s m)).
  destruct (foldl_bind_is_Some
    (λ x mm, sortChildren fuel (ChildrenSlice x) mm) (mem_perm m)
    sorted (write_slice s sorted m)) as (m' & Hm' & _); [| |by eauto].
  { apply write_slice_perm, sort_Slice_perm. }
  intros x mm Hx Hperm.
  assert (at_depth (nodes mm) d x) as Hdx.
  { apply (heap_perm_at_depth (nodes m)); [apply Hperm|]. apply Hs.
    unfold sorted in Hx. by rewrite sort_Slice_perm in Hx. }
  assert (consistent mm) as Hmm by by eapply consistent_perm.
  pose proof (heap_perm_size _ _ (proj2 Hperm)) as Hsize.
  pose proof (at_depth_lt_size _ _ _ Hdx).
  destruct (IH (S d) (ChildrenSlice x) mm) as [m2 Hm2]; [done| |lia|lia|].
  { simpl. intros q Hq. apply (depth_child _ _ x); [by apply Hmm|done]. }
  exists m2. split; [done|].
  eapply mem_perm_trans; [done|]. by eapply sortChildren_perm.
Qed.

(** With one record per path, [BuildHierarchy] returns. *)
Lemma BuildHierarchy_returns fuel files :
  NoDup (StandardsFile.Path <$> files) → length files < fuel →
  ∃ t h, (BuildHierarchy fuel files).2 = Some (t, h).
Proof.
  intros Hnd Hfuel. unfold BuildHierarchy.
  pose proof (link_all_consistent files Hnd) as Hm.
  pose proof (link_all_size files) as Hsize.
  destruct (link_all files) as [m log]. simpl in *.
  destruct (sortChildren_terminates fuel 0 RootSlice m) as [m' ->];
    [done| |lia|lia|simpl; eauto].
  simpl. intros q Hq. apply depth_root. by apply Hm.
Qed.

End termination.

(** ** Dangling parents *)

Section pruning.
Context {sorter : SortSlice} {sorter_laws : SortSliceLaws sorter}.

(** C1, amended.  When the paths of the input records are pairwise
    different, a record whose parent is the path of no record is left out:
    [BuildHierarchy] returns a tree, its path is not among the roots, not in
    the children of any node, not reached from the roots, and the diagnostic
    with its path and its parent is logged. *)
Theorem build_prunes_dangling fuel files f pp :
  NoDup (StandardsFile.Path <$> files) →
  f ∈ files → file_parent f = Some pp →
  pp ∉ StandardsFile.Path <$> files →
  length files < fuel →
  ∃ log t h,
    BuildHierarchy fuel files = (log, Some (t, h))
    ∧ dangling_parent (StandardsFile.Path f) pp ∈ log
    ∧ (StandardsFile.Path f ∉ Nodes t)
    ∧ (∀ p, StandardsFile.Path f ∉ children h p)
    ∧ ¬ reach h (Nodes t) (StandardsFile.Path f).
Proof.
  intros Hnd Hf Hpar Hpp Hfuel.
  destruct (BuildHierarchy_returns fuel files Hnd Hfuel) as (t & h & Hret).
  destruct (BuildHierarchy fuel files) as [log r] eqn:Hbuild.
  simpl in Hret. subst r. exists log, t, h. split; [done|].
  apply BuildHierarchy_Some in Hbuild as [-> Hsort].
  apply sortChildren_perm in Hsort.
  pose proof (consistent_perm _ _ Hsort (link_all_consistent files Hnd))
    as [Hroots Hchildren]. simpl in *.
  pose proof (link_all_parent_of files f Hnd Hf) as Hparent.
  rewrite (heap_perm_parent_of _ h _ (proj2 Hsort)), Hpar in Hparent.
  destruct (link_all_spec files) as (_ & Hnodes & ->).
  assert (foldl register ∅ files !! pp = None) as Hnone.
  { apply eq_None_not_Some. by rewrite register_foldl_dom. }
  assert (StandardsFile.Path f ∉ Nodes t) as Hnotroot.
  { intros Hin%Hroots. congruence. }
  assert (∀ p, StandardsFile.Path f ∉ children h p) as Hnotchild.
  { intros p Hin. pose proof (Hchildren _ _ Hin) as Hp.
    assert (p = pp) as -> by congruence.
    assert (is_Some (nodes (link_all files).1 !! pp)) as [n Hn].
    { apply (heap_perm_is_Some h); [apply heap_perm_sym, Hsort|].
      unfold children in Hin. destruct (h !! pp); [eauto|].
      by apply elem_of_nil in Hin. }
    by rewrite Hnodes, Hnone in Hn. }
  split; [|split; [done|split; [done|]]].
  - apply list_elem_of_omap. exists f. split; [done|].
    unfold dangling. by rewrite Hpar, Hnone.
  - intros Hreach. inversion Hreach; simplify_eq; [done|].
    by eapply Hnotchild.
Qed.

End pruning.

(** ** Independence of the input order *)

Lemma register_foldl_perm files files' :
  NoDup (StandardsFile.Path <$> files) → files ≡ₚ files' →
  foldl register ∅ files = foldl register ∅ files'.
Proof.
  intros Hnd Hperm. apply map_eq. intros p.
  assert (NoDup (StandardsFile.Path <$> files')) as Hnd' by by rewrite <-Hperm.
  destruct (decide (p ∈ StandardsFile.Path <$> files)) as [Hin|Hnin].
  - apply list_elem_of_fmap in Hin as (f & -> & Hf).
    rewrite (register_foldl_NoDup files) by done.
    rewrite (register_foldl_NoDup files'); [done..|by rewrite <-Hperm].
  - rewrite (register_foldl_other files) by done.
    rewrite (register_foldl_other files'); [done|by rewrite <-Hperm].
Qed.

Lemma link_all_perm files files' :
  NoDup (StandardsFile.Path <$> files) → files ≡ₚ files' →
  mem_perm (link_all files).1 (link_all files').1.
Proof.
  intros Hnd Hperm.
  destruct (link_all_spec files) as (Hroots & Hnodes & _).
  destruct (link_all_spec files') as (Hroots' & Hnodes' & _).
  split.
  - rewrite Hroots, Hroots'. unfold tops. by rewrite Hperm.
  - intros p. rewrite Hnodes, Hnodes', <-(register_foldl_perm files files')
      by done.
    destruct (foldl register ∅ files !! p) as [n|]; simpl; constructor.
    split; [done|]. simpl. unfold kids. by rewrite Hperm.
Qed.

Lemma link_all_title files f :
  NoDup (StandardsFile.Path <$> files) → f ∈ files →
  title (nodes (link_all files).1) (StandardsFile.Path f)
  = StandardsHeader.Title (StandardsFile.Header f).
Proof.
  intros Hnd Hf. destruct (link_all_spec files) as (_ & Hnodes & _).
  unfold title. by rewrite Hnodes, (register_foldl_NoDup _ _ _ Hnd Hf).
Qed.

(** The members of a slice of the linked state are records with the same
    parent. *)
Lemma link_all_slice files s a :
  a ∈ read_slice s (link_all files).1 →
  ∃ f, f ∈ files ∧ StandardsFile.Path f = a
       ∧ file_parent f = match s with
                         | RootSlice => None
                         | ChildrenSlice p => Some p
                         end.
Proof.
  destruct (link_all_spec files) as (Hroots & Hnodes & _).
  destruct s as [|p]; simpl.
  - rewrite Hroots. unfold tops.
    intros (f & -> & [Hf Hin]%list_elem_of_filter)%list_elem_of_fmap. eauto.
  - unfold children. rewrite Hnodes.
    destruct (foldl register ∅ files !! p) as [n|]; simpl;
      [|by intros ?%elem_of_nil].
    unfold kids.
    intros (f & -> & [Hf Hin]%list_elem_of_filter)%list_elem_of_fmap. eauto.
Qed.

Lemma link_all_slice_titles files s a b :
  NoDup (StandardsFile.Path <$> files) → distinct_sibling_titles files →
  a ∈ read_slice s (link_all files).1 →
  b ∈ read_slice s (link_all files).1 →
  title (nodes (link_all files).1) a = title (nodes (link_all files).1) b →
  a = b.
Proof.
  intros Hnd Hdist (f & Hf & <- & Hfp)%link_all_slice
    (g & Hg & <- & Hgp)%link_all_slice.
  rewrite !link_all_title by done. apply Hdist; [done..|congruence].
Qed.

(** Two orderings of the same slice that are both sorted are the same, when
    no two members have the same title. *)
Lemma sorted_by_title_unique h l l' :
  (∀ a b, a ∈ l → b ∈ l → title h a = title h b → a = b) →
  sorted_by_title h l → sorted_by_title h l' → l ≡ₚ l' → l = l'.
Proof.
  intros Hinj Hl Hl' Hperm.
  apply (StronglySorted_unique_strong
    (λ a b, GoString.le (title h a) (title h b)) l l'); [|done..].
  intros a b Ha Hb Hab Hba. apply Hinj; [done|by rewrite Hperm|].
  by apply GoString_le_antisym.
Qed.

Lemma node_perm_eq n n' :
  node_perm n n' → Node.Children n = Node.Children n' → n = n'.
Proof.
  intros [Heq _] Hc. destruct n, n'. unfold Node.with_Children in Heq.
  simpl in *. subst. by injection Heq as -> -> -> -> -> ->.
Qed.

(** *** The encoder *)

Lemma mapM_ext_in {A B} (f g : A → option B) (l : list A) :
  (∀ x, x ∈ l → f x = g x) → mapM f l = mapM g l.
Proof.
  induction l as [|x l IH]; intros Hfg; [done|].
  simpl. rewrite (Hfg x) by left. rewrite IH; [done|].
  intros y Hy. apply Hfg. by right.
Qed.

Lemma reach_children h q c p :
  c ∈ children h q → reach h [c] p → reach h [q] p.
Proof.
  intros Hc. induction 1 as [x ->%list_elem_of_singleton|x y _ IH Hy].
  - apply (reach_child _ _ q); [apply reach_here; left|done].
  - by apply (reach_child _ _ x).
Qed.

Lemma encode_Node_agree fuel h h' q :
  (∀ p, reach h [q] p → h !! p = h' !! p) →
  yaml.encode_Node fuel h q = yaml.encode_Node fuel h' q.
Proof.
  revert q. induction fuel as [|fuel IH]; intros q Hagree; [done|].
  simpl. rewrite <-(Hagree q) by (apply reach_here; left).
  destruct (h !! q) as [n|] eqn:Hn; [|done].
  rewrite (mapM_ext_in _ (yaml.encode_Node fuel h') (Node.Children n));
    [done|].
  intros c Hc. apply IH. intros p Hp. apply Hagree.
  apply (reach_children _ _ c); [|done]. unfold children. by rewrite Hn.
Qed.

Lemma Marshal_agree fuel t h h' :
  (∀ p, reach h (Nodes t) p → h !! p = h' !! p) →
  yaml.Marshal fuel t h = yaml.Marshal fuel t h'.
Proof.
  intros Hagree. unfold yaml.Marshal.
  rewrite (mapM_ext_in _ (yaml.encode_Node fuel h') (Nodes t)); [done|].
  intros q Hq. apply encode_Node_agree. intros p Hp. apply Hagree.
  eapply reach_mono; [|done]. by intros ? ->%list_elem_of_singleton.
Qed.

Lemma encode_Node_terminates fuel d m q :
  consistent m → at_depth (nodes m) d q → size (nodes m) < fuel + d →
  is_Some (yaml.encode_Node fuel (nodes m) q).
Proof.
  intros Hm. revert d q. induction fuel as [|fuel IH]; intros d q Hd Hfuel.
  { pose proof (at_depth_lt_size _ _ _ Hd). lia. }
  simpl. destruct (nodes m !! q) as [n|] eqn:Hn; [|eauto].
  assert (is_Some (mapM (yaml.encode_Node fuel (nodes m)) (Node.Children n)))
    as [cs ->]; [|simpl; eauto].
  apply mapM_is_Some, Forall_forall. intros c Hc. simpl.
  apply (IH (S d)); [|lia].
  apply (depth_child _ _ q); [|done]. apply Hm. unfold children.
  by rewrite Hn.
Qed.

Lemma Marshal_terminates fuel m :
  consistent m → size (nodes m) < fuel →
  is_Some (yaml.Marshal fuel {| Nodes := roots m |} (nodes m)).
Proof.
  intros Hm Hfuel. unfold yaml.Marshal. simpl.
  assert (is_Some (mapM (yaml.encode_Node fuel (nodes m)) (roots m)))
    as [ns ->]; [|simpl; eauto].
  apply mapM_is_Some, Forall_forall. intros q Hq. simpl.
  apply (encode_Node_terminates fuel 0 m); [done| |lia].
  apply depth_root. by apply Hm.
Qed.

Section order.
Context {sorter : SortSlice} {sorter_laws : SortSliceLaws sorter}.

Lemma BuildHierarchy_snd fuel files t h :
  (BuildHierarchy fuel files).2 = Some (t, h) →
  sortChildren fuel RootSlice (link_all files).1
  = Some {| roots := Nodes t; nodes := h |}.
Proof.
  destruct (BuildHierarchy fuel files) as [log r] eqn:Hbuild. simpl.
  intros ->. by apply BuildHierarchy_Some in Hbuild as [_ ?].
Qed.

(** C6, amended.  When the paths of the input records are pairwise different
    and no two records with the same parent have the same title, the tree
    that [BuildHierarchy] returns is the same for every ordering of the
    input: the same roots, the same node at every pointer reached from them,
    and the same serialised document. *)
Theorem build_order_independent fuel fuel' fuel_m files files' :
  NoDup (StandardsFile.Path <$> files) →
  distinct_sibling_titles files →
  files ≡ₚ files' →
  length files < fuel → length files < fuel' → length files < fuel_m →
  ∃ t h h' y,
    (BuildHierarchy fuel files).2 = Some (t, h)
    ∧ (BuildHierarchy fuel' files').2 = Some (t, h')
    ∧ (∀ q, reach h (Nodes t) q → h !! q = h' !! q)
    ∧ yaml.Marshal fuel_m t h = Some y
    ∧ yaml.Marshal fuel_m t h' = Some y.
Proof.
  intros Hnd Hdist Hperm Hfuel Hfuel' Hfuelm.
  assert (NoDup (StandardsFile.Path <$> files')) as Hnd' by by rewrite <-Hperm.
  destruct (BuildHierarchy_returns fuel files Hnd Hfuel) as (t & h & Hret).
  destruct (BuildHierarchy_returns fuel' files' Hnd') as (t' & h' & Hret').
  { by rewrite <-Hperm. }
  pose proof (BuildHierarchy_snd _ _ _ _ Hret) as Hs.
  pose proof (BuildHierarchy_snd _ _ _ _ Hret') as Hs'.
  set (m := {| roots := Nodes t; nodes := h |}) in *.
  set (m' := {| roots := Nodes t'; nodes := h' |}) in *.
  pose proof (sortChildren_perm _ _ _ _ Hs) as HLm.
  pose proof (sortChildren_perm _ _ _ _ Hs') as HLm'.
  assert (mem_perm m m') as Hmm'.
  { eapply mem_perm_trans; [by apply mem_perm_sym|].
    eapply mem_perm_trans; [by apply link_all_perm|done]. }
  destruct (sortChildren_sorted _ _ _ _ Hs) as [Hroots Hsub].
  destruct (sortChildren_sorted _ _ _ _ Hs') as [Hroots' Hsub'].
  assert (∀ s a b, a ∈ read_slice s m → b ∈ read_slice s m →
            title h a = title h b → a = b) as Hinj.
  { intros s a b Ha Hb. rewrite <-(mem_perm_read s _ _ HLm) in Ha, Hb.
    rewrite <-!(heap_perm_title _ h _ (proj2 HLm)).
    by apply (link_all_slice_titles files s). }
  assert (Nodes t = Nodes t') as Hnodes.
  { apply (sorted_by_title_unique h); [apply (Hinj RootSlice)|done| |].
    - apply (heap_perm_sorted h'); [apply heap_perm_sym, Hmm'|done].
    - apply Hmm'. }
  assert (t' = t) as -> by (destruct t, t'; simpl in *; congruence).
  assert (∀ q, reach h (Nodes t) q → h !! q = h' !! q) as Hagree.
  { intros q Hq.
    destruct (heap_perm_lookup h h' q (proj2 Hmm'))
      as [[-> ->]|(n & n' & Hn & Hn' & Hnn')]; [done|].
    rewrite Hn, Hn'. f_equal. apply node_perm_eq; [done|].
    pose proof (Hsub q Hq) as Hsq.
    assert (sorted_slice m' (ChildrenSlice q)) as Hsq'.
    { apply Hsub'. simpl.
      apply (heap_perm_reach h h' (Nodes t) (Nodes t)); [apply Hmm'|done..]. }
    unfold sorted_slice in Hsq, Hsq'. simpl in Hsq, Hsq'.
    unfold children in Hsq, Hsq'. rewrite Hn in Hsq. rewrite Hn' in Hsq'.
    apply (sorted_by_title_unique h); [|done| |apply Hnn'].
    - intros a b Ha Hb. apply (Hinj (ChildrenSlice q)); simpl;
        unfold children; by rewrite Hn.
    - apply (heap_perm_sorted h'); [apply heap_perm_sym, Hmm'|done]. }
  assert (consistent m) as Hm.
  { eapply consistent_perm; [done|]. by apply link_all_consistent. }
  destruct (Marshal_terminates fuel_m m Hm) as [y Hy].
  { rewrite <-(heap_perm_size _ _ (proj2 HLm)).
    pose proof (link_all_size files). lia. }
  simpl in Hy. destruct t as [ns]. simpl in *.
  exists {| Nodes := ns |}, h, h', y.
  split; [done|]. split; [done|]. split; [done|]. split; [done|].
  by rewrite <-(Marshal_agree fuel_m {| Nodes := ns |} h h').
Qed.

End order.

(** ** ExtractMDHeader *)

(** C4.  A front matter block that fails to parse makes [ExtractMDHeader]
    return the parse error ([return nil, err]); only a document without a
    block, or with a block that fails validation, gives no header and no
    error. *)
Theorem extract_parse_error_propagates env path content err :
  os_ReadFile env path = inr content →
  frontmatter_Parse env content = FmError err →
  ExtractMDHeader env path = (None, Some err)
  ∧ ExtractMDHeader env path ≠ (None, None).
Proof.
  intros Hread Hparse. unfold ExtractMDHeader. by rewrite Hread, Hparse.
Qed.

Lemma extract_no_front_matter env path content :
  os_ReadFile env path = inr content →
  frontmatter_Parse env content = FmAbsent →
  ExtractMDHeader env path = (None, None).
Proof.
  intros Hread Hparse. unfold ExtractMDHeader. by rewrite Hread, Hparse.
Qed.

Lemma required_string_true s : s ≠ "" → required_string s = true.
Proof.
  intros Hs. unfold required_string. by apply negb_true_iff, String.eqb_neq.
Qed.

(** C5.  A header with non-empty title, description and scope whose topics
    are an empty list (not [nil]) passes validation: [ExtractMDHeader]
    returns it. *)
Theorem extract_accepts_empty_topics env path content h :
  os_ReadFile env path = inr content →
  frontmatter_Parse env content = FmDecoded h →
  StandardsHeader.Title h ≠ "" →
  StandardsHeader.Description h ≠ "" →
  StandardsHeader.Scope h ≠ "" →
  StandardsHeader.Topics h = Some [] →
  ExtractMDHeader env path = (Some h, None).
Proof.
  intros Hread Hparse Ht Hd Hs Htopics. unfold ExtractMDHeader.
  rewrite Hread, Hparse. unfold validate_Struct.
  by rewrite !required_string_true, Htopics.
Qed.

(** ** ParseMDDocuments *)

Lemma augment_foldl root pre rest :
  foldl (augment root) (pre ++ rest) (seq (length pre) (length rest))
  = pre ++ (rooted root <$> rest).
Proof.
  revert pre. induction rest as [|f rest IH]; intros pre; [done|].
  rewrite fmap_cons. cbn [length seq foldl].
  assert (augment root (pre ++ f :: rest) (length pre)
          = (pre ++ [rooted root f]) ++ rest) as ->.
  { unfold augment. rewrite list_lookup_middle by done.
    fold (file_parent f). unfold rooted.
    destruct (file_parent f) as [parent|]; [|by rewrite <-app_assoc].
    replace (length pre) with (length pre + 0) at 1 by lia.
    rewrite insert_app_r. simpl. by rewrite <-app_assoc. }
  specialize (IH (pre ++ [rooted root f])).
  rewrite length_app, Nat.add_1_r in IH. rewrite IH. by rewrite <-app_assoc.
Qed.

Lemma ParseMDDocuments_headers env root :
  (ParseMDDocuments env root).1.1 = rooted root <$> collected env root.
Proof.
  unfold ParseMDDocuments, collected.
  destruct (WalkDir _ _ _) as [[headers log] err]. simpl.
  apply (augment_foldl root [] headers).
Qed.

Lemma visit_extracted env st e st' err :
  (∀ f, f ∈ st.1 →
     ExtractMDHeader env (StandardsFile.Path f)
     = (Some (StandardsFile.Header f), None)) →
  visit env st e = (st', err) →
  ∀ f, f ∈ st'.1 →
    ExtractMDHeader env (StandardsFile.Path f)
    = (Some (StandardsFile.Header f), None).
Proof.
  intros Hst. unfold visit. destruct st as [headers log].
  destruct (walk_err e); [by intros [= <- _]|].
  destruct (IsDir _); [by intros [= <- _]|].
  destruct (negb _); [by intros [= <- _]|].
  destruct (ExtractMDHeader env (walk_path e)) as [[header|] [err'|]] eqn:Hx;
    intros [= <- _]; try done.
  simpl. intros f [Hf| ->%list_elem_of_singleton]%elem_of_app; [by apply Hst|].
  done.
Qed.

Lemma WalkDir_extracted env entries st :
  (∀ f, f ∈ st.1 →
     ExtractMDHeader env (StandardsFile.Path f)
     = (Some (StandardsFile.Header f), None)) →
  ∀ f, f ∈ (WalkDir (visit env) entries st).1.1 →
    ExtractMDHeader env (StandardsFile.Path f)
    = (Some (StandardsFile.Header f), None).
Proof.
  revert st. induction entries as [|e entries IH]; intros st Hst; [done|].
  simpl. destruct (visit env st e) as [st' [err|]] eqn:Hvisit.
  - simpl. by eapply visit_extracted.
  - apply IH. by eapply visit_extracted.
Qed.

(** C7.  Every record that [ParseMDDocuments] returns with a parent carries
    [path.Join(root, declared)], where [declared] is the parent of the header
    that [ExtractMDHeader] returned for the record's path; and joining
    ["tree"] with ["sub/OTHER.md"] gives ["tree/sub/OTHER.md"], the path under
    which the walk of ["tree"] finds that document. *)
Theorem parent_joined_to_root env root f p :
  f ∈ (ParseMDDocuments env root).1.1 →
  file_parent f = Some p →
  (∃ header declared,
      ExtractMDHeader env (StandardsFile.Path f) = (Some header, None)
      ∧ StandardsHeader.Parent header = Some declared
      ∧ p = path.Join [root; declared])
  ∧ path.Join ["tree"; "sub/OTHER.md"] = "tree/sub/OTHER.md".
Proof.
  rewrite ParseMDDocuments_headers.
  intros (g & -> & Hg)%list_elem_of_fmap Hp. split; [|by vm_compute].
  apply (WalkDir_extracted env _ ([], [])) in Hg;
    [|by intros ? ?%elem_of_nil].
  unfold rooted in *. destruct (file_parent g) as [declared|] eqn:Hdecl.
  - exists (StandardsFile.Header g), declared. simpl.
    split; [done|]. split; [done|]. unfold file_parent in Hp. simpl in Hp.
    congruence.
  - congruence.
Qed.

(** ** The serialised tree *)

Lemma closed_perm m m' : mem_perm m m' → closed m → closed m'.
Proof.
  intros [Hr Hh] [Hroots Hchildren]. split.
  - intros q Hq. apply (heap_perm_is_Some (nodes m)); [done|].
    apply Hroots. by rewrite Hr.
  - intros p q Hq. apply (heap_perm_is_Some (nodes m)); [done|].
    apply (Hchildren p). by rewrite (heap_perm_children _ _ _ Hh).
Qed.

Lemma link_all_closed files : closed (link_all files).1.
Proof.
  assert (∀ s a, a ∈ read_slice s (link_all files).1 →
                 is_Some (nodes (link_all files).1 !! a)) as Hslice.
  { intros s a (f & Hf & <- & _)%link_all_slice.
    destruct (link_all_spec files) as (_ & Hnodes & _). rewrite Hnodes.
    destruct (register_foldl_is_Some files ∅ (StandardsFile.Path f))
      as [n ->]; [by apply list_elem_of_fmap_2|]. simpl. eauto. }
  split.
  - apply (Hslice RootSlice).
  - intros p. apply (Hslice (ChildrenSlice p)).
Qed.

Lemma flat_map_keys_strings (tp : list string) :
  flat_map all_keys (yaml.Str <$> tp) = [].
Proof. by induction tp. Qed.

Lemma Forall2_transfer {A B} (R : A → B → Prop) (P : A → Prop)
    (Q : B → Prop) (l : list A) (k : list B) :
  (∀ x y, P x → R x y → Q y) → Forall P l → Forall2 R l k → Forall Q k.
Proof.
  intros HPQ Hl HR. induction HR as [|x y l k Hxy _ IH]; [constructor|].
  apply Forall_cons in Hl as [Hx Hl]. constructor; eauto.
Qed.

(** The tags of [Node] at work: [Parent] is dropped, the other fields get
    their names in lower case. *)
Lemma encode_struct_Node (n : Node.t) (cs : list yaml.Value) :
  yaml.encode_struct [
    ("Path", None, yaml.Str (Node.Path n));
    ("Title", None, yaml.Str (Node.Title n));
    ("Description", None, yaml.Str (Node.Description n));
    ("Scope", None, yaml.Str (Node.Scope n));
    ("Topics", None, yaml.encode_strings (Node.Topics n));
    ("Parent", Some "-", yaml.encode_opt_string (Node.Parent n));
    ("Children", None, yaml.Seq cs)]
  = yaml.Map [
    ("path", yaml.Str (Node.Path n)); ("title", yaml.Str (Node.Title n));
    ("description", yaml.Str (Node.Description n));
    ("scope", yaml.Str (Node.Scope n));
    ("topics", yaml.Seq (yaml.Str <$> default [] (Node.Topics n)));
    ("children", yaml.Seq cs)].
Proof. reflexivity. Qed.

Lemma encode_Node_shape fuel h q y :
  (∀ p c, c ∈ children h p → is_Some (h !! c)) →
  is_Some (h !! q) →
  yaml.encode_Node fuel h q = Some y →
  node_shape y ∧ "parent" ∉ all_keys y.
Proof.
  intros Hclosed. revert q y.
  induction fuel as [|fuel IH]; intros q y [n Hn]; [done|].
  simpl. rewrite Hn.
  destruct (mapM _ (Node.Children n)) as [cs|] eqn:Hcs; [|done].
  simpl. intros [= <-]. rewrite encode_struct_Node.
  apply mapM_Some in Hcs.
  assert (Forall (λ c, node_shape c ∧ "parent" ∉ all_keys c) cs) as Hall.
  { apply (Forall2_transfer
      (λ x y, yaml.encode_Node fuel h x = Some y) (λ c, is_Some (h !! c))
      _ (Node.Children n) cs); [intros c y Hc Hy; by apply (IH c)| |done].
    apply Forall_forall. intros c Hc. apply (Hclosed q). unfold children.
    by rewrite Hn. }
  split.
  - constructor. eapply Forall_impl; [exact Hall|]. by intros ? [? _].
  - cbn [all_keys flat_map fst snd app].
    rewrite flat_map_keys_strings, app_nil_r.
    assert ("parent" ∉ flat_map all_keys cs) as Hcs'.
    { intros (c & Hc & Hin)%list_elem_of_In%in_flat_map.
      apply list_elem_of_In in Hc, Hin.
      rewrite Forall_forall in Hall. by destruct (Hall c Hc). }
    cbn [app]. rewrite !not_elem_of_cons. by repeat split.
Qed.

Lemma Forall2_impl_in {A B} (P Q : A → B → Prop) l k :
  (∀ a b, a ∈ l → P a b → Q a b) → Forall2 P l k → Forall2 Q l k.
Proof.
  intros HPQ HP. induction HP as [|a b l k Hab _ IH]; [constructor|].
  constructor; [apply HPQ; [left|done]|].
  apply IH. intros a' b' Ha'. apply HPQ. by right.
Qed.

(** The encoder writes the document of the node, field by field. *)
Lemma encode_Node_doc fuel h q y :
  (∀ p c, c ∈ children h p → is_Some (h !! c)) →
  is_Some (h !! q) →
  yaml.encode_Node fuel h q = Some y → node_doc h q y.
Proof.
  intros Hclosed. revert q y.
  induction fuel as [|fuel IH]; intros q y [n Hn]; [done|].
  simpl. rewrite Hn.
  destruct (mapM _ (Node.Children n)) as [cs|] eqn:Hcs; [|done].
  simpl. intros [= <-]. rewrite encode_struct_Node.
  apply mapM_Some in Hcs. apply (node_doc_intro h q n cs Hn).
  eapply Forall2_impl_in; [|exact Hcs]. intros c yc Hc Hyc.
  apply IH; [|done]. apply (Hclosed q). unfold children. by rewrite Hn.
Qed.

Section serialised.
Context {sorter : SortSlice} {sorter_laws : SortSliceLaws sorter}.

(** C8.  The document that [GenerateStandardsTree] writes is that of the
    tree that [BuildHierarchy] returns for the collected records: the mapping
    [nodes] to one document for each root, in the order of the roots, and
    the document of a node is a mapping with exactly the keys [path],
    [title], [description], [scope], [topics] and [children] that hold the
    fields of that node, with one such document under [children] for each
    of its children, at every depth.  No mapping has a key [parent]. *)
Theorem serialised_node_fields fuel env path file data :
  GenerateStandardsTree fuel env path = Some (Wrote file data) →
  file = "standards-tree.yaml"
  ∧ (∃ t h ns,
       (BuildHierarchy fuel (ParseMDDocuments env path).1.1).2 = Some (t, h)
       ∧ data = yaml.Map [("nodes", yaml.Seq ns)]
       ∧ Forall2 (node_doc h) (Nodes t) ns
       ∧ Forall node_shape ns)
  ∧ "parent" ∉ all_keys data.
Proof.
  unfold GenerateStandardsTree.
  destruct (ParseMDDocuments env path) as [[headers [err|]] log]; [done|].
  destruct (BuildHierarchy fuel headers).2 as [[t h]|] eqn:Hbuild; [|done].
  simpl. destruct (yaml.Marshal fuel t h) as [y|] eqn:Hy; [|done]. simpl.
  destruct (os_WriteFile env _); [done|]. intros [= <- <-].
  split; [done|].
  pose proof Hbuild as Hreturned.
  apply BuildHierarchy_snd, sortChildren_perm in Hbuild.
  pose proof (closed_perm _ _ Hbuild (link_all_closed headers))
    as [Hroots Hchildren]. simpl in *.
  unfold yaml.Marshal in Hy.
  destruct (mapM _ (Nodes t)) as [ns|] eqn:Hns; [|done].
  simpl in Hy. injection Hy as <-. apply mapM_Some in Hns.
  assert (Forall (λ c, node_shape c ∧ "parent" ∉ all_keys c) ns) as Hall.
  { apply (Forall2_transfer
      (λ x y, yaml.encode_Node fuel h x = Some y) (λ c, is_Some (h !! c))
      _ (Nodes t) ns);
      [intros c y Hc Hy; by apply (encode_Node_shape fuel h c)| |done].
    by apply Forall_forall. }
  split.
  - exists t, h, ns. split; [done|]. split; [done|]. split.
    + eapply Forall2_impl_in; [|exact Hns]. intros c y Hc Hy.
      by apply (encode_Node_doc fuel h c); [|apply Hroots|].
    + eapply Forall_impl; [exact Hall|]. by intros ? [? _].
  - change (yaml.encode_struct [("Nodes", None, yaml.Seq ns)])
      with (yaml.Map [("nodes", yaml.Seq ns)]).
    cbn [all_keys flat_map fst snd app]. rewrite app_nil_r.
    assert ("parent" ∉ flat_map all_keys ns) as Hns'.
    { intros (c & Hc & Hin)%list_elem_of_In%in_flat_map.
      apply list_elem_of_In in Hc, Hin.
      rewrite Forall_forall in Hall. by destruct (Hall c Hc). }
    rewrite not_elem_of_cons. by split.
Qed.

End serialised.

(** ** Duplicate paths and parent cycles *)

Lemma reach_nil h q : ¬ reach h [] q.
Proof.
  induction 1 as [q Hq|]; [by apply elem_of_nil in Hq|done].
Qed.

Lemma tops_NoDup files :
  NoDup (StandardsFile.Path <$> files) → NoDup (tops files).
Proof.
  intros Hnd. eapply sublist_NoDup; [exact Hnd|].
  unfold tops. apply fmap_sublist, sublist_filter.
Qed.

Lemma kids_NoDup files p :
  NoDup (StandardsFile.Path <$> files) → NoDup (kids files p).
Proof.
  intros Hnd. eapply sublist_NoDup; [exact Hnd|].
  unfold kids. apply fmap_sublist, sublist_filter.
Qed.

Lemma link_all_NoDup files s :
  NoDup (StandardsFile.Path <$> files) →
  NoDup (read_slice s (link_all files).1).
Proof.
  intros Hnd. destruct (link_all_spec files) as (Hroots & Hnodes & _).
  destruct s as [|p]; simpl.
  - rewrite Hroots. by apply tops_NoDup.
  - unfold children. rewrite Hnodes.
    destruct (foldl register ∅ files !! p); simpl; [|constructor].
    by apply kids_NoDup.
Qed.

Section duplicates.
Context {sorter : SortSlice} {sorter_laws : SortSliceLaws sorter}.

Lemma sort_Slice_nil {A} (less : A → A → bool) : sort_Slice less [] = [].
Proof. apply Permutation_nil_r, sort_Slice_perm. Qed.

Lemma write_children_nil m x :
  children (nodes m) x = [] → write_slice (ChildrenSlice x) [] m = m.
Proof.
  intros Hx. destruct m as [rs h]. simpl in *. f_equal.
  apply alter_id. intros n Hn. unfold children in Hx. rewrite Hn in Hx.
  by rewrite <-Hx, with_Children_id.
Qed.

Lemma sortChildren_S fuel s m :
  sortChildren (S fuel) s m
  = foldl (λ acc node, m' ← acc; sortChildren fuel (ChildrenSlice node) m')
      (Some (write_slice s
               (sort_Slice (less_title (nodes m)) (read_slice s m)) m))
      (sort_Slice (less_title (nodes m)) (read_slice s m)).
Proof. done. Qed.

(** A node without children costs one more call. *)
Lemma sortChildren_leaf fuel m x :
  children (nodes m) x = [] →
  sortChildren (S fuel) (ChildrenSlice x) m = Some m.
Proof.
  intros Hx. rewrite sortChildren_S. cbn [read_slice].
  rewrite Hx, sort_Slice_nil. cbn [foldl]. by rewrite write_children_nil.
Qed.

Lemma sortChildren_root_leaves fuel m :
  (∀ x, x ∈ roots m → children (nodes m) x = []) →
  sortChildren (S (S fuel)) RootSlice m
  = Some {| roots := sort_Slice (less_title (nodes m)) (roots m);
            nodes := nodes m |}.
Proof.
  intros Hleaves. rewrite sortChildren_S. cbn [read_slice write_slice].
  set (sorted := sort_Slice (less_title (nodes m)) (roots m)).
  set (m1 := {| roots := sorted; nodes := nodes m |}).
  assert (∀ x, x ∈ sorted → children (nodes m1) x = []) as Hsorted.
  { intros x Hx. apply Hleaves. unfold sorted in Hx.
    by rewrite sort_Slice_perm in Hx. }
  clearbody sorted m1. clear Hleaves.
  induction sorted as [|x sorted IH]; [done|].
  cbn [foldl mbind option_bind].
  rewrite sortChildren_leaf by (apply Hsorted; left).
  apply IH. intros y Hy. apply Hsorted. by right.
Qed.

(** C9.  Two records with the same path and no parent: one node is made, of
    the second record, and it is in the root sequence twice.  When the paths
    of the input are pairwise different no pointer is in two places: no
    slice holds one twice, and none is in two slices. *)
Theorem duplicate_path_node_twice fuel :
  StandardsFile.Path dup_first = StandardsFile.Path dup_second
  ∧ file_parent dup_first = None ∧ file_parent dup_second = None
  ∧ BuildHierarchy (S (S fuel)) [dup_first; dup_second]
    = ([], Some ({| Nodes := ["docs/A.md"; "docs/A.md"] |},
                 {["docs/A.md" := new_Node dup_second]}))
  ∧ (∀ files fuel' log t h,
       NoDup (StandardsFile.Path <$> files) →
       BuildHierarchy fuel' files = (log, Some (t, h)) →
       NoDup (Nodes t)
       ∧ (∀ p, NoDup (children h p))
       ∧ (∀ p q, q ∈ children h p → q ∉ Nodes t)
       ∧ (∀ p p' q, q ∈ children h p → q ∈ children h p' → p = p')).
Proof.
  split; [done|]. split; [done|]. split; [done|]. split.
  - unfold BuildHierarchy.
    assert (link_all [dup_first; dup_second]
            = ({| roots := ["docs/A.md"; "docs/A.md"];
                  nodes := {["docs/A.md" := new_Node dup_second]} |}, []))
      as -> by by vm_compute.
    rewrite sortChildren_root_leaves.
    + cbn [roots nodes mbind option_bind].
      assert (sort_Slice (less_title {["docs/A.md" := new_Node dup_second]})
                ["docs/A.md"; "docs/A.md"] = ["docs/A.md"; "docs/A.md"])
        as ->; [|done].
      symmetry. apply (replicate_Permutation 2 "docs/A.md").
      symmetry. apply sort_Slice_perm.
    + cbn [roots nodes]. intros x Hx.
      repeat (apply elem_of_cons in Hx as [->|Hx]; [by vm_compute|]).
      by apply elem_of_nil in Hx.
  - intros files fuel' log t h Hnd [_ Hsort%sortChildren_perm]%BuildHierarchy_Some.
    pose proof (consistent_perm _ _ Hsort (link_all_consistent files Hnd))
      as [Hroots Hchildren]. simpl in *.
    split; [|split; [|split]].
    + rewrite <-(mem_perm_read RootSlice _ _ Hsort).
      by apply link_all_NoDup.
    + intros p.
      rewrite <-(mem_perm_read (ChildrenSlice p) _
                   {| roots := Nodes t; nodes := h |} Hsort).
      by apply link_all_NoDup.
    + intros p q Hq%Hchildren Hq'%Hroots. congruence.
    + intros p p' q Hq%Hchildren Hq'%Hchildren. congruence.
Qed.

(** C10.  Two records that name each other as parent: each node is put in
    the children of the other, the root sequence is empty, so neither node
    is reached from the roots, and no diagnostic is logged. *)
Theorem mutual_parents_unreachable fuel :
  file_parent cycle_a = Some (StandardsFile.Path cycle_b)
  ∧ file_parent cycle_b = Some (StandardsFile.Path cycle_a)
  ∧ ∃ h,
      BuildHierarchy (S fuel) [cycle_a; cycle_b]
      = ([], Some ({| Nodes := [] |}, h))
      ∧ children h "a.md" = ["b.md"]
      ∧ children h "b.md" = ["a.md"]
      ∧ ∀ q, ¬ reach h [] q.
Proof.
  split; [done|]. split; [done|].
  destruct (link_all [cycle_a; cycle_b]) as [m log] eqn:Hlink.
  exists (nodes m). unfold BuildHierarchy. rewrite Hlink.
  assert (roots m = [] ∧ log = []
          ∧ children (nodes m) "a.md" = ["b.md"]
          ∧ children (nodes m) "b.md" = ["a.md"]) as (Hr & -> & Ha & Hb).
  { vm_compute in Hlink. injection Hlink as <- <-. by vm_compute. }
  rewrite sortChildren_S. cbn [read_slice]. rewrite Hr, sort_Slice_nil.
  cbn [foldl write_slice mbind option_bind roots nodes].
  split; [done|]. split; [done|]. split; [done|]. apply reach_nil.
Qed.

End duplicates.

(** Two roots with the same title: whatever the algorithm of [sort.Slice],
    the order of the roots changes with the order of the input. *)
Lemma tied_roots_follow_input_order {sorter : SortSlice}
    {sorter_laws : SortSliceLaws sorter}
    {sorter_natural : SortSliceNatural sorter} (fuel : nat) :
  (BuildHierarchy (S (S fuel)) [tie_x; tie_y]).2
  ≠ (BuildHierarchy (S (S fuel)) [tie_y; tie_x]).2.
Proof.
  set (h := {["x.md" := new_Node tie_x; "y.md" := new_Node tie_y]}
            : gmap string Node.t).
  assert (∀ x, x = "x.md" ∨ x = "y.md" → children h x = []) as Hleaves.
  { by intros x [-> | ->]; vm_compute. }
  unfold BuildHierarchy.
  assert (link_all [tie_x; tie_y]
          = ({| roots := ["x.md"; "y.md"]; nodes := h |}, [])) as ->
    by by vm_compute.
  assert (link_all [tie_y; tie_x]
          = ({| roots := ["y.md"; "x.md"]; nodes := h |}, [])) as ->
    by by vm_compute.
  rewrite !sortChildren_root_leaves
    by (cbn [roots nodes]; intros z Hz; apply Hleaves;
        rewrite !elem_of_cons, elem_of_nil in Hz; tauto).
  cbn [roots nodes mbind option_bind snd]. intros [= Heq]. revert Heq.
  by apply tied_pair_follows_input_order.
Qed.

(** ** A cycle below the roots keeps [sortChildren] running *)

Lemma deep_perm h h' k ps ps' :
  heap_perm h h' → ps ≡ₚ ps' → deep h k ps → deep h' k ps'.
Proof.
  intros Hh. revert ps ps'. induction k as [|k IH]; intros ps ps' Hps; [done|].
  simpl. intros (x & Hx & Hdeep). exists x. split; [by rewrite <-Hps|].
  eapply IH; [|done]. by apply heap_perm_children.
Qed.

Lemma deep_S h k ps : deep h (S k) ps → deep h k ps.
Proof.
  revert ps. induction k as [|k IH]; intros ps; [done|].
  intros (x & Hx & Hdeep). exists x. split; [done|]. by apply IH.
Qed.

Lemma reach_deep h ps q k :
  reach h ps q → deep h k (children h q) → deep h (S k) ps.
Proof.
  intros Hreach. revert k. induction Hreach as [q Hq|p q _ IH Hq]; intros k Hk.
  - by exists q.
  - apply deep_S, IH. by exists q.
Qed.

Lemma cycle_deep h p k : descendant h p p → deep h k (children h p).
Proof.
  intros Hcycle. induction k as [|k IH]; [done|]. by apply (reach_deep h _ p).
Qed.

Lemma foldl_bind_None_at {A B} (f : B → A → option A) (P : A → Prop)
    (l : list B) (x : B) (a : A) :
  x ∈ l → P a →
  (∀ y m m', P m → f y m = Some m' → P m') →
  (∀ m, P m → f x m = None) →
  foldl (λ acc y, m ← acc; f y m) (Some a) l = None.
Proof.
  intros Hx Ha Hstep Hnone. revert a Ha.
  induction l as [|y l IH]; intros a Ha; [by apply elem_of_nil in Hx|].
  simpl. destruct (f y a) as [a'|] eqn:Hy; [|apply foldl_bind_None].
  apply elem_of_cons in Hx as [->|Hx].
  - by rewrite Hnone in Hy.
  - apply IH; [done|]. by eapply Hstep.
Qed.

Section divergence.
Context {sorter : SortSlice} {sorter_laws : SortSliceLaws sorter}.

Lemma sortChildren_deep fuel s m :
  deep (nodes m) fuel (read_slice s m) → sortChildren fuel s m = None.
Proof.
  revert s m. induction fuel as [|fuel IH]; intros s m; [done|].
  intros (x & Hx & Hdeep). rewrite sortChildren_S.
  apply (foldl_bind_None_at _ (mem_perm m) _ x).
  - by rewrite sort_Slice_perm.
  - apply write_slice_perm, sort_Slice_perm.
  - intros y m1 m2 Hm1 Hy. eapply mem_perm_trans; [done|].
    by eapply sortChildren_perm.
  - intros m1 [_ Hh]. apply IH. simpl.
    eapply deep_perm; [done|by apply heap_perm_children|done].
Qed.

(** The final sort does not return when a node reached from the roots is
    its own descendant. *)
Lemma BuildHierarchy_cycle fuel files p :
  reach (nodes (link_all files).1) (roots (link_all files).1) p →
  descendant (nodes (link_all files).1) p p →
  (BuildHierarchy fuel files).2 = None.
Proof.
  intros Hp Hcycle. unfold BuildHierarchy.
  destruct (link_all files) as [m log]. simpl in *.
  rewrite sortChildren_deep; [done|]. simpl.
  apply deep_S, (reach_deep _ _ p); [done|]. by apply cycle_deep.
Qed.

(** The slices of a returned tree, up to their order. *)
Lemma BuildHierarchy_slices fuel files log t h :
  BuildHierarchy fuel files = (log, Some (t, h)) →
  Nodes t ≡ₚ tops files
  ∧ (∀ p, p ∈ StandardsFile.Path <$> files → children h p ≡ₚ kids files p)
  ∧ (∀ p, p ∉ StandardsFile.Path <$> files → h !! p = None).
Proof.
  intros [_ Hsort%sortChildren_perm]%BuildHierarchy_Some.
  destruct Hsort as [Hr Hh]. simpl in *.
  destruct (link_all_spec files) as (Hroots & Hnodes & _).
  split; [by rewrite <-Hr, Hroots|]. split.
  - intros p Hp. rewrite <-(heap_perm_children _ h p Hh).
    unfold children. rewrite Hnodes.
    by apply register_foldl_dom in Hp as [n ->].
  - intros p Hp. apply eq_None_not_Some. intros Hsome.
    apply (heap_perm_is_Some h (nodes (link_all files).1)) in Hsome;
      [|by apply heap_perm_sym].
    rewrite Hnodes in Hsome. apply Hp, register_foldl_dom.
    destruct (foldl register ∅ files !! p); [eauto|by destruct Hsome].
Qed.

(** What is reached from the children of a member of [ps] is reached from
    [ps]. *)
Lemma reach_below h ps p q :
  p ∈ ps → reach h (children h p) q → reach h ps q.
Proof.
  intros Hp. induction 1 as [q Hq|x q _ IH Hq].
  - apply (reach_child _ _ p); [by apply reach_here|done].
  - by apply (reach_child _ _ x).
Qed.

(** In a returned tree the node of a record is below the node of every
    record above it in the chain of parents. *)
Lemma names_above_descendant fuel files log t h f g :
  BuildHierarchy fuel files = (log, Some (t, h)) →
  names_above files f g →
  descendant h (StandardsFile.Path g) (StandardsFile.Path f).
Proof.
  intros Hbuild.
  destruct (BuildHierarchy_slices _ _ _ _ _ Hbuild) as (_ & Hkids & _).
  assert (∀ a b, a ∈ files → b ∈ files →
            file_parent a = Some (StandardsFile.Path b) →
            StandardsFile.Path a ∈ children h (StandardsFile.Path b)) as Hchild.
  { intros a b Ha Hb Hab. rewrite Hkids by by apply list_elem_of_fmap_2.
    unfold kids. by apply list_elem_of_fmap_2, list_elem_of_filter. }
  induction 1 as [f g Hf Hg Hfg|f g k Hfg IH Hk Hgk].
  - apply reach_here. by apply Hchild.
  - assert (g ∈ files) as Hg by (destruct Hfg; done).
    apply (reach_below h _ (StandardsFile.Path g)); [by apply Hchild|done].
Qed.

(** C3, amended.  In every tree that [BuildHierarchy] returns, no node
    reached from the roots is its own descendant; and it returns a tree
    whenever the paths of the input records are pairwise different.  In a
    returned tree the node of a record that names the path of a record as
    parent is among the children of the node under that path, so the node
    of a record that names itself is in its own children sequence; and the
    node of a record whose chain of parents comes back to it (it names
    itself, or two records name each other, and so on) is its own
    descendant and is not reached from the roots. *)
Theorem build_forest_acyclic fuel files :
  (∀ log t h,
     BuildHierarchy fuel files = (log, Some (t, h)) →
     (∀ p, reach h (Nodes t) p → ¬ descendant h p p)
     ∧ (∀ f g, f ∈ files → g ∈ files →
               file_parent f = Some (StandardsFile.Path g) →
               StandardsFile.Path f ∈ children h (StandardsFile.Path g))
     ∧ (∀ f, names_above files f f →
             descendant h (StandardsFile.Path f) (StandardsFile.Path f)
             ∧ ¬ reach h (Nodes t) (StandardsFile.Path f)))
  ∧ (NoDup (StandardsFile.Path <$> files) → length files < fuel →
     ∃ t h, (BuildHierarchy fuel files).2 = Some (t, h)).
Proof.
  split; [|apply BuildHierarchy_returns].
  intros log t h Hbuild.
  assert (∀ p, reach h (Nodes t) p → ¬ descendant h p p) as Hacyclic.
  { intros p Hp Hcycle.
    pose proof Hbuild
      as [_ Hsort%sortChildren_perm%mem_perm_sym]%BuildHierarchy_Some.
    destruct Hsort as [Hr Hh]. simpl in *.
    assert ((BuildHierarchy fuel files).2 = None) as Hnone;
      [|by rewrite Hbuild in Hnone].
    apply (BuildHierarchy_cycle fuel files p).
    - by apply (heap_perm_reach h _ (Nodes t)).
    - apply (heap_perm_reach h _ (children h p)); [done| |done].
      by apply heap_perm_children. }
  split; [done|]. split.
  - intros f g Hf Hg Hfg.
    destruct (BuildHierarchy_slices _ _ _ _ _ Hbuild) as (_ & Hkids & _).
    rewrite Hkids by by apply list_elem_of_fmap_2.
    unfold kids. by apply list_elem_of_fmap_2, list_elem_of_filter.
  - intros f Hf.
    pose proof (names_above_descendant _ _ _ _ _ _ _ Hbuild Hf) as Hcycle.
    split; [done|]. intros Hreach. by apply (Hacyclic _ Hreach).
Qed.

End divergence.

(** * Concrete runs *)

#[local] Existing Instance insertion_SortSliceLaws.

(** The runs below sort with [insertion_SortSlice]: the slices have at most
    three members. *)

(** The scenario: the roots are C and A in the order of their titles, B is
    under A, D is under C, and E is nowhere. *)
Example scenario_tree :
  serialise 6 scenario
  = Some (yaml.Map [("nodes", yaml.Seq [
      yaml.Map [
        ("path", yaml.Str "tree/C.md"); ("title", yaml.Str "Docker");
        ("description", yaml.Str "Standards"); ("scope", yaml.Str "*");
        ("topics", yaml.Seq [yaml.Str "x"]);
        ("children", yaml.Seq [
          yaml.Map [
            ("path", yaml.Str "tree/D.md"); ("title", yaml.Str "Compose");
            ("description", yaml.Str "Standards");
            ("scope", yaml.Str "*.go");
            ("topics", yaml.Seq [yaml.Str "golang"]);
            ("children", yaml.Seq [])]])];
      yaml.Map [
        ("path", yaml.Str "tree/A.md"); ("title", yaml.Str "General");
        ("description", yaml.Str "Standards"); ("scope", yaml.Str "*.go");
        ("topics", yaml.Seq [yaml.Str "golang"]);
        ("children", yaml.Seq [
          yaml.Map [
            ("path", yaml.Str "tree/B.md"); ("title", yaml.Str "Workers");
            ("description", yaml.Str "Standards");
            ("scope", yaml.Str "*.go");
            ("topics", yaml.Seq [yaml.Str "golang"]);
            ("children", yaml.Seq [])]])]])]).
Proof. by vm_compute. Qed.

(** [TestBuildHierarchy]: no diagnostic, five nodes in the tree, two of them
    roots. *)
Example test_BuildHierarchy :
  (let '(log, r) := @BuildHierarchy insertion_SortSlice 6 test_files in
   '(t, h) ← r;
   count ← getNodeCount 6 h (Nodes t) 0;
   Some (log, count, Nodes t,
         children h "tests/tmp/golang/GENERAL.md",
         children h "tests/tmp/golang/API.md"))
  = Some ([], 5,
          ["tests/tmp/GENERAL.md"; "tests/tmp/golang/GENERAL.md"],
          ["tests/tmp/golang/API.md"; "tests/tmp/golang/WORKER.md"],
          ["tests/tmp/golang/frameworks/GIN-GONIC.md"]).
Proof. by vm_compute. Qed.

(** C1 fails for duplicate paths: the record [dup_orphan] has a parent that
    no record has as path, the diagnostic is logged, and yet its node (title
    [Orphan]) is a root of the tree, put there by the record [dup_top] of the
    same path. *)
Lemma dangling_duplicate_is_root :
  dup_orphan ∈ [dup_top; dup_orphan]
  ∧ file_parent dup_orphan = Some "docs/MISSING.md"
  ∧ ("docs/MISSING.md" ∉ StandardsFile.Path <$> [dup_top; dup_orphan])
  ∧ @BuildHierarchy insertion_SortSlice 2 [dup_top; dup_orphan]
    = ([dangling_parent "docs/A.md" "docs/MISSING.md"],
       Some ({| Nodes := ["docs/A.md"] |},
             {["docs/A.md" := new_Node dup_orphan]}))
  ∧ StandardsFile.Path dup_orphan ∈ ["docs/A.md"].
Proof.
  split; [set_solver|]. split; [done|]. split; [by_computation|].
  split; [by vm_compute|set_solver].
Qed.

(** C3 fails for a record that names itself as parent: its node is in its
    own children sequence in the state that [BuildHierarchy] returns.  With a
    second record of the same path and no parent, that node is a root as
    well, and [sortChildren] never returns. *)
Lemma self_parent_is_own_child :
  @BuildHierarchy insertion_SortSlice 1 [self_parent]
  = ([], Some ({| Nodes := [] |},
               {["a.md" := Node.with_Children ["a.md"] (new_Node self_parent)]}))
  ∧ "a.md" ∈ children
      {["a.md" := Node.with_Children ["a.md"] (new_Node self_parent)]} "a.md"
  ∧ descendant
      {["a.md" := Node.with_Children ["a.md"] (new_Node self_parent)]}
      "a.md" "a.md"
  ∧ "a.md" ∈ roots (link_all [self_root; self_parent]).1
  ∧ descendant (nodes (link_all [self_root; self_parent]).1) "a.md" "a.md"
  ∧ ∀ fuel,
      (@BuildHierarchy insertion_SortSlice fuel [self_root; self_parent]).2
      = None.
Proof.
  assert (∀ h : gmap string Node.t,
            children h "a.md" = ["a.md"] → descendant h "a.md" "a.md") as Hd.
  { intros h Hh. apply reach_here. rewrite Hh. left. }
  split; [by vm_compute|]. split; [by_computation|].
  split; [by apply Hd; vm_compute|]. split; [by_computation|].
  split; [by apply Hd; vm_compute|].
  intros fuel. apply (BuildHierarchy_cycle fuel _ "a.md").
  - apply reach_here. by_computation.
  - by apply Hd; vm_compute.
Qed.

(** C6 fails for two records with the same title, and for two records with
    the same path: the other input order gives another tree and another
    document.  (For equal titles this is so whatever [sort.Slice] does:
    [tied_roots_follow_input_order].) *)
Lemma input_order_changes_tree :
  [tie_x; tie_y] ≡ₚ [tie_y; tie_x]
  ∧ (@BuildHierarchy insertion_SortSlice 2 [tie_x; tie_y]).2
    ≠ (@BuildHierarchy insertion_SortSlice 2 [tie_y; tie_x]).2
  ∧ is_Some (serialise 2 [tie_x; tie_y])
  ∧ is_Some (serialise 2 [tie_y; tie_x])
  ∧ serialise 2 [tie_x; tie_y] ≠ serialise 2 [tie_y; tie_x]
  ∧ [dup_first; dup_second] ≡ₚ [dup_second; dup_first]
  ∧ is_Some (serialise 2 [dup_first; dup_second])
  ∧ is_Some (serialise 2 [dup_second; dup_first])
  ∧ serialise 2 [dup_first; dup_second] ≠ serialise 2 [dup_second; dup_first].
Proof.
  split; [apply Permutation_swap|]. split; [by vm_compute|].
  split; [by vm_compute; eauto|]. split; [by vm_compute; eauto|].
  split; [by vm_compute|].
  split; [apply Permutation_swap|].
  split; [by vm_compute; eauto|]. split; [by vm_compute; eauto|].
  by vm_compute.
Qed.

Lemma build_prunes_dangling_witness :
  (NoDup (StandardsFile.Path <$> scenario)
   ∧ file_E ∈ scenario
   ∧ file_parent file_E = Some "missing-path"
   ∧ ("missing-path" ∉ StandardsFile.Path <$> scenario)
   ∧ length scenario < 6)
  ∧ ∃ log t h,
      @BuildHierarchy insertion_SortSlice 6 scenario = (log, Some (t, h))
      ∧ dangling_parent (StandardsFile.Path file_E) "missing-path" ∈ log
      ∧ (StandardsFile.Path file_E ∉ Nodes t)
      ∧ (∀ p, StandardsFile.Path file_E ∉ children h p)
      ∧ ¬ reach h (Nodes t) (StandardsFile.Path file_E).
Proof.
  assert (NoDup (StandardsFile.Path <$> scenario)) as Hnd by by_computation.
  assert (file_E ∈ scenario) as Hin by (do 4 right; left).
  assert ("missing-path" ∉ StandardsFile.Path <$> scenario) as Hnin
    by by_computation.
  assert (length scenario < 6) as Hlen by (simpl; lia).
  split; [done|].
  exact (build_prunes_dangling (sorter := insertion_SortSlice) 6 scenario file_E
           "missing-path" Hnd Hin eq_refl Hnin Hlen).
Defined.

Lemma build_siblings_sorted_witness :
  ∃ log t h,
    @BuildHierarchy insertion_SortSlice 6 scenario = (log, Some (t, h))
    ∧ sorted_by_title h (Nodes t)
    ∧ (∀ q, reach h (Nodes t) q → sorted_by_title h (children h q))
    ∧ mem_perm (link_all scenario).1 {| roots := Nodes t; nodes := h |}.
Proof.
  destruct (@BuildHierarchy insertion_SortSlice 6 scenario)
    as [log [[t h]|]] eqn:Hbuild; [|by vm_compute in Hbuild].
  exists log, t, h. split; [done|].
  exact (build_siblings_sorted (sorter := insertion_SortSlice) 6 scenario log t h Hbuild).
Defined.

Lemma build_forest_acyclic_witness :
  ((NoDup (StandardsFile.Path <$> scenario) ∧ length scenario < 6)
   ∧ ∃ log t h,
       @BuildHierarchy insertion_SortSlice 6 scenario = (log, Some (t, h))
       ∧ ∀ p, reach h (Nodes t) p → ¬ descendant h p p)
  ∧ (names_above [cycle_a; cycle_b] cycle_a cycle_a
     ∧ ∃ log t h,
         @BuildHierarchy insertion_SortSlice 1 [cycle_a; cycle_b]
         = (log, Some (t, h))
         ∧ StandardsFile.Path cycle_a ∈ children h (StandardsFile.Path cycle_b)
         ∧ descendant h (StandardsFile.Path cycle_a) (StandardsFile.Path cycle_a)
         ∧ ¬ reach h (Nodes t) (StandardsFile.Path cycle_a)).
Proof.
  assert (NoDup (StandardsFile.Path <$> scenario)) as Hnd by by_computation.
  assert (length scenario < 6) as Hlen by (simpl; lia).
  assert (cycle_a ∈ [cycle_a; cycle_b]) as Ha by left.
  assert (cycle_b ∈ [cycle_a; cycle_b]) as Hb by (right; left).
  assert (names_above [cycle_a; cycle_b] cycle_a cycle_a) as Hcycle.
  { apply (names_further _ cycle_a cycle_b cycle_a); [|done|done].
    by apply names_parent. }
  split.
  - split; [done|].
    destruct (build_forest_acyclic (sorter := insertion_SortSlice) 6 scenario)
      as [Htree Hreturns].
    destruct (Hreturns Hnd Hlen) as (t & h & Hth).
    destruct (@BuildHierarchy insertion_SortSlice 6 scenario) as [log r].
    simpl in Hth. subst r. exists log, t, h. split; [done|].
    exact (proj1 (Htree log t h eq_refl)).
  - split; [done|].
    destruct (@BuildHierarchy insertion_SortSlice 1 [cycle_a; cycle_b])
      as [log [[t h]|]] eqn:Hbuild; [|by vm_compute in Hbuild].
    exists log, t, h. split; [done|].
    destruct (proj1 (build_forest_acyclic (sorter := insertion_SortSlice) 1
                       [cycle_a; cycle_b]) log t h Hbuild)
      as (_ & Hchild & Hown).
    split; [exact (Hchild cycle_a cycle_b Ha Hb eq_refl)|].
    exact (Hown cycle_a Hcycle).
Defined.

Lemma extract_parse_error_propagates_witness :
  (os_ReadFile example_env "bad/BAD.md" = inr doc_BAD
   ∧ frontmatter_Parse example_env doc_BAD
     = FmError "yaml: line 1: did not find expected ',' or ']'")
  ∧ ExtractMDHeader example_env "bad/BAD.md"
    = (None, Some "yaml: line 1: did not find expected ',' or ']'")
  ∧ ExtractMDHeader example_env "bad/BAD.md" ≠ (None, None).
Proof.
  split; [by split|].
  exact (extract_parse_error_propagates example_env "bad/BAD.md" doc_BAD
           "yaml: line 1: did not find expected ',' or ']'" eq_refl eq_refl).
Defined.

Lemma extract_accepts_empty_topics_witness :
  (os_ReadFile example_env "tree/A.md" = inr doc_A
   ∧ frontmatter_Parse example_env doc_A = FmDecoded header_A
   ∧ StandardsHeader.Title header_A ≠ ""
   ∧ StandardsHeader.Description header_A ≠ ""
   ∧ StandardsHeader.Scope header_A ≠ ""
   ∧ StandardsHeader.Topics header_A = Some [])
  ∧ ExtractMDHeader example_env "tree/A.md" = (Some header_A, None).
Proof.
  assert (StandardsHeader.Title header_A ≠ "") as Ht by (simpl; congruence).
  assert (StandardsHeader.Description header_A ≠ "") as Hd
    by (simpl; congruence).
  assert (StandardsHeader.Scope header_A ≠ "") as Hs by (simpl; congruence).
  split; [by repeat split|].
  exact (extract_accepts_empty_topics example_env "tree/A.md" doc_A header_A
           eq_refl eq_refl Ht Hd Hs eq_refl).
Defined.

Lemma scenario_distinct_sibling_titles : distinct_sibling_titles scenario.
Proof.
  intros f g Hf Hg.
  repeat (apply elem_of_cons in Hf as [->|Hf]);
    [..|by apply elem_of_nil in Hf];
    (repeat (apply elem_of_cons in Hg as [->|Hg]);
     [..|by apply elem_of_nil in Hg]); by vm_compute.
Qed.

Lemma build_order_independent_witness :
  (NoDup (StandardsFile.Path <$> scenario)
   ∧ distinct_sibling_titles scenario
   ∧ scenario ≡ₚ rev scenario
   ∧ length scenario < 6 ∧ length scenario < 7 ∧ length scenario < 8)
  ∧ ∃ t h h' y,
      (@BuildHierarchy insertion_SortSlice 6 scenario).2 = Some (t, h)
      ∧ (@BuildHierarchy insertion_SortSlice 7 (rev scenario)).2 = Some (t, h')
      ∧ (∀ q, reach h (Nodes t) q → h !! q = h' !! q)
      ∧ yaml.Marshal 8 t h = Some y
      ∧ yaml.Marshal 8 t h' = Some y.
Proof.
  assert (NoDup (StandardsFile.Path <$> scenario)) as Hnd by by_computation.
  assert (length scenario < 6) as H6 by (simpl; lia).
  assert (length scenario < 7) as H7 by (simpl; lia).
  assert (length scenario < 8) as H8 by (simpl; lia).
  pose proof scenario_distinct_sibling_titles as Hdist.
  pose proof (Permutation_rev scenario) as Hperm.
  split; [done|].
  exact (build_order_independent (sorter := insertion_SortSlice) 6 7 8 scenario
           (rev scenario) Hnd Hdist Hperm H6 H7 H8).
Defined.

Lemma parent_joined_to_root_witness :
  (StandardsFile.mk "tree/A.md"
     (StandardsHeader.with_Parent (Some "tree/sub/OTHER.md") header_A)
   ∈ (ParseMDDocuments example_env "tree").1.1
   ∧ StandardsFile.mk "tree/sub/OTHER.md" header_OTHER
     ∈ (ParseMDDocuments example_env "tree").1.1)
  ∧ (∃ header declared,
        ExtractMDHeader example_env "tree/A.md" = (Some header, None)
        ∧ StandardsHeader.Parent header = Some declared
        ∧ "tree/sub/OTHER.md" = path.Join ["tree"; declared])
  ∧ path.Join ["tree"; "sub/OTHER.md"] = "tree/sub/OTHER.md".
Proof.
  assert ((ParseMDDocuments example_env "tree").1.1
          = [StandardsFile.mk "tree/A.md"
               (StandardsHeader.with_Parent (Some "tree/sub/OTHER.md") header_A);
             StandardsFile.mk "tree/sub/OTHER.md" header_OTHER]) as Hrun
    by by vm_compute.
  assert (StandardsFile.mk "tree/A.md"
            (StandardsHeader.with_Parent (Some "tree/sub/OTHER.md") header_A)
          ∈ (ParseMDDocuments example_env "tree").1.1) as Hin
    by (rewrite Hrun; left).
  split; [split; [done|rewrite Hrun; right; left]|].
  exact (parent_joined_to_root example_env "tree" _ "tree/sub/OTHER.md"
           Hin eq_refl).
Defined.

Lemma serialised_node_fields_witness :
  ∃ data,
    @GenerateStandardsTree insertion_SortSlice 4 clone_env ".stdidx"
    = Some (Wrote "standards-tree.yaml" data)
    ∧ (∃ t h ns,
         (@BuildHierarchy insertion_SortSlice 4
            (ParseMDDocuments clone_env ".stdidx").1.1).2 = Some (t, h)
         ∧ data = yaml.Map [("nodes", yaml.Seq ns)]
         ∧ Forall2 (node_doc h) (Nodes t) ns
         ∧ Forall node_shape ns
         ∧ Nodes t = [".stdidx/go.md"; ".stdidx/core.md"]
         ∧ children h ".stdidx/go.md"
           = [".stdidx/go/cli.md"; ".stdidx/go/api.md"])
    ∧ "parent" ∉ all_keys data.
Proof.
  destruct (@GenerateStandardsTree insertion_SortSlice 4 clone_env ".stdidx")
    as [[err|file data]|] eqn:Hrun; [by vm_compute in Hrun| |by vm_compute in Hrun].
  destruct (serialised_node_fields (sorter := insertion_SortSlice) 4 clone_env
              ".stdidx" file data Hrun)
    as (Hfile & (t & h & ns & Hbuild & Hdata & Hdoc & Hshape) & Hkeys).
  assert ((λ '(t, h), (Nodes t, children h ".stdidx/go.md"))
            <$> (@BuildHierarchy insertion_SortSlice 4
                   (ParseMDDocuments clone_env ".stdidx").1.1).2
          = Some ([".stdidx/go.md"; ".stdidx/core.md"],
                  [".stdidx/go/cli.md"; ".stdidx/go/api.md"])) as Hsummary
    by by vm_compute.
  rewrite Hbuild in Hsummary. injection Hsummary as Hroots Hchildren.
  exists data. rewrite Hfile. split; [reflexivity|]. split; [|assumption].
  exists t, h, ns. repeat split; assumption.
Defined.

Lemma duplicate_path_node_twice_witness :
  @BuildHierarchy insertion_SortSlice 2 [dup_first; dup_second]
  = ([], Some ({| Nodes := ["docs/A.md"; "docs/A.md"] |},
               {["docs/A.md" := new_Node dup_second]}))
  ∧ NoDup (StandardsFile.Path <$> scenario)
  ∧ ∃ log t h,
      @BuildHierarchy insertion_SortSlice 6 scenario = (log, Some (t, h))
      ∧ NoDup (Nodes t)
      ∧ (∀ p, NoDup (children h p))
      ∧ (∀ p q, q ∈ children h p → q ∉ Nodes t)
      ∧ (∀ p p' q, q ∈ children h p → q ∈ children h p' → p = p').
Proof.
  assert (NoDup (StandardsFile.Path <$> scenario)) as Hnd by by_computation.
  destruct (duplicate_path_node_twice (sorter := insertion_SortSlice) 0)
    as (_ & _ & _ & Hdup & Hunique).
  split; [done|]. split; [done|].
  destruct (@BuildHierarchy insertion_SortSlice 6 scenario)
    as [log [[t h]|]] eqn:Hbuild; [|by vm_compute in Hbuild].
  exists log, t, h. split; [done|].
  exact (Hunique scenario 6 log t h Hnd Hbuild).
Defined.

Lemma mutual_parents_unreachable_witness :
  ∃ h,
    @BuildHierarchy insertion_SortSlice 1 [cycle_a; cycle_b]
    = ([], Some ({| Nodes := [] |}, h))
    ∧ children h "a.md" = ["b.md"]
    ∧ children h "b.md" = ["a.md"]
    ∧ ∀ q, ¬ reach h [] q.
Proof.
  exact (proj2 (proj2 (mutual_parents_unreachable (sorter := insertion_SortSlice) 0))).
Defined.

(** * Further properties *)

(** ** More on [BuildHierarchy] *)

Lemma register_foldl_last l1 f l2 :
  StandardsFile.Path f ∉ StandardsFile.Path <$> l2 →
  foldl register ∅ (l1 ++ f :: l2) !! StandardsFile.Path f
  = Some (new_Node f).
Proof.
  intros Hl2. rewrite foldl_app. cbn [foldl].
  rewrite register_foldl_other by done. unfold register.
  by rewrite lookup_insert_eq.
Qed.

Lemma dangling_diagnostic_of files f :
  dangling (foldl register ∅ files) f = diagnostic_of files f.
Proof.
  unfold dangling, diagnostic_of. destruct (file_parent f) as [pp|]; [|done].
  case_decide as Hpp.
  - apply register_foldl_dom in Hpp as [n ->]. done.
  - destruct (foldl register ∅ files !! pp) eqn:Hl; [|done].
    destruct Hpp. apply register_foldl_dom. eauto.
Qed.

(** The diagnostics of the linking loop, record by record. *)
Lemma link_all_log files :
  (link_all files).2 = omap (diagnostic_of files) files.
Proof.
  destruct (link_all_spec files) as (_ & _ & ->).
  generalize files at 2 4. intros l.
  induction l as [|x l IH]; [done|].
  csimpl. by rewrite dangling_diagnostic_of, IH.
Qed.

Lemma omap_None_all {A B} (g : A → option B) (l : list A) :
  Forall (λ x, g x = None) l → omap g l = [].
Proof. induction 1 as [|x l Hx _ IH]; [done|]. csimpl. by rewrite Hx. Qed.

Lemma at_depth_is_Some h d q : at_depth h d q → is_Some (h !! q).
Proof.
  intros Hd. assert (is_Some (parent_of h q)) as [x Hx]
    by (destruct Hd; eauto).
  unfold parent_of in Hx. destruct (h !! q); [eauto|done].
Qed.

Lemma resolves_at_depth files h f :
  (∀ g, g ∈ files →
        parent_of h (StandardsFile.Path g) = Some (file_parent g)) →
  resolves files f → ∃ d, at_depth h d (StandardsFile.Path f).
Proof.
  intros Hpar. induction 1 as [f Hf Htop|f g Hf Hg Hchild _ [d IH]].
  - exists 0. apply depth_root. by rewrite Hpar, Htop.
  - exists (S d). apply (depth_child _ _ (StandardsFile.Path g)); [|done].
    by rewrite Hpar, Hchild.
Qed.

Section more_build.
Context {sorter : SortSlice} {sorter_laws : SortSliceLaws sorter}.

(** In the tree of records with pairwise different paths, every node has
    the parent that its record names. *)
Lemma BuildHierarchy_parent_of fuel files log t h f :
  NoDup (StandardsFile.Path <$> files) →
  BuildHierarchy fuel files = (log, Some (t, h)) →
  f ∈ files →
  parent_of h (StandardsFile.Path f) = Some (file_parent f).
Proof.
  intros Hnd [_ Hsort%sortChildren_perm]%BuildHierarchy_Some Hf.
  rewrite <-(heap_perm_parent_of _ h _ (proj2 Hsort)).
  by apply link_all_parent_of.
Qed.

Lemma BuildHierarchy_reach_chain fuel files log t h q :
  NoDup (StandardsFile.Path <$> files) →
  BuildHierarchy fuel files = (log, Some (t, h)) →
  reach h (Nodes t) q ↔ ∃ d, at_depth h d q.
Proof.
  intros Hnd Hbuild.
  destruct (BuildHierarchy_slices _ _ _ _ _ Hbuild) as (Hroots & Hkids & Hnone).
  pose proof Hbuild as [_ Hsort%sortChildren_perm]%BuildHierarchy_Some.
  pose proof (consistent_perm _ _ Hsort (link_all_consistent files Hnd)) as Hm.
  assert (∀ p, is_Some (h !! p) →
    ∃ f, f ∈ files ∧ StandardsFile.Path f = p
         ∧ parent_of h p = Some (file_parent f)) as Hreg.
  { intros p Hp. destruct (decide (p ∈ StandardsFile.Path <$> files)) as [Hin|Hnin].
    - apply list_elem_of_fmap in Hin as (f & -> & Hf). exists f.
      split; [done|]. split; [done|].
      by apply (BuildHierarchy_parent_of fuel files log t).
    - rewrite Hnone in Hp by done. by destruct Hp. }
  split.
  - intros Hreach.
    destruct (reach_at_depth {| roots := Nodes t; nodes := h |} (Nodes t) 0 q Hm)
      as [k Hk]; [|done|by exists k].
    intros x Hx. apply depth_root. by apply Hm.
  - intros [d Hd]. induction Hd as [q Hq|d p q Hq Hp IH].
    + apply reach_here. rewrite Hroots.
      destruct (Hreg q) as (f & Hf & <- & Hpar).
      { unfold parent_of in Hq. destruct (h !! q); [eauto|done]. }
      unfold tops. apply list_elem_of_fmap_2, list_elem_of_filter.
      split; [congruence|done].
    + apply (reach_child _ _ p); [done|].
      destruct (Hreg q) as (f & Hf & <- & Hpar).
      { unfold parent_of in Hq. destruct (h !! q); [eauto|done]. }
      destruct (Hreg p) as (g & Hg & <- & _); [by eapply at_depth_is_Some|].
      rewrite Hkids by by apply list_elem_of_fmap_2.
      unfold kids. apply list_elem_of_fmap_2, list_elem_of_filter.
      split; [congruence|done].
Qed.

(** X1.  The tree that [BuildHierarchy] returns is made of the records and
    nothing else: its roots are the paths of the records without parent,
    the node map has a node exactly under the paths of the records, and the
    children of a node are the paths of the records that name its path as
    parent; each sequence up to its order. *)
Theorem build_slices_exact fuel files log t h :
  BuildHierarchy fuel files = (log, Some (t, h)) →
  Nodes t ≡ₚ tops files
  ∧ (∀ p, is_Some (h !! p) ↔ p ∈ StandardsFile.Path <$> files)
  ∧ (∀ p, p ∈ StandardsFile.Path <$> files → children h p ≡ₚ kids files p).
Proof.
  intros Hbuild.
  destruct (BuildHierarchy_slices _ _ _ _ _ Hbuild) as (Hroots & Hkids & Hnone).
  split; [done|]. split; [|done].
  intros p. split.
  - intros Hp. destruct (decide (p ∈ StandardsFile.Path <$> files)); [done|].
    rewrite Hnone in Hp by done. by destruct Hp.
  - intros Hp. apply BuildHierarchy_Some in Hbuild
      as [_ [_ Hh]%sortChildren_perm].
    apply (heap_perm_is_Some _ _ _ Hh).
    destruct (link_all_spec files) as (_ & -> & _).
    apply register_foldl_dom in Hp as [n ->]. simpl. eauto.
Qed.

(** X2.  The diagnostics that [BuildHierarchy] logs are those of the
    records whose parent is the path of no record, one for each such record
    and in the order of the input, whether or not the sort returns. *)
Theorem build_diagnostics_exact fuel files :
  (BuildHierarchy fuel files).1 = omap (diagnostic_of files) files.
Proof.
  rewrite <-link_all_log. unfold BuildHierarchy.
  by destruct (link_all files).
Qed.

(** X3.  Of several records with the same path, the last one makes the
    node: the node under a path has the fields of the last record of that
    path. *)
Theorem build_last_record_wins fuel l1 f l2 log t h :
  BuildHierarchy fuel (l1 ++ f :: l2) = (log, Some (t, h)) →
  StandardsFile.Path f ∉ StandardsFile.Path <$> l2 →
  ∃ n, h !! StandardsFile.Path f = Some n
       ∧ Node.with_Children [] n = new_Node f.
Proof.
  intros [_ Hsort%sortChildren_perm]%BuildHierarchy_Some Hl2.
  destruct Hsort as [_ Hh]. simpl in *.
  destruct (link_all_spec (l1 ++ f :: l2)) as (_ & Hnodes & _).
  destruct (heap_perm_lookup _ _ (StandardsFile.Path f) Hh)
    as [[Hnone _]|(n0 & n & Hn0 & Hn & Heq & _)].
  - by rewrite Hnodes, register_foldl_last in Hnone.
  - exists n. split; [done|]. rewrite <-Heq.
    rewrite Hnodes, register_foldl_last in Hn0 by done.
    by injection Hn0 as <-.
Qed.

(** X4.  For records without any parent, [BuildHierarchy] returns after
    two nested calls of [sortChildren], logs nothing, and the tree is flat:
    every record is a root and no node has children. *)
Theorem build_flat fuel files :
  Forall (λ f, file_parent f = None) files →
  ∃ t h,
    BuildHierarchy (S (S fuel)) files = ([], Some (t, h))
    ∧ Nodes t ≡ₚ StandardsFile.Path <$> files
    ∧ ∀ p, children h p = [].
Proof.
  intros Hflat.
  assert (∀ p, kids files p = []) as Hkids.
  { rewrite Forall_forall in Hflat.
    intros p. unfold kids. destruct (filter _ files) as [|f k] eqn:Hf; [done|].
    assert (f ∈ filter (λ f, file_parent f = Some p) files) as Hin
      by (rewrite Hf; left).
    apply list_elem_of_filter in Hin as [Hp Hin]. by rewrite Hflat in Hp. }
  assert (tops files = StandardsFile.Path <$> files) as Htops.
  { unfold tops. f_equal. clear Hkids.
    induction Hflat as [|f fs Hf _ IH]; [done|].
    by rewrite filter_cons, decide_True, IH by done. }
  assert ((link_all files).2 = []) as Hlog.
  { rewrite link_all_log. apply omap_None_all.
    eapply Forall_impl; [exact Hflat|]. intros f Hf.
    unfold diagnostic_of. by rewrite Hf. }
  unfold BuildHierarchy in *.
  destruct (link_all_spec files) as (Hroots & Hnodes & _).
  destruct (link_all files) as [m log]. cbn [fst snd] in *.
  assert (∀ p, children (nodes m) p = []) as Hleaves.
  { intros p. unfold children. rewrite Hnodes, Hkids.
    by destruct (foldl register ∅ files !! p). }
  rewrite sortChildren_root_leaves by (intros; apply Hleaves).
  eexists _, _. split; [|split; [|exact Hleaves]].
  - simpl. by rewrite Hlog.
  - simpl. by rewrite sort_Slice_perm, Hroots, Htops.
Qed.

(** X5.  When the paths of the records are pairwise different, the nodes
    of the tree are those of the records whose chain of parents ends at a
    record without parent: such a record is reached from the roots, and no
    other record is. *)
Theorem build_reach_iff_resolves fuel files log t h f :
  NoDup (StandardsFile.Path <$> files) →
  BuildHierarchy fuel files = (log, Some (t, h)) →
  f ∈ files →
  reach h (Nodes t) (StandardsFile.Path f) ↔ resolves files f.
Proof.
  intros Hnd Hbuild Hf.
  rewrite (BuildHierarchy_reach_chain _ _ _ _ _ _ Hnd Hbuild).
  destruct (BuildHierarchy_slices _ _ _ _ _ Hbuild) as (_ & _ & Hnone).
  split.
  - intros [d Hd]. revert f Hf Hd.
    induction d as [|d IH]; intros f Hf Hd.
    + inversion Hd as [? Hq|]; subst.
      rewrite (BuildHierarchy_parent_of _ _ _ _ _ f Hnd Hbuild Hf) in Hq.
      apply resolves_top; [done|congruence].
    + inversion Hd as [|? p ? Hq Hp]; subst.
      rewrite (BuildHierarchy_parent_of _ _ _ _ _ f Hnd Hbuild Hf) in Hq.
      assert (p ∈ StandardsFile.Path <$> files) as Hin.
      { destruct (decide (p ∈ StandardsFile.Path <$> files)); [done|].
        apply at_depth_is_Some in Hp. rewrite Hnone in Hp by done.
        by destruct Hp. }
      apply list_elem_of_fmap in Hin as (g & -> & Hg).
      apply (resolves_child _ f g); [done|done|congruence|by apply IH].
  - apply resolves_at_depth. intros g Hg.
    by apply (BuildHierarchy_parent_of fuel files log t).
Qed.

(** X6.  A record below a record with a dangling parent is dropped without
    a diagnostic of its own: when the paths are pairwise different, [f]
    names [g] as parent and the parent of [g] is the path of no record, the
    node of [f] is a child of the node of [g], is not reached from the
    roots, and no diagnostic has the path of [f] in its [path] field. *)
Theorem build_drops_below_dangling fuel files f g pp log t h :
  NoDup (StandardsFile.Path <$> files) →
  f ∈ files → g ∈ files →
  file_parent f = Some (StandardsFile.Path g) →
  file_parent g = Some pp →
  pp ∉ StandardsFile.Path <$> files →
  BuildHierarchy fuel files = (log, Some (t, h)) →
  ¬ reach h (Nodes t) (StandardsFile.Path f)
  ∧ StandardsFile.Path f ∈ children h (StandardsFile.Path g)
  ∧ ∀ e, e ∈ log → ("path", StandardsFile.Path f) ∉ log_fields e.
Proof.
  intros Hnd Hf Hg Hfg Hgp Hpp Hbuild.
  pose proof (BuildHierarchy_reach_chain _ _ _ _ _ (StandardsFile.Path f)
                Hnd Hbuild) as Hiff.
  destruct (BuildHierarchy_slices _ _ _ _ _ Hbuild) as (_ & Hkids & Hnone).
  pose proof (λ x, BuildHierarchy_parent_of _ _ _ _ _ x Hnd Hbuild) as Hpar.
  split; [|split].
  - intros [d Hd]%Hiff.
    inversion Hd as [? Hq|d1 p ? Hq Hp]; simplify_eq;
      rewrite Hpar, Hfg in Hq by done; simplify_eq.
    inversion Hp as [? Hq'|d2 p' ? Hq' Hp']; simplify_eq;
      rewrite Hpar, Hgp in Hq' by done; simplify_eq.
    apply at_depth_is_Some in Hp'. rewrite Hnone in Hp' by done.
    by destruct Hp'.
  - rewrite Hkids by by apply list_elem_of_fmap_2.
    unfold kids. apply list_elem_of_fmap_2, list_elem_of_filter. done.
  - intros e He.
    apply BuildHierarchy_Some in Hbuild as [Hlog _].
    rewrite Hlog, link_all_log in He.
    apply list_elem_of_omap in He as (x & Hx & Hdiag).
    unfold diagnostic_of in Hdiag.
    destruct (file_parent x) as [px|] eqn:Hxp; [|done].
    case_decide as Hpx; [done|]. injection Hdiag as <-.
    destruct (decide (StandardsFile.Path x = StandardsFile.Path f)) as [Heq|Hne].
    + assert (Some (file_parent x) = Some (file_parent f)) as Hsame
        by (rewrite <-!Hpar by done; by rewrite Heq).
      rewrite Hxp, Hfg in Hsame. simplify_eq.
      destruct Hpx. by apply list_elem_of_fmap_2.
    + simpl. rewrite !not_elem_of_cons. split; [congruence|].
      split; [congruence|apply not_elem_of_nil].
Qed.

End more_build.

(** ** Counting the nodes *)

Lemma foldl_bind_fmap {A A' B} (f : B → A → option A) (g : B → A' → option A')
    (φ : A → A') (l : list B) (a : option A) :
  (∀ x m, x ∈ l → g x (φ m) = φ <$> f x m) →
  foldl (λ acc x, m ← acc; g x m) (φ <$> a) l
  = φ <$> foldl (λ acc x, m ← acc; f x m) a l.
Proof.
  revert a. induction l as [|x l IH]; intros a Hfg; [done|].
  cbn [foldl]. rewrite <-IH by (intros ???; apply Hfg; by right).
  f_equal. destruct a as [m|]; [|done]. cbn. apply Hfg. left.
Qed.

Lemma getNodeCount_preorder fuel h ps count :
  getNodeCount fuel h ps count
  = (λ l, count + length l) <$> preorder fuel h ps.
Proof.
  revert ps count. induction fuel as [|fuel IH]; intros ps count; [done|].
  cbn [getNodeCount preorder].
  rewrite <-(foldl_bind_fmap
    (λ p l, l' ← preorder fuel h (children h p); Some (l ++ p :: l'))
    (λ p c, getNodeCount fuel h (children h p) (S c))).
  { cbn. by rewrite Nat.add_0_r. }
  intros p l _. rewrite IH.
  destruct (preorder fuel h (children h p)) as [l'|]; [|done]. cbn.
  f_equal. rewrite length_app. cbn. lia.
Qed.

Lemma reach_cons h p ps q :
  reach h (p :: ps) q ↔ q = p ∨ reach h (children h p) q ∨ reach h ps q.
Proof.
  split.
  - induction 1 as [q [->|Hq]%elem_of_cons|x q _ IH Hq].
    + by left.
    + right. right. by apply reach_here.
    + destruct IH as [->|[IH|IH]].
      * right. left. by apply reach_here.
      * right. left. by apply (reach_child _ _ x).
      * right. right. by apply (reach_child _ _ x).
  - intros [->|[Hq|Hq]].
    + apply reach_here. left.
    + induction Hq as [q Hq|x q _ IH Hq].
      * apply (reach_child _ _ p); [apply reach_here; left|done].
      * by apply (reach_child _ _ x).
    + eapply reach_mono; [|done]. intros x ?. by right.
Qed.

Lemma preorder_elem fuel h ps l q :
  preorder fuel h ps = Some l → q ∈ l ↔ reach h ps q.
Proof.
  revert ps l q. induction fuel as [|fuel IH]; intros ps l q; [done|].
  cbn [preorder].
  assert (∀ l0, foldl (λ acc p, l ← acc;
                         (l' ← preorder fuel h (children h p);
                          Some (l ++ p :: l'))) (Some l0) ps = Some l →
                q ∈ l ↔ q ∈ l0 ∨ reach h ps q) as Hfold.
  { clear -IH. induction ps as [|p ps IHps]; intros l0; cbn [foldl].
    - intros [= <-]. split; [by left|].
      intros [?|?%reach_nil]; done.
    - cbn. destruct (preorder fuel h (children h p)) as [l'|] eqn:Hl'.
      2:{ cbn. by rewrite (foldl_bind_None
            (λ p l, l' ← preorder fuel h (children h p); Some (l ++ p :: l'))). }
      cbn. intros Hrest%IHps. rewrite Hrest, reach_cons, elem_of_app,
        elem_of_cons, (IH _ _ _ Hl'). tauto. }
  intros Hl%Hfold. rewrite Hl, elem_of_nil. tauto.
Qed.

Lemma at_depth_reach_self m d p q :
  consistent m → at_depth (nodes m) d p → at_depth (nodes m) d q →
  reach (nodes m) [p] q → q = p.
Proof.
  intros Hm Hp Hq. inversion 1 as [? Hin|x ? Hx Hin]; subst.
  { by apply list_elem_of_singleton in Hin. }
  destruct (reach_at_depth m [p] d x Hm) as [k Hk]; [|done|].
  { by intros ? ->%list_elem_of_singleton. }
  assert (at_depth (nodes m) (S (d + k)) q) as Hq'.
  { apply (depth_child _ _ x); [by apply Hm|done]. }
  pose proof (at_depth_unique _ _ _ _ Hq Hq'). lia.
Qed.

(** Two nodes of the same depth have no node below both. *)
Lemma subtree_disjoint m d k p p' q :
  consistent m →
  at_depth (nodes m) d p → at_depth (nodes m) d p' →
  at_depth (nodes m) (d + k) q →
  reach (nodes m) [p] q → reach (nodes m) [p'] q → p = p'.
Proof.
  intros Hm Hp Hp'. revert q.
  induction k as [|k IH]; intros q Hq Hr Hr'.
  { rewrite Nat.add_0_r in Hq.
    rewrite <-(at_depth_reach_self m d p q), <-(at_depth_reach_self m d p' q);
      done. }
  assert (∀ p0, at_depth (nodes m) d p0 → reach (nodes m) [p0] q →
    ∃ x, parent_of (nodes m) q = Some (Some x) ∧ reach (nodes m) [p0] x)
    as Hup.
  { intros p0 Hp0. inversion 1 as [? Hin|x ? Hx Hin]; subst.
    - apply list_elem_of_singleton in Hin as ->.
      pose proof (at_depth_unique _ _ _ _ Hq Hp0). lia.
    - exists x. split; [by apply Hm|done]. }
  destruct (Hup p Hp Hr) as (x & Hx & Hrx).
  destruct (Hup p' Hp' Hr') as (x' & Hx' & Hrx').
  assert (x' = x) as -> by congruence.
  apply (IH x); [|done..].
  rewrite Nat.add_succ_r in Hq.
  inversion Hq as [|? y ? Hy Hdy]; subst. by assert (y = x) as -> by congruence.
Qed.

Lemma preorder_NoDup fuel m d ps l :
  consistent m →
  (∀ s, NoDup (read_slice s m)) →
  (∀ p, p ∈ ps → at_depth (nodes m) d p) → NoDup ps →
  preorder fuel (nodes m) ps = Some l → NoDup l.
Proof.
  intros Hm Hslices. revert d ps l.
  induction fuel as [|fuel IH]; intros d ps l; [done|].
  cbn [preorder]. intros Hps Hnd.
  assert (∀ l0, NoDup l0 →
            (∀ q p, q ∈ l0 → p ∈ ps → ¬ reach (nodes m) [p] q) →
            foldl (λ acc p, l ← acc;
                     (l' ← preorder fuel (nodes m) (children (nodes m) p);
                      Some (l ++ p :: l'))) (Some l0) ps = Some l →
            NoDup l) as Hfold.
  2:{ apply Hfold; [constructor|]. by intros ?? ?%elem_of_nil. }
  induction ps as [|p ps IHps]; intros l0 Hl0 Hsep; cbn [foldl].
  { by intros [= <-]. }
  cbn. destruct (preorder fuel (nodes m) (children (nodes m) p)) as [l'|]
    eqn:Hl'.
  2:{ cbn. by rewrite (foldl_bind_None
        (λ p l, l' ← preorder fuel (nodes m) (children (nodes m) p);
                Some (l ++ p :: l'))). }
  cbn. apply NoDup_cons in Hnd as [Hp Hnd].
  assert (at_depth (nodes m) d p) as Hdp by (apply Hps; left).
  assert (∀ q, q ∈ p :: l' → reach (nodes m) [p] q) as Hbelow.
  { intros q [->|Hq]%elem_of_cons; [apply reach_here; left|].
    apply (preorder_elem _ _ _ _ q) in Hl'. apply Hl' in Hq.
    apply reach_cons. auto. }
  apply IHps; [intros; apply Hps; by right|done| |].
  - apply NoDup_app. split; [done|]. split.
    + intros q Hq Hq'. apply (Hsep q p Hq); [left|by apply Hbelow].
    + apply NoDup_cons. split.
      * intros Hin. apply (preorder_elem _ _ _ _ p) in Hl'. apply Hl' in Hin.
        destruct (reach_at_depth m (children (nodes m) p) (S d) p Hm)
          as [k Hk]; [|done|].
        { intros x Hx. apply (depth_child _ _ p); [by apply Hm|done]. }
        pose proof (at_depth_unique _ _ _ _ Hdp Hk). lia.
      * apply (IH (S d) _ _) in Hl'; [done| |].
        -- intros x Hx. apply (depth_child _ _ p); [by apply Hm|done].
        -- apply (Hslices (ChildrenSlice p)).
  - intros q p' [Hq|Hq]%elem_of_app Hp' Hr.
    + apply (Hsep q p' Hq); [by right|done].
    + apply Hbelow in Hq.
      destruct (reach_at_depth m [p] d q Hm) as [k Hk]; [|done|].
      { by intros ? ->%list_elem_of_singleton. }
      assert (p = p') as ->; [|done].
      apply (subtree_disjoint m d k p p' q); try done.
      apply Hps. by right.
Qed.

Lemma preorder_terminates fuel m d ps :
  consistent m →
  (∀ p, p ∈ ps → at_depth (nodes m) d p) →
  d ≤ size (nodes m) → size (nodes m) < fuel + d →
  is_Some (preorder fuel (nodes m) ps).
Proof.
  intros Hm. revert d ps.
  induction fuel as [|fuel IH]; intros d ps Hps Hd Hfuel; [lia|].
  cbn [preorder].
  destruct (foldl_bind_is_Some
    (λ p l, l' ← preorder fuel (nodes m) (children (nodes m) p);
            Some (l ++ p :: l')) (λ _, True) ps []) as (l & -> & _);
    [done| |eauto].
  intros p l Hp _.
  pose proof (at_depth_lt_size _ _ _ (Hps p Hp)).
  destruct (IH (S d) (children (nodes m) p)) as [l' ->];
    [|lia|lia|cbn; eauto].
  intros x Hx. apply (depth_child _ _ p); [by apply Hm|by apply Hps].
Qed.

Section counting.
Context {sorter : SortSlice} {sorter_laws : SortSliceLaws sorter}.

(** X7.  When the paths of the records are pairwise different and the
    chain of parents of every record ends at a record without parent, the
    tree holds one node for each record: [getNodeCount] returns the number
    of records, the nodes it counts are the paths of the records, each once,
    and nothing is logged. *)
Theorem build_counts_every_record fuel fuel' files log t h :
  NoDup (StandardsFile.Path <$> files) →
  Forall (resolves files) files →
  BuildHierarchy fuel files = (log, Some (t, h)) →
  length files < fuel' →
  getNodeCount fuel' h (Nodes t) 0 = Some (length files)
  ∧ (∃ l, preorder fuel' h (Nodes t) = Some l
          ∧ l ≡ₚ StandardsFile.Path <$> files)
  ∧ log = [].
Proof.
  intros Hnd Hall Hbuild Hfuel.
  destruct (BuildHierarchy_slices _ _ _ _ _ Hbuild) as (Hroots & Hkids & Hnone).
  pose proof Hbuild as [Hlog Hsort%sortChildren_perm]%BuildHierarchy_Some.
  assert (size h ≤ length files) as Hsize.
  { destruct Hsort as [_ Hheap]. apply heap_perm_size in Hheap.
    cbn [nodes] in Hheap. rewrite <-Hheap. apply link_all_size. }
  set (m := {| roots := Nodes t; nodes := h |}) in *.
  pose proof (consistent_perm _ _ Hsort (link_all_consistent files Hnd)) as Hm.
  pose proof (λ g, BuildHierarchy_parent_of _ _ _ _ _ g Hnd Hbuild) as Hpar.
  assert (∀ s, NoDup (read_slice s m)) as Hslices.
  { intros s. rewrite <-(mem_perm_read s _ _ Hsort). by apply link_all_NoDup. }
  assert (∀ p, p ∈ Nodes t → at_depth h 0 p) as Htop.
  { intros p Hp. apply depth_root. by apply Hm. }
  destruct (preorder_terminates fuel' m 0 (Nodes t) Hm Htop) as [l Hl];
    [lia|unfold m; cbn [nodes]; lia|].
  unfold m in Hl. cbn [nodes] in Hl.
  assert (l ≡ₚ StandardsFile.Path <$> files) as Hperm.
  { apply NoDup_Permutation; [|done|].
    - by apply (preorder_NoDup fuel' m 0 (Nodes t) l Hm Hslices Htop
                  (Hslices RootSlice)).
    - intros q. rewrite (preorder_elem _ _ _ _ q Hl),
        (BuildHierarchy_reach_chain _ _ _ _ _ q Hnd Hbuild).
      split.
      + intros [d Hd%at_depth_is_Some].
        destruct (decide (q ∈ StandardsFile.Path <$> files)) as [|Hq]; [done|].
        rewrite (Hnone q Hq) in Hd. by destruct Hd.
      + intros (f & -> & Hf)%list_elem_of_fmap.
        apply (resolves_at_depth files); [done|].
        by apply (proj1 (Forall_forall _ _) Hall). }
  split; [|split].
  - rewrite getNodeCount_preorder, Hl. cbn.
    by rewrite Hperm, length_fmap.
  - by exists l.
  - rewrite Hlog, link_all_log. apply omap_None_all.
    eapply Forall_impl; [exact Hall|]. intros f Hres. unfold diagnostic_of.
    destruct Hres as [? _ ->|? g _ Hg -> _]; [done|].
    rewrite decide_True; [done|]. by apply list_elem_of_fmap_2.
Qed.

End counting.

(** ** More on [ExtractMDHeader] *)

Lemma required_string_spec s : required_string s = true ↔ s ≠ "".
Proof.
  unfold required_string. rewrite negb_true_iff. apply String.eqb_neq.
Qed.

(** X8.  What [ExtractMDHeader] returns: never both a header and an
    error; a header only when the front matter was decoded into it and its
    title, description and scope are not empty and its topics not [nil]; an
    error only when the file cannot be read or the front matter does not
    parse; and neither when there is no front matter or a required field is
    missing. *)
Theorem extract_result env path r e :
  ExtractMDHeader env path = (r, e) →
  match r, e with
  | Some h, None =>
      (∃ content, os_ReadFile env path = inr content
                  ∧ frontmatter_Parse env content = FmDecoded h)
      ∧ StandardsHeader.Title h ≠ ""
      ∧ StandardsHeader.Description h ≠ ""
      ∧ StandardsHeader.Scope h ≠ ""
      ∧ StandardsHeader.Topics h ≠ None
  | None, Some err =>
      os_ReadFile env path = inl err
      ∨ ∃ content, os_ReadFile env path = inr content
                   ∧ frontmatter_Parse env content = FmError err
  | None, None =>
      ∃ content, os_ReadFile env path = inr content
        ∧ (frontmatter_Parse env content = FmAbsent
           ∨ ∃ h, frontmatter_Parse env content = FmDecoded h
                  ∧ validate_Struct h = false)
  | Some _, Some _ => False
  end.
Proof.
  unfold ExtractMDHeader.
  destruct (os_ReadFile env path) as [err|content] eqn:Hread.
  { intros [= <- <-]. by left. }
  destruct (frontmatter_Parse env content) as [err| |h] eqn:Hparse.
  - intros [= <- <-]. right. eauto.
  - simpl. intros [= <- <-]. eauto.
  - destruct (validate_Struct h) eqn:Hvalid; intros [= <- <-]; [|by eauto 6].
    split; [by eauto|]. unfold validate_Struct in Hvalid.
    rewrite !andb_true_iff, !required_string_spec in Hvalid.
    destruct Hvalid as [[[? ?] ?] Htopics]. repeat split; try done.
    by destruct (StandardsHeader.Topics h).
Qed.

(** X9.  A document whose front matter lacks a required field is skipped,
    not rejected: when the title, the description or the scope is empty, or
    the topics are [nil], [ExtractMDHeader] returns neither a header nor an
    error. *)
Theorem extract_skips_incomplete env path content h :
  os_ReadFile env path = inr content →
  frontmatter_Parse env content = FmDecoded h →
  StandardsHeader.Title h = "" ∨ StandardsHeader.Description h = ""
  ∨ StandardsHeader.Scope h = "" ∨ StandardsHeader.Topics h = None →
  ExtractMDHeader env path = (None, None).
Proof.
  intros Hread Hparse Hmissing. unfold ExtractMDHeader.
  rewrite Hread, Hparse.
  assert (validate_Struct h = false) as ->; [|done].
  unfold validate_Struct, required_string.
  destruct Hmissing as [-> | [-> | [-> | ->]]]; simpl;
    rewrite ?andb_false_r; done.
Qed.

(** ** More on [ParseMDDocuments] *)

Lemma substring_app_r (pre suf : string) :
  String.substring (String.length pre) (String.length suf) (pre +:+ suf) = suf.
Proof.
  induction pre as [|c pre IH]; simpl; [|done].
  induction suf as [|c suf IH]; [done|]. simpl. by f_equal.
Qed.

Lemma string_length_app (a b : string) :
  String.length (a +:+ b) = String.length a + String.length b.
Proof. induction a as [|c a IH]; simpl; [done|]. by rewrite IH. Qed.

Lemma substring_all s : String.substring 0 (String.length s) s = s.
Proof. induction s as [|c s IH]; [done|]. simpl. by f_equal. Qed.

Lemma substring_suffix n s :
  n ≤ String.length s →
  ∃ pre, s = pre +:+ String.substring n (String.length s - n) s.
Proof.
  revert n. induction s as [|c s IH]; intros n Hn.
  { exists "". by destruct n. }
  destruct n as [|n].
  - exists "". rewrite Nat.sub_0_r. by rewrite substring_all.
  - destruct (IH n) as [pre Hpre]; [simpl in Hn; lia|].
    exists (String c pre). simpl. by rewrite Hpre at 1.
Qed.

(** [strings.HasSuffix] *)
Lemma strings_HasSuffix_spec s suffix :
  strings_HasSuffix s suffix = true ↔ ∃ pre, s = pre +:+ suffix.
Proof.
  unfold strings_HasSuffix. rewrite andb_true_iff, bool_decide_eq_true.
  rewrite String.eqb_eq. split.
  - intros [Hlen Hsub].
    destruct (substring_suffix (String.length s - String.length suffix) s)
      as [pre Hpre]; [lia|].
    exists pre. rewrite Hpre at 1. f_equal.
    replace (String.length s - (String.length s - String.length suffix))
      with (String.length suffix) by lia. done.
  - intros [pre ->]. rewrite string_length_app. split; [lia|].
    replace (String.length pre + String.length suffix - String.length suffix)
      with (String.length pre) by lia.
    apply substring_app_r.
Qed.

Lemma visit_spec env st e :
  visit env st e
  = (st.1 ++ option_list (visit_record env e),
     st.2 ++ option_list (visit_skipped env e),
     visit_error env e).
Proof.
  unfold visit, visit_record, visit_skipped, visit_error.
  destruct st as [headers log]. simpl.
  destruct (walk_err e); [by rewrite !app_nil_r|].
  destruct (IsDir _); [by rewrite !app_nil_r|].
  destruct (negb _); [by rewrite !app_nil_r|].
  destruct (ExtractMDHeader env (walk_path e)) as [[header|] [err|]];
    simpl; by rewrite ?app_nil_r.
Qed.

Lemma visit_error_no_record env e err :
  visit_error env e = Some err →
  visit_record env e = None ∧ visit_skipped env e = None.
Proof.
  unfold visit_error, visit_record, visit_skipped.
  destruct (walk_err e); [done|].
  destruct (IsDir _); [done|]. destruct (negb _); [done|].
  by destruct (ExtractMDHeader env (walk_path e)) as [[?|] [?|]].
Qed.

Lemma WalkDir_complete env entries st :
  Forall (λ e, visit_error env e = None) entries →
  WalkDir (visit env) entries st
  = (st.1 ++ omap (visit_record env) entries,
     st.2 ++ omap (visit_skipped env) entries, None).
Proof.
  revert st. induction entries as [|e entries IH]; intros st Hok.
  { simpl. rewrite !app_nil_r. by destruct st. }
  apply Forall_cons in Hok as [He Hok]. simpl.
  rewrite visit_spec, He, IH by done. csimpl.
  destruct (visit_record env e), (visit_skipped env e); simpl;
    by rewrite <-?app_assoc.
Qed.

Lemma WalkDir_abort env pre e post st err :
  Forall (λ e, visit_error env e = None) pre →
  visit_error env e = Some err →
  WalkDir (visit env) (pre ++ e :: post) st
  = (st.1 ++ omap (visit_record env) pre,
     st.2 ++ omap (visit_skipped env) pre, Some err).
Proof.
  revert st. induction pre as [|x pre IH]; intros st Hok He.
  { simpl. rewrite visit_spec, He.
    destruct (visit_error_no_record env e err He) as [-> ->].
    simpl. by rewrite !app_nil_r. }
  apply Forall_cons in Hok as [Hx Hok]. simpl.
  rewrite visit_spec, Hx, IH by done. csimpl.
  destruct (visit_record env x), (visit_skipped env x); simpl;
    by rewrite <-?app_assoc.
Qed.

(** Every walk is complete or stops at a first entry with an error. *)
Lemma walk_cases env (entries : list WalkEntry) :
  Forall (λ e, visit_error env e = None) entries
  ∨ ∃ pre e post err,
      entries = pre ++ e :: post
      ∧ Forall (λ e, visit_error env e = None) pre
      ∧ visit_error env e = Some err.
Proof.
  induction entries as [|x entries IH]; [by left|].
  destruct (visit_error env x) as [err0|] eqn:Hx.
  { right. exists [], x, entries, err0. by repeat split. }
  destruct IH as [IH|(pre & e & post & err & -> & Hpre & He)].
  - left. by constructor.
  - right. exists (x :: pre), e, post, err. repeat split; [|done].
    by constructor.
Qed.

(** [ParseMDDocuments] after a walk that leaves [records], [log] and
    [err]. *)
Lemma ParseMDDocuments_of_walk env root records log err :
  WalkDir (visit env) (filepath_WalkDir env root) ([], [])
  = (records, log, err) →
  ParseMDDocuments env root = (rooted root <$> records, err, log).
Proof.
  intros Hwalk. unfold ParseMDDocuments. rewrite Hwalk.
  f_equal. f_equal. apply (augment_foldl root []).
Qed.

(** X10.  [ParseMDDocuments] stops at the first entry of the walk with an
    error, of the walk itself or of [ExtractMDHeader]: it returns that
    error with the records and the diagnostics of the entries before it,
    and the entries after it are not looked at. *)
Theorem collect_aborts_at_first_error env root pre e post err :
  filepath_WalkDir env root = pre ++ e :: post →
  Forall (λ e, visit_error env e = None) pre →
  visit_error env e = Some err →
  ParseMDDocuments env root
  = (rooted root <$> omap (visit_record env) pre, Some err,
     omap (visit_skipped env) pre).
Proof.
  intros Hwalk Hpre He. apply ParseMDDocuments_of_walk.
  by rewrite Hwalk, (WalkDir_abort env pre e post _ err).
Qed.

(** X11.  When no entry of the walk has an error, [ParseMDDocuments]
    returns no error, one record for each Markdown file with a valid header
    and one diagnostic for each Markdown file without, both in the order of
    the walk, and every parent joined to the root. *)
Theorem collect_complete env root :
  Forall (λ e, visit_error env e = None) (filepath_WalkDir env root) →
  ParseMDDocuments env root
  = (rooted root <$> omap (visit_record env) (filepath_WalkDir env root),
     None, omap (visit_skipped env) (filepath_WalkDir env root)).
Proof.
  intros Hok. apply ParseMDDocuments_of_walk.
  by rewrite WalkDir_complete.
Qed.

Lemma ParseMDDocuments_prefix env root :
  ∃ pre post,
    filepath_WalkDir env root = pre ++ post
    ∧ (ParseMDDocuments env root).1.1
      = rooted root <$> omap (visit_record env) pre.
Proof.
  destruct (walk_cases env (filepath_WalkDir env root))
    as [Hok|(pre & e & post & err & Hwalk & Hpre & He)].
  - exists (filepath_WalkDir env root), []. rewrite app_nil_r.
    split; [done|].
    by rewrite (ParseMDDocuments_of_walk env root _ _ _
                  (WalkDir_complete env _ _ Hok)).
  - exists pre, (e :: post). split; [done|].
    rewrite (ParseMDDocuments_of_walk env root
               (omap (visit_record env) pre) (omap (visit_skipped env) pre)
               (Some err)); [done|].
    by rewrite Hwalk, (WalkDir_abort env pre e post _ err).
Qed.

(** Every record comes from an entry of the walk. *)
Lemma ParseMDDocuments_record env root f :
  f ∈ (ParseMDDocuments env root).1.1 →
  ∃ e g, e ∈ filepath_WalkDir env root
         ∧ visit_record env e = Some g ∧ f = rooted root g.
Proof.
  destruct (ParseMDDocuments_prefix env root) as (pre & post & Hwalk & ->).
  intros (g & -> & (e & He & Hg)%list_elem_of_omap)%list_elem_of_fmap.
  exists e, g. split; [|done]. rewrite Hwalk. apply elem_of_app. by left.
Qed.

Lemma rooted_Path root f :
  StandardsFile.Path (rooted root f) = StandardsFile.Path f.
Proof. unfold rooted. by destruct (file_parent f). Qed.

Lemma visit_record_Some env e f :
  visit_record env e = Some f →
  walk_err e = None ∧ IsDir (walk_d e) = false
  ∧ strings_HasSuffix (Name (walk_d e)) ".md" = true
  ∧ ExtractMDHeader env (walk_path e) = (Some (StandardsFile.Header f), None)
  ∧ StandardsFile.Path f = walk_path e.
Proof.
  unfold visit_record. destruct (walk_err e); [done|].
  destruct (IsDir _); [done|].
  destruct (strings_HasSuffix _ _); [|done]. simpl.
  destruct (ExtractMDHeader env (walk_path e)) as [[header|] [err|]]; try done.
  by intros [= <-].
Qed.

(** X12.  Every record that [ParseMDDocuments] returns is that of a file
    of the walk: an entry without error that is no directory, whose name
    ends in [.md], and for whose path [ExtractMDHeader] returns a header;
    the record has that path and that header, the parent joined to the
    root. *)
Theorem collect_only_markdown env root f :
  f ∈ (ParseMDDocuments env root).1.1 →
  ∃ e stem header,
    e ∈ filepath_WalkDir env root
    ∧ walk_err e = None
    ∧ IsDir (walk_d e) = false
    ∧ Name (walk_d e) = stem +:+ ".md"
    ∧ ExtractMDHeader env (walk_path e) = (Some header, None)
    ∧ f = rooted root (StandardsFile.mk (walk_path e) header).
Proof.
  intros (e & g & He & Hg & ->)%ParseMDDocuments_record.
  apply visit_record_Some in Hg as (Herr & Hdir & Hmd & Hx & Hpath).
  apply strings_HasSuffix_spec in Hmd as [stem Hstem].
  exists e, stem, (StandardsFile.Header g).
  split; [done|].
  repeat split; try done. f_equal. destruct g. simpl in *. by subst.
Qed.

Lemma omap_visit_record_paths env entries :
  StandardsFile.Path <$> omap (visit_record env) entries
  `sublist_of` walk_path <$> entries.
Proof.
  induction entries as [|e entries IH]; [done|]. csimpl.
  destruct (visit_record env e) as [f|] eqn:Hf; csimpl.
  - apply visit_record_Some in Hf as (_ & _ & _ & _ & ->).
    by apply sublist_skip.
  - by apply sublist_cons.
Qed.

Lemma ParseMDDocuments_paths_sublist env root :
  StandardsFile.Path <$> (ParseMDDocuments env root).1.1
  `sublist_of` walk_path <$> filepath_WalkDir env root.
Proof.
  destruct (ParseMDDocuments_prefix env root) as (pre & post & Hwalk & ->).
  rewrite Hwalk, fmap_app, <-list_fmap_compose.
  etrans; [|apply sublist_inserts_r; reflexivity].
  rewrite (list_fmap_ext (StandardsFile.Path ∘ rooted root) StandardsFile.Path)
    by (intros; apply rooted_Path).
  apply omap_visit_record_paths.
Qed.


(** X13.  The paths of the records are paths of the walk, in the order of
    the walk and none more often than the walk has it: there are no more
    records than entries, and when the walk visits no path twice, no two
    records have the same path. *)
Theorem collect_paths_in_walk_order env root :
  let records := (ParseMDDocuments env root).1.1 in
  StandardsFile.Path <$> records
    `sublist_of` walk_path <$> filepath_WalkDir env root
  ∧ length records ≤ length (filepath_WalkDir env root)
  ∧ (NoDup (walk_path <$> filepath_WalkDir env root) →
     NoDup (StandardsFile.Path <$> records)).
Proof.
  intros records. pose proof (ParseMDDocuments_paths_sublist env root) as Hsub.
  split; [done|]. split.
  - apply sublist_length in Hsub. by rewrite !length_fmap in Hsub.
  - intros Hnd. by eapply sublist_NoDup.
Qed.

(** ** [path.Join] on plain paths *)

Lemma slash_elements_head cs :
  path.at_end_or_slash (slash_elements cs) = true.
Proof. by destruct cs. Qed.

Lemma element_plain c rest :
  Forall (λ b, path.is_slash b = false) c →
  path.at_end_or_slash rest = true →
  path.element (c ++ rest) = c.
Proof.
  intros Hc Hrest. induction Hc as [|b c Hb _ IH]; cbn [path.element app].
  - destruct rest as [|b rest]; [done|].
    cbn [path.at_end_or_slash] in Hrest. cbn [path.element]. by rewrite Hrest.
  - by rewrite Hb, IH.
Qed.

(** A plain element is not taken for [.] or [..]. *)
Lemma plain_element_not_dots a c rest :
  plain_element (a :: c) →
  path.at_end_or_slash rest = true →
  path.is_slash a = false
  ∧ path.is_dot a && path.at_end_or_slash (c ++ rest) = false
  ∧ path.is_dot a
    && match c ++ rest with
       | c1 :: rest2 => path.is_dot c1 && path.at_end_or_slash rest2
       | [] => false
       end = false.
Proof.
  intros (_ & Hslash & Hdot & Hdots) Hrest.
  apply Forall_cons in Hslash as [Ha Hc]. split; [done|].
  destruct (path.is_dot a) eqn:Hda; [|done]. simpl.
  apply Ascii.eqb_eq in Hda as ->.
  destruct c as [|c1 c].
  { done. }
  apply Forall_cons in Hc as [Hc1 Hc]. simpl. split; [done|].
  destruct (path.is_dot c1) eqn:Hdc; [|done]. simpl.
  apply Ascii.eqb_eq in Hdc as ->.
  destruct c as [|c2 c]; [done|].
  apply Forall_cons in Hc as [Hc2 Hc]. done.
Qed.

Lemma clean_loop_plain cs rounds out :
  Forall plain_element cs → out ≠ [] →
  length (slash_elements cs) ≤ rounds →
  path.clean_loop rounds false (slash_elements cs) out 0
  = rev (slash_elements cs) ++ out.
Proof.
  intros Hcs. revert rounds out.
  induction Hcs as [|c cs Hc _ IH]; intros rounds out Hout Hrounds.
  { by destruct rounds. }
  unfold slash_elements in *. rewrite fmap_cons in *. cbn [concat] in *.
  fold (slash_elements cs) in *.
  destruct c as [|a c]; [by destruct Hc as [? _]|].
  simpl in Hrounds. rewrite length_app in Hrounds.
  destruct rounds as [|[|rounds]]; [lia..|].
  destruct (plain_element_not_dots a c (slash_elements cs) Hc
              (slash_elements_head cs)) as (Ha & Hdot & Hdots).
  cbn [path.clean_loop app]. cbn [path.is_slash Ascii.eqb]. simpl Ascii.eqb.
  change (path.clean_loop (S rounds) false ((a :: c) ++ slash_elements cs)
            out 0 = rev (("/"%char :: a :: c) ++ slash_elements cs) ++ out).
  cbn [path.clean_loop app]. rewrite Ha, Hdot, Hdots.
  assert (bool_decide (length out = 0) = false) as ->.
  { apply bool_decide_eq_false. by destruct out. }
  cbn [negb andb orb].
  destruct Hc as (_ & Hslash & _).
  change (a :: c ++ slash_elements cs) with ((a :: c) ++ slash_elements cs).
  rewrite element_plain by (done || apply slash_elements_head).
  rewrite drop_app_length. rewrite IH; [| |simpl in *; lia].
  - cbn [rev app]. rewrite !rev_app_distr. cbn [rev app].
    by rewrite <-!app_assoc.
  - intros Hnil. apply app_eq_nil in Hnil as [Hnil _].
    by apply (f_equal length) in Hnil; rewrite length_rev in Hnil.
Qed.

Lemma Clean_plain s : plain_path s → path.Clean s = s.
Proof.
  intros (c & cs & Hc & Hcs & Hs). unfold path.Clean. rewrite Hs.
  destruct c as [|a c]; [by destruct Hc as [? _]|].
  destruct (plain_element_not_dots a c (slash_elements cs) Hc
              (slash_elements_head cs)) as (Ha & Hdot & Hdots).
  cbn [app]. rewrite Ha. cbn [length path.clean_loop].
  rewrite Ha, Hdot, Hdots. cbn [length negb andb orb].
  rewrite bool_decide_eq_true_2 by done. cbn [negb andb orb].
  change (a :: c ++ slash_elements cs) with ((a :: c) ++ slash_elements cs).
  destruct Hc as (_ & Hslash & _).
  rewrite element_plain by (done || apply slash_elements_head).
  rewrite drop_app_length.
  rewrite clean_loop_plain; [|done| |rewrite length_app; lia].
  2:{ rewrite app_nil_r. intros Hnil. apply (f_equal length) in Hnil.
      by rewrite length_rev in Hnil. }
  rewrite app_nil_r, <-rev_app_distr.
  destruct (rev ((a :: c) ++ slash_elements cs)) as [|b out] eqn:Hout.
  { apply (f_equal length) in Hout. by rewrite length_rev in Hout. }
  rewrite <-Hout, rev_involutive, <-Hs.
  apply string_of_list_ascii_of_string.
Qed.

Lemma list_ascii_of_string_app s1 s2 :
  list_ascii_of_string (s1 +:+ s2)
  = list_ascii_of_string s1 ++ list_ascii_of_string s2.
Proof. induction s1 as [|a s1 IH]; [done|]. simpl. by rewrite IH. Qed.

Lemma plain_path_join s1 s2 :
  plain_path s1 → plain_path s2 → plain_path (s1 +:+ "/" +:+ s2).
Proof.
  intros (c1 & cs1 & Hc1 & Hcs1 & Hs1) (c2 & cs2 & Hc2 & Hcs2 & Hs2).
  exists c1, (cs1 ++ c2 :: cs2). split; [done|]. split.
  { apply Forall_app. split; [done|]. by apply Forall_cons. }
  rewrite !list_ascii_of_string_app, Hs1, Hs2. unfold slash_elements.
  rewrite fmap_app, concat_app, fmap_cons. cbn [concat].
  by rewrite <-!app_assoc.
Qed.

Lemma plain_path_nonempty s : plain_path s → s ≠ "".
Proof.
  intros (c & cs & Hc & _ & Hs) ->. destruct Hc as (Hc & _).
  by destruct c.
Qed.

Lemma string_eqb_empty s : s ≠ "" → String.eqb s "" = false.
Proof. intros Hs. by apply String.eqb_neq. Qed.

Lemma string_app_assoc (s1 s2 s3 : string) :
  (s1 +:+ s2) +:+ s3 = s1 +:+ s2 +:+ s3.
Proof.
  induction s1 as [|a s1 IH]; [done|].
  change (String a ((s1 +:+ s2) +:+ s3) = String a (s1 +:+ s2 +:+ s3)).
  by rewrite IH.
Qed.

(** X14.  [path.Join] of two relative paths without empty, [.] and [..]
    elements writes one slash between them and changes nothing else; this
    is the parent that [ParseMDDocuments] gives a record for such a root
    and such a declared parent. *)
Theorem Join_plain root parent :
  plain_path root → plain_path parent →
  path.Join [root; parent] = root +:+ "/" +:+ parent.
Proof.
  intros Hroot Hparent. unfold path.Join.
  rewrite bool_decide_eq_false_2.
  2:{ pose proof (plain_path_nonempty _ Hroot). destruct root; [done|].
      simpl. lia. }
  pose proof (plain_path_nonempty _ Hroot) as Hne.
  cbn [foldl].
  assert (path.join_step "" root = root) as ->.
  { unfold path.join_step. rewrite (string_eqb_empty root) by done. done. }
  unfold path.join_step. rewrite (string_eqb_empty root) by done.
  cbn [negb orb].
  rewrite string_app_assoc. apply Clean_plain. by apply plain_path_join.
Qed.

(** ** The whole run *)

Section whole_run.
Context {sorter : SortSlice} {sorter_laws : SortSliceLaws sorter}.

(** X15.  A document that declares the parent [declared] is, in the tree
    built from the collected records, a child of the node of the document
    whose path is [path.Join(root, declared)], when the walk collected
    one. *)
Theorem collected_child_of_declared_parent fuel env root a b declared ha log t h :
  let records := (ParseMDDocuments env root).1.1 in
  a ∈ records → b ∈ records →
  ExtractMDHeader env (StandardsFile.Path a) = (Some ha, None) →
  StandardsHeader.Parent ha = Some declared →
  StandardsFile.Path b = path.Join [root; declared] →
  BuildHierarchy fuel records = (log, Some (t, h)) →
  StandardsFile.Path a ∈ children h (StandardsFile.Path b).
Proof.
  intros records Ha Hb Hextract Hdeclared Hpath Hbuild.
  destruct (BuildHierarchy_slices _ _ _ _ _ Hbuild) as (_ & Hkids & _).
  rewrite (Hkids (StandardsFile.Path b)) by by apply list_elem_of_fmap_2.
  unfold kids. apply list_elem_of_fmap. exists a. split; [done|].
  apply list_elem_of_filter. split; [|done].
  destruct (ParseMDDocuments_record env root a Ha) as (e & g & _ & Hg & Hrooted).
  apply visit_record_Some in Hg as (_ & _ & _ & He & Hpg).
  assert (StandardsFile.Path a = walk_path e) as Hpa.
  { by rewrite Hrooted, rooted_Path. }
  rewrite Hpa, He in Hextract. injection Hextract as Hheader.
  rewrite Hrooted. unfold rooted, file_parent. rewrite Hheader, Hdeclared.
  cbn. by rewrite Hpath.
Qed.

(** The recursions of [GenerateStandardsTree] end. *)
Lemma GenerateStandardsTree_is_Some fuel env path :
  NoDup (walk_path <$> filepath_WalkDir env path) →
  length (filepath_WalkDir env path) < fuel →
  is_Some (GenerateStandardsTree fuel env path).
Proof.
  intros Hnd Hfuel. unfold GenerateStandardsTree.
  pose proof (ParseMDDocuments_paths_sublist env path) as Hsub.
  destruct (ParseMDDocuments env path) as [[headers [err|]] log];
    cbn [fst snd] in *; [eauto|].
  assert (NoDup (StandardsFile.Path <$> headers)) as Hnd'.
  { by eapply sublist_NoDup. }
  assert (length headers ≤ length (filepath_WalkDir env path)) as Hlen.
  { apply sublist_length in Hsub. by rewrite !length_fmap in Hsub. }
  destruct (BuildHierarchy_returns fuel headers Hnd') as (t & h & Hbuild);
    [lia|].
  rewrite Hbuild. cbn [mbind option_bind].
  pose proof (BuildHierarchy_snd _ _ _ _ Hbuild) as Hsort.
  pose proof (sortChildren_perm _ _ _ _ Hsort) as Hperm.
  destruct (Marshal_terminates fuel {| roots := Nodes t; nodes := h |})
    as [data Hdata].
  - eapply consistent_perm; [exact Hperm|]. by apply link_all_consistent.
  - destruct Hperm as [_ Hheap]. apply heap_perm_size in Hheap.
    cbn [nodes] in *. rewrite <-Hheap.
    pose proof (link_all_size headers). lia.
  - cbn [roots nodes] in Hdata. destruct t as [ns]. cbn [Nodes] in Hdata.
    rewrite Hdata. cbn [mbind option_bind].
    destruct (os_WriteFile env "standards-tree.yaml"); eauto.
Qed.

(** X16.  [GenerateStandardsTree] returns when the walk visits no path
    twice and the fuel exceeds the number of entries of the walk: it fails
    with the error of the walk or with that of the write, or else it has
    written [standards-tree.yaml]. *)
Theorem generate_returns fuel env path :
  NoDup (walk_path <$> filepath_WalkDir env path) →
  length (filepath_WalkDir env path) < fuel →
  ∃ outcome,
    GenerateStandardsTree fuel env path = Some outcome
    ∧ match outcome with
      | Failed err =>
          (ParseMDDocuments env path).1.2 = Some err
          ∨ ((ParseMDDocuments env path).1.2 = None
             ∧ os_WriteFile env "standards-tree.yaml" = Some err)
      | Wrote file _ =>
          file = "standards-tree.yaml"
          ∧ (ParseMDDocuments env path).1.2 = None
          ∧ os_WriteFile env file = None
      end.
Proof.
  intros Hnd Hfuel.
  destruct (GenerateStandardsTree_is_Some fuel env path Hnd Hfuel)
    as [outcome Hrun].
  exists outcome. split; [done|]. revert Hrun. unfold GenerateStandardsTree.
  destruct (ParseMDDocuments env path) as [[headers [err|]] log];
    cbn [fst snd].
  { intros [= <-]. by left. }
  destruct (BuildHierarchy fuel headers).2 as [[t h]|]; [|done].
  cbn [mbind option_bind].
  destruct (yaml.Marshal fuel t h) as [data|]; [|done].
  cbn [mbind option_bind].
  destruct (os_WriteFile env "standards-tree.yaml") as [err|] eqn:Hwrite;
    intros [= <-]; [by right|done].
Qed.

End whole_run.

(** ** The order of the serialised tree *)


Lemma Forall2_Forall_transfer {A B} (P : A → B → Prop) (Q : A → Prop)
    (Q' : B → Prop) l k :
  (∀ a b, P a b → Q a → Q' b) → Forall2 P l k → Forall Q l → Forall Q' k.
Proof.
  intros HQ HP. induction HP as [|a b l k Hab _ IH]; intros Hl; [constructor|].
  apply Forall_cons in Hl as [Ha Hl]. constructor; eauto.
Qed.

Lemma StronglySorted_Forall2 {A B} (P : A → B → Prop) (R : relation A)
    (R' : relation B) l k :
  (∀ a a' b b', P a a' → P b b' → R a b → R' a' b') →
  Forall2 P l k → StronglySorted R l → StronglySorted R' k.
Proof.
  intros HR HP. induction HP as [|a a' l k Ha Hl IH]; intros Hs; [constructor|].
  apply StronglySorted_inv in Hs as [Hs Hall]. constructor; [by apply IH|].
  eapply (Forall2_Forall_transfer P); [|exact Hl|exact Hall].
  intros b b' Hb Hab. by apply (HR a a' b b').
Qed.

Lemma encode_Node_sorted fuel h q y :
  (∀ p, reach h [q] p → sorted_by_title h (children h p)) →
  yaml.encode_Node fuel h q = Some y →
  doc_title y = title h q ∧ doc_sorted y.
Proof.
  revert q y. induction fuel as [|fuel IH]; intros q y Hsorted; [done|].
  cbn [yaml.encode_Node]. unfold title.
  destruct (h !! q) as [n|] eqn:Hn.
  2:{ intros [= <-]. split; [done|]. constructor; constructor. }
  destruct (mapM _ (Node.Children n)) as [cs|] eqn:Hcs; [|done].
  cbn [mbind option_bind]. intros [= <-]. rewrite encode_struct_Node.
  split; [done|].
  apply mapM_Some in Hcs.
  assert (Forall2 (λ c yc, doc_title yc = title h c ∧ doc_sorted yc)
            (Node.Children n) cs) as Hall.
  { eapply Forall2_impl_in; [|exact Hcs]. intros c yc Hc Hyc. cbn in Hyc.
    apply IH; [|done]. intros p Hp. apply Hsorted.
    apply (reach_children h q c); [|done]. unfold children. by rewrite Hn. }
  constructor; cbn.
  - specialize (Hsorted q (reach_here _ _ _ ltac:(left))).
    unfold children in Hsorted. rewrite Hn in Hsorted.
    eapply (StronglySorted_Forall2 _ _ _ _ _ _ Hall), Hsorted.
  - eapply (Forall2_Forall_transfer _ (λ _, True)); [|exact Hall|].
    + by intros c yc [_ ?] _.
    + by apply Forall_forall.
  Unshelve.
  intros a a' b b' [Ha _] [Hb _]. cbn. by rewrite Ha, Hb.
Qed.

Section sorted_document.
Context {sorter : SortSlice} {sorter_laws : SortSliceLaws sorter}.

(** X17.  In the document that [GenerateStandardsTree] writes, the
    sequence under [nodes] and every sequence under [children], at every
    depth, are in ascending order of title. *)
Theorem serialised_titles_ascending fuel env path file data :
  GenerateStandardsTree fuel env path = Some (Wrote file data) →
  ∃ ns, data = yaml.Map [("nodes", yaml.Seq ns)]
        ∧ titles_ascending ns ∧ Forall doc_sorted ns.
Proof.
  unfold GenerateStandardsTree.
  destruct (ParseMDDocuments env path) as [[headers [err|]] log]; [done|].
  destruct (BuildHierarchy fuel headers).2 as [[t h]|] eqn:Hbuild; [|done].
  cbn [mbind option_bind].
  destruct (yaml.Marshal fuel t h) as [y|] eqn:Hy; [|done].
  cbn [mbind option_bind].
  destruct (os_WriteFile env _); [done|]. intros [= <- <-].
  apply BuildHierarchy_snd in Hbuild.
  destruct (sortChildren_sorted _ _ _ _ Hbuild) as [Hroots Hsub].
  unfold sorted_slice, subtree_sorted in *. cbn in Hroots, Hsub.
  unfold yaml.Marshal in Hy.
  destruct (mapM _ (Nodes t)) as [ns|] eqn:Hns; [|done].
  cbn in Hy. injection Hy as <-. exists ns. split; [done|].
  apply mapM_Some in Hns.
  assert (Forall2 (λ c yc, doc_title yc = title h c ∧ doc_sorted yc)
            (Nodes t) ns) as Hall.
  { eapply Forall2_impl_in; [|exact Hns]. intros c yc Hc Hyc. cbn in Hyc.
    apply (encode_Node_sorted fuel); [|done]. intros p Hp. apply Hsub.
    eapply reach_mono; [|done]. by intros ? ->%list_elem_of_singleton. }
  split.
  - eapply (StronglySorted_Forall2 _ _ _ _ _ _ Hall), Hroots.
  - eapply (Forall2_Forall_transfer _ (λ _, True)); [|exact Hall|].
    + by intros c yc [_ ?] _.
    + by apply Forall_forall.
  Unshelve.
  intros a a' b b' [Ha _] [Hb _]. cbn. by rewrite Ha, Hb.
Qed.

End sorted_document.

(** ** The commands *)

Section command_facts.
Context {sorter : SortSlice} {sorter_laws : SortSliceLaws sorter}.
Variable instructions : string.

(** [generate] returns what [GenerateStandardsTree] returns, and has made
    the write that it reports. *)
Lemma generate_GenerateStandardsTree fuel sys path past :
  snd <$> generate fuel sys path past
  = (λ outcome, match outcome with
                | Failed err => Some err
                | Wrote _ _ => None
                end) <$> GenerateStandardsTree fuel (fs sys past) path
  ∧ ∀ file data,
      GenerateStandardsTree fuel (fs sys past) path = Some (Wrote file data) →
      generate fuel sys path past = Some (past ++ [WriteFile file data], None).
Proof.
  unfold generate, GenerateStandardsTree.
  destruct (ParseMDDocuments (fs sys past) path) as [[headers [err|]] log];
    [done|].
  destruct (BuildHierarchy fuel headers).2 as [[t h]|]; [|done].
  cbn [mbind option_bind].
  destruct (yaml.Marshal fuel t h) as [data|]; [|done].
  cbn [mbind option_bind].
  destruct (os_WriteFile _ _) as [err|]; [done|].
  split; [done|]. by intros ?? [= <- <-].
Qed.

Lemma generate_inv fuel sys path past past' r :
  generate fuel sys path past = Some (past', r) →
  (past' = past ∧ is_Some r
   ∧ r = (ParseMDDocuments (fs sys past) path).1.2)
  ∨ (∃ data,
       past' = past ++ [WriteFile "standards-tree.yaml" data]
       ∧ (ParseMDDocuments (fs sys past) path).1.2 = None
       ∧ r = os_WriteFile (fs sys past) "standards-tree.yaml").
Proof.
  unfold generate.
  destruct (ParseMDDocuments (fs sys past) path) as [[headers [err|]] log].
  { cbn. intros [= <- <-]. left. eauto. }
  destruct (BuildHierarchy fuel headers).2 as [[t h]|]; [|done].
  cbn [mbind option_bind].
  destruct (yaml.Marshal fuel t h) as [data|]; [|done].
  cbn. intros [= <- <-]. right. eauto.
Qed.

(** The runs of [Sync] with the cloner that runs git, by the first call
    that fails. *)
Lemma Sync_inv fuel sys repo past past' r :
  Sync fuel sys mkExecGitCloner repo past = Some (past', r) →
  ∃ removal,
    ((removal = [] ∧ is_Some (os_Stat sys past (GitRepository.ClonePath repo)))
     ∨ (removal = [RemoveAll (GitRepository.ClonePath repo)]
        ∧ os_Stat sys past (GitRepository.ClonePath repo) = None))
    ∧ ((removal ≠ []
        ∧ is_Some (os_RemoveAll sys past (GitRepository.ClonePath repo))
        ∧ past' = past ++ removal
        ∧ r = os_RemoveAll sys past (GitRepository.ClonePath repo))
       ∨ ((removal = []
           ∨ os_RemoveAll sys past (GitRepository.ClonePath repo) = None)
          ∧ ∃ cloned,
              cloned = past ++ removal ++ [Command "git" (clone_args repo)]
              ∧ ((is_Some (cmd_Run sys (past ++ removal) "git" (clone_args repo))
                  ∧ past' = cloned
                  ∧ r = cmd_Run sys (past ++ removal) "git" (clone_args repo))
                 ∨ (cmd_Run sys (past ++ removal) "git" (clone_args repo) = None
                    ∧ generate fuel sys (GitRepository.ClonePath repo) cloned
                      = Some (past', r))))).
Proof.
  unfold Sync. set (cp := GitRepository.ClonePath repo).
  assert (∀ removal,
    match Clone mkExecGitCloner sys repo (past ++ removal) with
    | (past2, Some err) => Some (past2, Some err)
    | (past2, None) => generate fuel sys cp past2
    end = Some (past', r) →
    ∃ cloned,
      cloned = past ++ removal ++ [Command "git" (clone_args repo)]
      ∧ ((is_Some (cmd_Run sys (past ++ removal) "git" (clone_args repo))
          ∧ past' = cloned
          ∧ r = cmd_Run sys (past ++ removal) "git" (clone_args repo))
         ∨ (cmd_Run sys (past ++ removal) "git" (clone_args repo) = None
            ∧ generate fuel sys cp cloned = Some (past', r)))) as Hclone.
  { intros removal. unfold Clone, ExecGitCloner_Clone.
    rewrite <-app_assoc.
    destruct (cmd_Run sys _ "git" _) as [err|].
    - intros [= <- <-]. eexists. split; [done|]. left. eauto.
    - intros Hgen. eexists. split; [done|]. by right. }
  destruct (os_Stat sys past cp) as [e|].
  - intros Hrun. exists []. split; [left; eauto|]. right.
    split; [by left|]. apply Hclone. by rewrite app_nil_r.
  - destruct (os_RemoveAll sys past cp) as [err|] eqn:Hremove.
    + intros [= <- <-]. exists [RemoveAll cp]. split; [by right|].
      left. eauto.
    + intros Hrun. exists [RemoveAll cp]. split; [by right|]. right.
      split; [by right|]. by apply Hclone.
Qed.


(** The calls of a run of [Sync] with the cloner that runs git. *)
Lemma Sync_new_calls fuel sys repo past past' r :
  Sync fuel sys mkExecGitCloner repo past = Some (past', r) →
  ∃ new,
    past' = past ++ new
    ∧ (∀ name args, Command name args ∈ new →
                    name = "git" ∧ args = clone_args repo)
    ∧ (∀ s, Println s ∉ new)
    ∧ (r = None →
       ∃ work data,
         new = work ++ [WriteFile "standards-tree.yaml" data]
         ∧ (∀ s, Println s ∉ work)
         ∧ os_WriteFile (fs sys (past ++ work)) "standards-tree.yaml" = None).
Proof.
  intros (removal & Hremoval & Hrun)%Sync_inv.
  assert (∀ c, c ∈ removal ++ [Command "git" (clone_args repo)] →
               c = RemoveAll (GitRepository.ClonePath repo)
               ∨ c = Command "git" (clone_args repo)) as Hprefix.
  { intros c [Hc|Hc%list_elem_of_singleton]%elem_of_app; [|by right].
    destruct Hremoval as [[-> _]|[-> _]].
    - by apply elem_of_nil in Hc.
    - apply list_elem_of_singleton in Hc. by left. }
  destruct Hrun as [(_ & [err Herr] & -> & ->)|(_ & cloned & -> & Hrun)].
  { exists removal. split; [done|]. rewrite Herr. split_and!; [| |done].
    - intros name args Hin.
      destruct (Hprefix (Command name args)) as [[=]|[= -> ->]];
        [apply elem_of_app; by left|done].
    - intros s Hin.
      destruct (Hprefix (Println s)) as [[=]|[=]]. apply elem_of_app; by left. }
  destruct Hrun as [([err Herr] & -> & ->)|(Hgit & Hgen)].
  { exists (removal ++ [Command "git" (clone_args repo)]).
    split; [done|]. rewrite Herr. split_and!; [| |done].
    - intros name args Hin. by destruct (Hprefix _ Hin) as [[=]|[= -> ->]].
    - intros s Hin. by destruct (Hprefix _ Hin) as [[=]|[=]]. }
  apply generate_inv in Hgen as [(-> & [err Herr] & Hr)|(data & -> & _ & ->)].
  - exists (removal ++ [Command "git" (clone_args repo)]).
    split; [done|]. rewrite Herr. split_and!; [| |done].
    + intros name args Hin. by destruct (Hprefix _ Hin) as [[=]|[= -> ->]].
    + intros s Hin. by destruct (Hprefix _ Hin) as [[=]|[=]].
  - exists ((removal ++ [Command "git" (clone_args repo)])
            ++ [WriteFile "standards-tree.yaml" data]).
    split; [by rewrite <-!app_assoc|]. split_and!.
    + intros name args [Hin|[=]%list_elem_of_singleton]%elem_of_app.
      by destruct (Hprefix _ Hin) as [[=]|[= -> ->]].
    + intros s [Hin|[=]%list_elem_of_singleton]%elem_of_app.
      by destruct (Hprefix _ Hin) as [[=]|[=]].
    + intros Hr. exists (removal ++ [Command "git" (clone_args repo)]), data.
      split; [done|]. split.
      * intros s Hin. by destruct (Hprefix _ Hin) as [[=]|[=]].
      * done.
Qed.

(** X19.  The command [sync] never runs git with both [--branch] and
    [--tag]: when both flags are given it returns an error and makes no
    call, and every command it runs otherwise is
    [git clone <repository> .stdidx] followed by at most one of the two
    options. *)
Theorem sync_action_one_option fuel sys cmd past past' r :
  sync_action instructions fuel sys cmd past = Some (past', r) →
  ∃ new,
    past' = past ++ new
    ∧ (flag_branch cmd ≠ "" → flag_tag cmd ≠ "" → new = [] ∧ is_Some r)
    ∧ ∀ name args, Command name args ∈ new →
        name = "git"
        ∧ ∃ option,
            args = ["clone"; flag_repository cmd; ".stdidx"] ++ option
            ∧ (option = []
               ∨ option = ["--branch"; flag_branch cmd]
               ∨ option = ["--tag"; flag_tag cmd]).
Proof.
  unfold sync_action.
  destruct (String.eqb_spec (flag_branch cmd) "") as [Hb|Hb];
    destruct (String.eqb_spec (flag_tag cmd) "") as [Ht|Ht]; cbn [negb andb].
  4:{ intros [= <- <-]. exists []. rewrite app_nil_r. split; [done|].
      split; [eauto|]. by intros ?? ?%elem_of_nil. }
  all: set (repo := GitRepository.mk _ _ _ _);
    destruct (Sync fuel sys mkExecGitCloner repo past) as [[past1 err]|]
      eqn:Hsync; [|done];
    apply Sync_new_calls in Hsync as (new & -> & Hcommands & _);
    cbn [mbind option_bind]; intros Hret;
    assert (∃ printed, past' = (past ++ new) ++ printed
                       ∧ ∀ name args, Command name args ∉ printed)
      as (printed & -> & Hprinted)
      by (destruct err; injection Hret as <- <-;
          [exists []; rewrite app_nil_r; split; [done|];
             by intros ?? ?%elem_of_nil
          |eexists; split; [reflexivity|];
             intros ?? Hin; rewrite !elem_of_cons, elem_of_nil in Hin;
             by destruct Hin as [|[|]]]);
    exists (new ++ printed);
    (split; [by rewrite <-!app_assoc|]);
    (split; [by intros|]);
    intros name args [Hin|Hin]%elem_of_app; [|by apply Hprinted in Hin];
    destruct (Hcommands name args Hin) as [-> ->];
    (split; [done|]);
    unfold clone_args, repo; cbn [GitRepository.Repository
      GitRepository.Branch GitRepository.Tag GitRepository.ClonePath].
  - rewrite Hb, Ht. cbn. exists []. eauto.
  - rewrite Hb. apply String.eqb_neq in Ht. rewrite Ht. cbn.
    exists ["--tag"; flag_tag cmd]. eauto.
  - rewrite Ht. apply String.eqb_neq in Hb. rewrite Hb. cbn.
    exists ["--branch"; flag_branch cmd]. eauto.
Qed.

(** X20.  The actions of [sync] and [index] print the suggested
    instructions exactly when they return [nil]: then their last calls are
    the write of [standards-tree.yaml], which succeeded, and the two
    printed lines, and nothing was printed before; an action that returns
    an error prints nothing. *)
Theorem actions_print_after_success fuel sys cmd action past past' r :
  action = sync_action instructions fuel sys cmd
  ∨ action = index_action instructions fuel sys →
  action past = Some (past', r) →
  printed_on_success instructions sys past past' r.
Proof.
  unfold printed_on_success.
  assert (∀ run past1 err,
    run = Some (past1, err) →
    (∃ new, past1 = past ++ new
       ∧ (∀ s, Println s ∉ new)
       ∧ (err = None →
          ∃ work data,
            new = work ++ [WriteFile "standards-tree.yaml" data]
            ∧ (∀ s, Println s ∉ work)
            ∧ os_WriteFile (fs sys (past ++ work)) "standards-tree.yaml"
              = None)) →
    ('(past1, err) ← run;
     match err with
     | Some err => Some (past1, Some err)
     | None => Some (PrintSuggestedInstructions instructions past1, None)
     end) = Some (past', r) →
    ∃ work,
      (∀ s, Println s ∉ work)
      ∧ match r with
        | None =>
            ∃ data,
              past'
              = PrintSuggestedInstructions instructions
                  (past ++ work ++ [WriteFile "standards-tree.yaml" data])
              ∧ os_WriteFile (fs sys (past ++ work)) "standards-tree.yaml"
                = None
        | Some _ => past' = past ++ work
        end) as Hprint.
  { intros run past1 err -> (new & -> & Hnew & Hok). cbn [mbind option_bind].
    destruct err as [err|]; intros [= <- <-].
    - by exists new.
    - destruct (Hok eq_refl) as (work & data & -> & Hwork & Hwrite).
      exists work. split; [done|]. by exists data. }
  intros [-> | ->].
  - unfold sync_action.
    destruct (negb _ && negb _).
    { intros [= <- <-]. exists []. rewrite app_nil_r. split; [|done].
      by intros ? ?%elem_of_nil. }
    set (repo := GitRepository.mk _ _ _ _).
    destruct (Sync fuel sys mkExecGitCloner repo past) as [[past1 err]|]
      eqn:Hsync; [|done].
    apply (Hprint _ past1 err eq_refl).
    apply Sync_new_calls in Hsync as (new & -> & _ & Hnew & Hok). eauto.
  - unfold index_action, Index.
    destruct (generate fuel sys DefaultClonePath past) as [[past1 err]|]
      eqn:Hgen; [|done].
    apply (Hprint _ past1 err eq_refl).
    apply generate_inv in Hgen as [(-> & [e ->] & _)|(data & -> & _ & ->)].
    + exists []. rewrite app_nil_r. split; [done|].
      split; [by intros ? ?%elem_of_nil|done].
    + eexists. split; [done|]. split.
      * by intros s [=]%list_elem_of_singleton.
      * intros Hw. exists [], data. rewrite app_nil_r.
        split; [done|]. split; [by intros ? ?%elem_of_nil|done].
Qed.

End command_facts.

(** * Concrete runs of the further properties *)

Lemma build_slices_exact_witness :
  ∃ log t h,
    @BuildHierarchy insertion_SortSlice 6 scenario = (log, Some (t, h))
    ∧ Nodes t ≡ₚ tops scenario
    ∧ (∀ p, is_Some (h !! p) ↔ p ∈ StandardsFile.Path <$> scenario)
    ∧ (∀ p, p ∈ StandardsFile.Path <$> scenario →
            children h p ≡ₚ kids scenario p).
Proof.
  destruct (@BuildHierarchy insertion_SortSlice 6 scenario)
    as [log [[t h]|]] eqn:Hbuild; [|by vm_compute in Hbuild].
  exists log, t, h. split; [done|].
  exact (build_slices_exact (sorter := insertion_SortSlice) 6 scenario log t h
           Hbuild).
Defined.

Lemma build_last_record_wins_witness :
  (StandardsFile.Path dup_second ∉ StandardsFile.Path <$> [])
  ∧ ∃ log t h,
      @BuildHierarchy insertion_SortSlice 2 ([dup_first] ++ dup_second :: [])
      = (log, Some (t, h))
      ∧ ∃ n, h !! StandardsFile.Path dup_second = Some n
             ∧ Node.with_Children [] n = new_Node dup_second.
Proof.
  assert (StandardsFile.Path dup_second ∉ StandardsFile.Path <$> []) as Hlast
    by apply not_elem_of_nil.
  split; [done|].
  destruct (@BuildHierarchy insertion_SortSlice 2
              ([dup_first] ++ dup_second :: []))
    as [log [[t h]|]] eqn:Hbuild; [|by vm_compute in Hbuild].
  exists log, t, h. split; [done|].
  exact (build_last_record_wins (sorter := insertion_SortSlice) 2 [dup_first]
           dup_second [] log t h Hbuild Hlast).
Defined.

Lemma build_flat_witness :
  Forall (λ f, file_parent f = None) [tie_x; tie_y]
  ∧ ∃ t h,
      @BuildHierarchy insertion_SortSlice 2 [tie_x; tie_y]
      = ([], Some (t, h))
      ∧ Nodes t ≡ₚ StandardsFile.Path <$> [tie_x; tie_y]
      ∧ ∀ p, children h p = [].
Proof.
  assert (Forall (λ f, file_parent f = None) [tie_x; tie_y]) as Hflat
    by (repeat constructor).
  split; [done|].
  exact (build_flat (sorter := insertion_SortSlice) 0 [tie_x; tie_y] Hflat).
Defined.

Lemma build_reach_iff_resolves_witness :
  (NoDup (StandardsFile.Path <$> scenario) ∧ file_B ∈ scenario)
  ∧ ∃ log t h,
      @BuildHierarchy insertion_SortSlice 6 scenario = (log, Some (t, h))
      ∧ (reach h (Nodes t) (StandardsFile.Path file_B)
         ↔ resolves scenario file_B).
Proof.
  assert (NoDup (StandardsFile.Path <$> scenario)) as Hnd by by_computation.
  assert (file_B ∈ scenario) as Hin by (right; left).
  split; [done|].
  destruct (@BuildHierarchy insertion_SortSlice 6 scenario)
    as [log [[t h]|]] eqn:Hbuild; [|by vm_compute in Hbuild].
  exists log, t, h. split; [done|].
  exact (build_reach_iff_resolves (sorter := insertion_SortSlice) 6 scenario
           log t h file_B Hnd Hbuild Hin).
Defined.

Lemma build_drops_below_dangling_witness :
  (NoDup (StandardsFile.Path <$> lost_branch)
   ∧ file_F ∈ lost_branch ∧ file_E ∈ lost_branch
   ∧ file_parent file_F = Some (StandardsFile.Path file_E)
   ∧ file_parent file_E = Some "missing-path"
   ∧ "missing-path" ∉ StandardsFile.Path <$> lost_branch)
  ∧ ∃ log t h,
      @BuildHierarchy insertion_SortSlice 4 lost_branch = (log, Some (t, h))
      ∧ ¬ reach h (Nodes t) (StandardsFile.Path file_F)
      ∧ StandardsFile.Path file_F ∈ children h (StandardsFile.Path file_E)
      ∧ ∀ e, e ∈ log → ("path", StandardsFile.Path file_F) ∉ log_fields e.
Proof.
  assert (NoDup (StandardsFile.Path <$> lost_branch)) as Hnd by by_computation.
  assert (file_F ∈ lost_branch) as Hf by (do 2 right; left).
  assert (file_E ∈ lost_branch) as Hg by (right; left).
  assert ("missing-path" ∉ StandardsFile.Path <$> lost_branch) as Hpp
    by by_computation.
  split; [done|].
  destruct (@BuildHierarchy insertion_SortSlice 4 lost_branch)
    as [log [[t h]|]] eqn:Hbuild; [|by vm_compute in Hbuild].
  exists log, t, h. split; [done|].
  exact (build_drops_below_dangling (sorter := insertion_SortSlice) 4
           lost_branch file_F file_E "missing-path" log t h
           Hnd Hf Hg eq_refl eq_refl Hpp Hbuild).
Defined.

Lemma build_counts_every_record_witness :
  (NoDup (StandardsFile.Path <$> family)
   ∧ Forall (resolves family) family
   ∧ length family < 5)
  ∧ ∃ log t h,
      @BuildHierarchy insertion_SortSlice 5 family = (log, Some (t, h))
      ∧ getNodeCount 5 h (Nodes t) 0 = Some (length family)
      ∧ (∃ l, preorder 5 h (Nodes t) = Some l
              ∧ l ≡ₚ StandardsFile.Path <$> family)
      ∧ log = [].
Proof.
  assert (NoDup (StandardsFile.Path <$> family)) as Hnd by by_computation.
  assert (file_A ∈ family) as HA by left.
  assert (file_B ∈ family) as HB by (right; left).
  assert (file_C ∈ family) as HC by (do 2 right; left).
  assert (file_D ∈ family) as HD by (do 3 right; left).
  assert (resolves family file_A) as HrA by by apply resolves_top.
  assert (resolves family file_C) as HrC by by apply resolves_top.
  assert (Forall (resolves family) family) as Hall.
  { repeat apply Forall_cons_2; [done| |done| |constructor].
    - by apply (resolves_child family file_B file_A).
    - by apply (resolves_child family file_D file_C). }
  assert (length family < 5) as Hlen by (simpl; lia).
  split; [done|].
  destruct (@BuildHierarchy insertion_SortSlice 5 family)
    as [log [[t h]|]] eqn:Hbuild; [|by vm_compute in Hbuild].
  exists log, t, h. split; [done|].
  exact (build_counts_every_record (sorter := insertion_SortSlice) 5 5 family
           log t h Hnd Hall Hbuild Hlen).
Defined.

Lemma extract_result_witness :
  ExtractMDHeader example_env "tree/A.md" = (Some header_A, None)
  ∧ (∃ content, os_ReadFile example_env "tree/A.md" = inr content
                ∧ frontmatter_Parse example_env content = FmDecoded header_A)
  ∧ StandardsHeader.Title header_A ≠ ""
  ∧ StandardsHeader.Description header_A ≠ ""
  ∧ StandardsHeader.Scope header_A ≠ ""
  ∧ StandardsHeader.Topics header_A ≠ None.
Proof.
  split; [reflexivity|].
  exact (extract_result example_env "tree/A.md" (Some header_A) None eq_refl).
Defined.

Lemma extract_skips_incomplete_witness :
  (os_ReadFile drafts_env "drafts/ABOUT.md" = inr doc_ABOUT
   ∧ frontmatter_Parse drafts_env doc_ABOUT = FmDecoded header_ABOUT
   ∧ StandardsHeader.Title header_ABOUT = "")
  ∧ ExtractMDHeader drafts_env "drafts/ABOUT.md" = (None, None).
Proof.
  split; [by repeat split|].
  exact (extract_skips_incomplete drafts_env "drafts/ABOUT.md" doc_ABOUT
           header_ABOUT eq_refl eq_refl (or_introl eq_refl)).
Defined.

Lemma collect_aborts_at_first_error_witness :
  (filepath_WalkDir drafts_env "drafts"
   = [entry_drafts; entry_ABOUT] ++ entry_BAD :: [entry_LATER]
   ∧ Forall (λ e, visit_error drafts_env e = None) [entry_drafts; entry_ABOUT]
   ∧ visit_error drafts_env entry_BAD
     = Some "yaml: line 1: did not find expected ',' or ']'")
  ∧ ParseMDDocuments drafts_env "drafts"
    = (rooted "drafts"
         <$> omap (visit_record drafts_env) [entry_drafts; entry_ABOUT],
       Some "yaml: line 1: did not find expected ',' or ']'",
       omap (visit_skipped drafts_env) [entry_drafts; entry_ABOUT]).
Proof.
  assert (Forall (λ e, visit_error drafts_env e = None)
            [entry_drafts; entry_ABOUT]) as Hpre
    by (repeat constructor).
  split; [by repeat split|].
  exact (collect_aborts_at_first_error drafts_env "drafts"
           [entry_drafts; entry_ABOUT] entry_BAD [entry_LATER]
           "yaml: line 1: did not find expected ',' or ']'"
           eq_refl Hpre eq_refl).
Defined.

Lemma collect_complete_witness :
  Forall (λ e, visit_error example_env e = None)
    (filepath_WalkDir example_env "tree")
  ∧ ParseMDDocuments example_env "tree"
    = (rooted "tree"
         <$> omap (visit_record example_env) (filepath_WalkDir example_env "tree"),
       None,
       omap (visit_skipped example_env) (filepath_WalkDir example_env "tree")).
Proof.
  assert (Forall (λ e, visit_error example_env e = None)
            (filepath_WalkDir example_env "tree")) as Hok
    by (repeat constructor).
  split; [done|].
  exact (collect_complete example_env "tree" Hok).
Defined.

Lemma collect_only_markdown_witness :
  record_A ∈ (ParseMDDocuments example_env "tree").1.1
  ∧ ∃ e stem header,
      e ∈ filepath_WalkDir example_env "tree"
      ∧ walk_err e = None
      ∧ IsDir (walk_d e) = false
      ∧ Name (walk_d e) = stem +:+ ".md"
      ∧ ExtractMDHeader example_env (walk_path e) = (Some header, None)
      ∧ record_A = rooted "tree" (StandardsFile.mk (walk_path e) header).
Proof.
  assert ((ParseMDDocuments example_env "tree").1.1 = [record_A; record_OTHER])
    as Hrun by by vm_compute.
  assert (record_A ∈ (ParseMDDocuments example_env "tree").1.1) as Hin
    by (rewrite Hrun; left).
  split; [done|].
  exact (collect_only_markdown example_env "tree" record_A Hin).
Defined.

Lemma Join_plain_witness :
  (plain_path "tree" ∧ plain_path "sub/OTHER.md")
  ∧ path.Join ["tree"; "sub/OTHER.md"] = "tree" +:+ "/" +:+ "sub/OTHER.md".
Proof.
  assert (∀ s, s ∈ ["tree"; "sub"; "OTHER.md"] →
               plain_element (list_ascii_of_string s)) as Helement.
  { intros s Hs. rewrite !elem_of_cons, elem_of_nil in Hs.
    destruct Hs as [->|[->|[->|[]]]]; unfold plain_element; by_computation. }
  assert (plain_path "tree") as Hroot.
  { exists (list_ascii_of_string "tree"), [].
    split; [apply Helement; left|]. split; [constructor|reflexivity]. }
  assert (plain_path "sub/OTHER.md") as Hparent.
  { exists (list_ascii_of_string "sub"), [list_ascii_of_string "OTHER.md"].
    split; [apply Helement; right; left|].
    split; [|reflexivity].
    apply Forall_cons_2; [apply Helement; do 2 right; left|constructor]. }
  split; [done|].
  exact (Join_plain "tree" "sub/OTHER.md" Hroot Hparent).
Defined.

Lemma collected_child_of_declared_parent_witness :
  (record_A ∈ (ParseMDDocuments example_env "tree").1.1
   ∧ record_OTHER ∈ (ParseMDDocuments example_env "tree").1.1
   ∧ ExtractMDHeader example_env (StandardsFile.Path record_A)
     = (Some header_A, None)
   ∧ StandardsHeader.Parent header_A = Some "sub/OTHER.md"
   ∧ StandardsFile.Path record_OTHER = path.Join ["tree"; "sub/OTHER.md"])
  ∧ ∃ log t h,
      @BuildHierarchy insertion_SortSlice 3
        (ParseMDDocuments example_env "tree").1.1 = (log, Some (t, h))
      ∧ StandardsFile.Path record_A ∈ children h (StandardsFile.Path record_OTHER).
Proof.
  assert ((ParseMDDocuments example_env "tree").1.1 = [record_A; record_OTHER])
    as Hrun by by vm_compute.
  assert (record_A ∈ (ParseMDDocuments example_env "tree").1.1) as Ha
    by (rewrite Hrun; left).
  assert (record_OTHER ∈ (ParseMDDocuments example_env "tree").1.1) as Hb
    by (rewrite Hrun; right; left).
  assert (StandardsFile.Path record_OTHER = path.Join ["tree"; "sub/OTHER.md"])
    as Hjoin by by vm_compute.
  split; [done|].
  destruct (@BuildHierarchy insertion_SortSlice 3
              (ParseMDDocuments example_env "tree").1.1)
    as [log [[t h]|]] eqn:Hbuild; [|by vm_compute in Hbuild].
  exists log, t, h. split; [done|].
  exact (collected_child_of_declared_parent (sorter := insertion_SortSlice) 3
           example_env "tree" record_A record_OTHER "sub/OTHER.md" header_A
           log t h Ha Hb eq_refl eq_refl Hjoin Hbuild).
Defined.

Lemma generate_returns_witness :
  (NoDup (walk_path <$> filepath_WalkDir example_env "tree")
   ∧ length (filepath_WalkDir example_env "tree") < 7)
  ∧ ∃ outcome,
      @GenerateStandardsTree insertion_SortSlice 7 example_env "tree"
      = Some outcome
      ∧ match outcome with
        | Failed err =>
            (ParseMDDocuments example_env "tree").1.2 = Some err
            ∨ ((ParseMDDocuments example_env "tree").1.2 = None
               ∧ os_WriteFile example_env "standards-tree.yaml" = Some err)
        | Wrote file _ =>
            file = "standards-tree.yaml"
            ∧ (ParseMDDocuments example_env "tree").1.2 = None
            ∧ os_WriteFile example_env file = None
        end.
Proof.
  assert (NoDup (walk_path <$> filepath_WalkDir example_env "tree")) as Hnd
    by by_computation.
  assert (length (filepath_WalkDir example_env "tree") < 7) as Hlen
    by (simpl; lia).
  split; [done|].
  exact (generate_returns (sorter := insertion_SortSlice) 7 example_env "tree"
           Hnd Hlen).
Defined.

Lemma serialised_titles_ascending_witness :
  ∃ file data,
    @GenerateStandardsTree insertion_SortSlice 4 clone_env ".stdidx"
    = Some (Wrote file data)
    ∧ ∃ ns, data = yaml.Map [("nodes", yaml.Seq ns)]
            ∧ titles_ascending ns ∧ Forall doc_sorted ns
            ∧ doc_title <$> ns = ["Golang"; "Style guide"]
            ∧ (λ y, doc_title <$> doc_children y) <$> ns
              = [["Commands"; "REST"]; []].
Proof.
  destruct (@GenerateStandardsTree insertion_SortSlice 4 clone_env ".stdidx")
    as [[err|file data]|] eqn:Hrun;
    [by vm_compute in Hrun| |by vm_compute in Hrun].
  exists file, data. split; [done|].
  destruct (serialised_titles_ascending (sorter := insertion_SortSlice) 4
              clone_env ".stdidx" file data Hrun)
    as (ns & Hdata & Hascending & Hsorted).
  assert ((λ outcome,
             match outcome with
             | Wrote _ (yaml.Map [(_, yaml.Seq ns)]) =>
                 (doc_title <$> ns, (λ y, doc_title <$> doc_children y) <$> ns)
             | _ => ([], [])
             end)
            <$> @GenerateStandardsTree insertion_SortSlice 4 clone_env ".stdidx"
          = Some (["Golang"; "Style guide"], [["Commands"; "REST"]; []]))
    as Hsummary by by vm_compute.
  rewrite Hrun, Hdata in Hsummary. injection Hsummary as Htitles Hchildren.
  exists ns. repeat split; assumption.
Defined.


Lemma sync_action_one_option_witness :
  ∃ past' r,
    @sync_action insertion_SortSlice example_instructions 7 example_system
      example_flags [] = Some (past', r)
    ∧ ∃ new,
        past' = [] ++ new
        ∧ (flag_branch example_flags ≠ "" → flag_tag example_flags ≠ "" →
           new = [] ∧ is_Some r)
        ∧ ∀ name args, Command name args ∈ new →
            name = "git"
            ∧ ∃ option,
                args = ["clone"; flag_repository example_flags; ".stdidx"]
                       ++ option
                ∧ (option = []
                   ∨ option = ["--branch"; flag_branch example_flags]
                   ∨ option = ["--tag"; flag_tag example_flags]).
Proof.
  destruct (@sync_action insertion_SortSlice example_instructions 7
              example_system example_flags []) as [[past' r]|] eqn:Hrun;
    [|by vm_compute in Hrun].
  exists past', r. split; [done|].
  exact (sync_action_one_option (sorter := insertion_SortSlice)
           example_instructions 7 example_system example_flags [] past' r Hrun).
Defined.

Lemma actions_print_after_success_witness :
  (∃ past',
     @sync_action insertion_SortSlice example_instructions 4 clone_system
       example_flags [] = Some (past', None)
     ∧ printed_on_success example_instructions clone_system [] past' None)
  ∧ (@index_action insertion_SortSlice example_instructions 4 clone_system []
     = Some ([], Some "lstat: no such file or directory")
     ∧ printed_on_success example_instructions clone_system [] []
         (Some "lstat: no such file or directory")).
Proof.
  split.
  - destruct (@sync_action insertion_SortSlice example_instructions 4
                clone_system example_flags []) as [[past' [err|]]|] eqn:Hrun;
      [by vm_compute in Hrun| |by vm_compute in Hrun].
    exists past'. split; [done|].
    exact (actions_print_after_success (sorter := insertion_SortSlice)
             example_instructions 4 clone_system example_flags
             (@sync_action insertion_SortSlice example_instructions 4
                clone_system example_flags)
             [] past' None (or_introl eq_refl) Hrun).
  - assert (@index_action insertion_SortSlice example_instructions 4
              clone_system []
            = Some ([], Some "lstat: no such file or directory")) as Hrun
      by by vm_compute.
    split; [done|].
    exact (actions_print_after_success (sorter := insertion_SortSlice)
             example_instructions 4 clone_system example_flags
             (@index_action insertion_SortSlice example_instructions 4
                clone_system)
             [] [] (Some "lstat: no such file or directory")
             (or_intror eq_refl) Hrun).
Defined.
